(** * Sonic Geometry: the music theory engine and the chord analyzer

    A shallow embedding of [theory-engine.js] (class [MusicTheoryEngine] and
    its catalog tables) and, from the visualizer, of
    [ChordAnalyzer.identify], of the on-screen keyboard with its scale and
    chord overlays, and of the dispatch of MIDI messages, followed by the
    properties proved about them.

    Conventions of the embedding.
    - JavaScript integers are [Z]; the remainder operator [%] is [Z.rem]
      (sign of the dividend) and [Math.floor (a / 12)] is [a / 12] on [Z].
      Where a loop counts with a double ([generateKeyboard]) the range of
      the safe integers is part of the definition.
    - Catalog objects are association lists in definition order, which is
      the order [Object.entries] enumerates them in.  A property read
      [table[key]] goes through [JS.get], which also accounts for the
      names every object inherits from [Object.prototype].
    - A call either completes normally or throws: [completion].
    - Scores and the frequencies handed to the analyzer are rationals
      (every finite double is one).  Transcendental floating-point
      operations ([Math.log2], [Math.pow]) are never computed: a tempered
      frequency is recorded by the MIDI number that determines it, and the
      rounding of a measured frequency is a parameter of the functions that
      need it. *)

From Stdlib Require Import String Ascii DecimalString ZArith QArith Qminmax.
From Stdlib Require Import DecimalPos DecimalZ.
From Stdlib Require Import List Bool Lia Lqa Permutation Sorted.
Import ListNotations.

Open Scope string_scope.
Open Scope Z_scope.

(* ------------------------------------------------------------------ *)
(** ** The JavaScript layer *)
(* ------------------------------------------------------------------ *)

Module JS.

(** Errors a call can raise.  The engine itself contains no [throw]; the
    only errors reachable are the [TypeError]s of reading a property of
    [undefined] or [null].  [UserError] stands for a thrown application
    error, identified by its class name. *)
Inductive error : Type :=
| TypeError
| UserError (class_name : string).

Inductive completion (A : Type) : Type :=
| Return (a : A)
| Throw (e : error).
Arguments Return {A} a.
Arguments Throw {A} e.

Definition bind {A B : Type} (c : completion A) (k : A -> completion B)
  : completion B :=
  match c with
  | Return a => k a
  | Throw e => Throw e
  end.

(** [Array.prototype.map] with a callback that may throw. *)
Fixpoint mapM {A B : Type} (f : A -> completion B) (l : list A)
  : completion (list B) :=
  match l with
  | [] => Return []
  | x :: t =>
      bind (f x) (fun y => bind (mapM f t) (fun ys => Return (y :: ys)))
  end.

(** Names every object literal inherits from [Object.prototype]. *)
Definition Object_prototype_names : list string :=
  [ "constructor"; "__defineGetter__"; "__defineSetter__";
    "hasOwnProperty"; "__lookupGetter__"; "__lookupSetter__";
    "isPrototypeOf"; "propertyIsEnumerable"; "toString"; "valueOf";
    "__proto__"; "toLocaleString" ].

(** The outcome of the property read [o[k]] on an object literal [o]:
    an own property, a value found on the prototype (a function, or the
    prototype object itself for [__proto__]; always truthy and never a
    catalog entry), or [undefined]. *)
Inductive property (A : Type) : Type :=
| Own (a : A)
| Inherited
| Undefined.
Arguments Own {A} a.
Arguments Inherited {A}.
Arguments Undefined {A}.

Fixpoint own {A : Type} (o : list (string * A)) (k : string) : option A :=
  match o with
  | [] => None
  | (k', v) :: rest => if String.eqb k' k then Some v else own rest k
  end.

Definition includes (l : list string) (x : string) : bool :=
  existsb (String.eqb x) l.

Definition get {A : Type} (o : list (string * A)) (k : string)
  : property A :=
  match own o k with
  | Some v => Own v
  | None => if includes Object_prototype_names k then Inherited
            else Undefined
  end.

(** [l.indexOf(x)] on an array of strings, counting from [i]. *)
Fixpoint indexOf_from (i : Z) (l : list string) (x : string) : Z :=
  match l with
  | [] => -1
  | y :: t => if String.eqb y x then i else indexOf_from (i + 1) t x
  end.

Definition indexOf (l : list string) (x : string) : Z := indexOf_from 0 l x.

(** [[...new Set(l)]]: the distinct elements in order of first insertion. *)
Fixpoint Set_add {A : Type} (eqb : A -> A -> bool) (s : list A) (x : A)
  : list A :=
  match s with
  | [] => [x]
  | y :: t => if eqb y x then s else y :: Set_add eqb t x
  end.

Definition Set_spread {A : Type} (eqb : A -> A -> bool) (l : list A)
  : list A :=
  fold_left (Set_add eqb) l [].

(** [Array.prototype.sort(cmp)]: the stable sort by the sign of the
    comparator.  An element moves behind another exactly when the
    comparator is positive on the pair. *)
Definition positive (q : Q) : bool := 0 <? Qnum q.

Fixpoint sort_insert {A : Type} (cmp : A -> A -> Q) (x : A) (l : list A)
  : list A :=
  match l with
  | [] => [x]
  | y :: t => if positive (cmp x y) then y :: sort_insert cmp x t
              else x :: l
  end.

Fixpoint sort {A : Type} (cmp : A -> A -> Q) (l : list A) : list A :=
  match l with
  | [] => []
  | x :: t => sort_insert cmp x (sort cmp t)
  end.

(** [JSON.stringify(a) === JSON.stringify(b)] on arrays of integers. *)
Fixpoint same_json (a b : list Z) : bool :=
  match a, b with
  | [], [] => true
  | x :: a', y :: b' => Z.eqb x y && same_json a' b'
  | _, _ => false
  end.

(** Conversion of an integer to its decimal string. *)
Definition toString (z : Z) : string := NilZero.string_of_int (Z.to_int z).

(** [l.map((x, i) => f x i)]. *)
Fixpoint mapi_from {A B : Type} (i : Z) (f : A -> Z -> B) (l : list A)
  : list B :=
  match l with
  | [] => []
  | x :: t => f x i :: mapi_from (i + 1) f t
  end.

(** [a[i]] on an array: [None] is [undefined]. *)
Definition at_index {A : Type} (a : list A) (i : Z) : option A :=
  if i <? 0 then None else nth_error a (Z.to_nat i).

End JS.

Import JS.

Notation "x <- c ;; k" := (JS.bind c (fun x => k))
  (at level 61, c at next level, right associativity).

(* ------------------------------------------------------------------ *)
(** ** Constants and catalog tables *)
(* ------------------------------------------------------------------ *)

Definition NOTE_NAMES : list string :=
  ["C"; "C#"; "D"; "D#"; "E"; "F"; "F#"; "G"; "G#"; "A"; "A#"; "B"].

Definition NOTE_NAMES_FLAT : list string :=
  ["C"; "Db"; "D"; "Eb"; "E"; "F"; "Gb"; "G"; "Ab"; "A"; "Bb"; "B"].

Definition A4_FREQUENCY : Z := 440.
Definition A4_MIDI_NUMBER : Z := 69.

Record interval_entry : Type := mkInterval {
  iv_semitones : Z;
  iv_justRatio : string;
  iv_equalRatio : Q;
  iv_name : string;
  iv_abbrev : string;
  iv_quality : string
}.

Definition INTERVALS : list (string * interval_entry) :=
  [ ("unison", mkInterval 0 "1:1" (1000 # 1000) "Unison" "P1" "perfect");
    ("minorSecond",
      mkInterval 1 "16:15" (1059 # 1000) "Minor 2nd" "m2" "dissonant");
    ("majorSecond",
      mkInterval 2 "9:8" (1122 # 1000) "Major 2nd" "M2" "dissonant");
    ("minorThird",
      mkInterval 3 "6:5" (1189 # 1000) "Minor 3rd" "m3" "consonant");
    ("majorThird",
      mkInterval 4 "5:4" (1260 # 1000) "Major 3rd" "M3" "consonant");
    ("perfectFourth",
      mkInterval 5 "4:3" (1335 # 1000) "Perfect 4th" "P4" "perfect");
    ("tritone", mkInterval 6 "45:32" (1414 # 1000) "Tritone" "TT" "dissonant");
    ("perfectFifth",
      mkInterval 7 "3:2" (1498 # 1000) "Perfect 5th" "P5" "perfect");
    ("minorSixth",
      mkInterval 8 "8:5" (1587 # 1000) "Minor 6th" "m6" "consonant");
    ("majorSixth",
      mkInterval 9 "5:3" (1682 # 1000) "Major 6th" "M6" "consonant");
    ("minorSeventh",
      mkInterval 10 "9:5" (1782 # 1000) "Minor 7th" "m7" "dissonant");
    ("majorSeventh",
      mkInterval 11 "15:8" (1888 # 1000) "Major 7th" "M7" "dissonant");
    ("octave", mkInterval 12 "2:1" (2000 # 1000) "Octave" "P8" "perfect") ].

(** A scale template.  The [description] prose of the source is display
    text only and is not carried. *)
Record scale_entry : Type := mkScale {
  sc_intervals : list Z;
  sc_name : string
}.

Definition SCALES : list (string * scale_entry) :=
  [ ("major", mkScale [0; 2; 4; 5; 7; 9; 11] "Major (Ionian)");
    ("naturalMinor", mkScale [0; 2; 3; 5; 7; 8; 10] "Natural Minor (Aeolian)");
    ("harmonicMinor", mkScale [0; 2; 3; 5; 7; 8; 11] "Harmonic Minor");
    ("melodicMinor", mkScale [0; 2; 3; 5; 7; 9; 11] "Melodic Minor");
    ("ionian", mkScale [0; 2; 4; 5; 7; 9; 11] "Ionian");
    ("dorian", mkScale [0; 2; 3; 5; 7; 9; 10] "Dorian");
    ("phrygian", mkScale [0; 1; 3; 5; 7; 8; 10] "Phrygian");
    ("lydian", mkScale [0; 2; 4; 6; 7; 9; 11] "Lydian");
    ("mixolydian", mkScale [0; 2; 4; 5; 7; 9; 10] "Mixolydian");
    ("aeolian", mkScale [0; 2; 3; 5; 7; 8; 10] "Aeolian");
    ("locrian", mkScale [0; 1; 3; 5; 6; 8; 10] "Locrian");
    ("majorPentatonic", mkScale [0; 2; 4; 7; 9] "Major Pentatonic");
    ("minorPentatonic", mkScale [0; 3; 5; 7; 10] "Minor Pentatonic");
    ("blues", mkScale [0; 3; 5; 6; 7; 10] "Blues Scale");
    ("majorBlues", mkScale [0; 2; 3; 4; 7; 9] "Major Blues");
    ("chromatic",
      mkScale [0; 1; 2; 3; 4; 5; 6; 7; 8; 9; 10; 11] "Chromatic");
    ("wholeNote", mkScale [0; 2; 4; 6; 8; 10] "Whole Tone");
    ("diminished",
      mkScale [0; 2; 3; 5; 6; 8; 9; 11] "Diminished (Half-Whole)") ].

Record chord_entry : Type := mkChord {
  ch_intervals : list Z;
  ch_symbol : string;
  ch_name : string;
  ch_formula : string;
  ch_quality : string
}.

Definition CHORD_TYPES : list (string * chord_entry) :=
  [ ("major", mkChord [0; 4; 7] "" "Major" "R-M3-P5" "consonant");
    ("minor", mkChord [0; 3; 7] "m" "Minor" "R-m3-P5" "consonant");
    ("diminished", mkChord [0; 3; 6] "dim" "Diminished" "R-m3-d5" "dissonant");
    ("augmented", mkChord [0; 4; 8] "aug" "Augmented" "R-M3-A5" "dissonant");
    ("sus2", mkChord [0; 2; 7] "sus2" "Suspended 2nd" "R-M2-P5" "open");
    ("sus4", mkChord [0; 5; 7] "sus4" "Suspended 4th" "R-P4-P5" "open");
    ("major7", mkChord [0; 4; 7; 11] "maj7" "Major 7th" "R-M3-P5-M7" "jazzy");
    ("minor7", mkChord [0; 3; 7; 10] "m7" "Minor 7th" "R-m3-P5-m7" "jazzy");
    ("dominant7",
      mkChord [0; 4; 7; 10] "7" "Dominant 7th" "R-M3-P5-m7" "tension");
    ("diminished7",
      mkChord [0; 3; 6; 9] "dim7" "Diminished 7th" "R-m3-d5-d7" "tension");
    ("halfDiminished",
      mkChord [0; 3; 6; 10] "m7b5" "Half-Diminished" "R-m3-d5-m7" "tension");
    ("minorMajor7",
      mkChord [0; 3; 7; 11] "mMaj7" "Minor-Major 7th" "R-m3-P5-M7" "exotic");
    ("augmented7",
      mkChord [0; 4; 8; 10] "aug7" "Augmented 7th" "R-M3-A5-m7" "exotic");
    ("add9", mkChord [0; 4; 7; 14] "add9" "Add 9" "R-M3-P5-M9" "bright");
    ("minor9",
      mkChord [0; 3; 7; 10; 14] "m9" "Minor 9th" "R-m3-P5-m7-M9" "smooth");
    ("major9",
      mkChord [0; 4; 7; 11; 14] "maj9" "Major 9th" "R-M3-P5-M7-M9" "lush") ].

Record diatonic_pattern : Type := mkPattern {
  triads : list string;
  numerals : list string;
  sevenths : list string
}.

Definition DIATONIC_PATTERNS : list (string * diatonic_pattern) :=
  [ ("major",
      mkPattern
        ["major"; "minor"; "minor"; "major"; "major"; "minor"; "diminished"]
        ["I"; "ii"; "iii"; "IV"; "V"; "vi"; "vii°"]
        ["major7"; "minor7"; "minor7"; "major7"; "dominant7"; "minor7";
         "halfDiminished"]);
    ("naturalMinor",
      mkPattern
        ["minor"; "diminished"; "major"; "minor"; "minor"; "major"; "major"]
        ["i"; "ii°"; "III"; "iv"; "v"; "VI"; "VII"]
        ["minor7"; "halfDiminished"; "major7"; "minor7"; "minor7"; "major7";
         "dominant7"]);
    ("harmonicMinor",
      mkPattern
        ["minor"; "diminished"; "augmented"; "minor"; "major"; "major";
         "diminished"]
        ["i"; "ii°"; "III+"; "iv"; "V"; "VI"; "vii°"]
        ["minorMajor7"; "halfDiminished"; "augmented7"; "minor7";
         "dominant7"; "major7"; "diminished7"]);
    ("dorian",
      mkPattern
        ["minor"; "minor"; "major"; "major"; "minor"; "diminished"; "major"]
        ["i"; "ii"; "III"; "IV"; "v"; "vi°"; "VII"]
        ["minor7"; "minor7"; "major7"; "dominant7"; "minor7";
         "halfDiminished"; "major7"]) ].

(* ------------------------------------------------------------------ *)
(** ** The music theory engine *)
(* ------------------------------------------------------------------ *)

(** An element of a note array handed to [identifyChord] or [detectKey]:
    a note name, a frequency in Hz, or a sounding-note object
    [{ note, freq }]. *)
Inductive note_input : Type :=
| ByName (name : string)
| ByFrequency (freq : Q)
| ByObject (note : string) (freq : Q).

(** What such an element is reduced to before it reaches [noteToIndex]. *)
Inductive js_value : Type :=
| VString (s : string)
| VUndefined
| VObject.

Definition flatToSharp : list (string * string) :=
  [ ("Db", "C#"); ("Eb", "D#"); ("Fb", "E"); ("Gb", "F#"); ("Ab", "G#");
    ("Bb", "A#"); ("Cb", "B") ].

(** [flatToSharp[note] || note], then [NOTE_NAMES.indexOf].  Every own
    value of [flatToSharp] is a non-empty string, hence truthy; an
    inherited value is truthy too but is not a string, so that [indexOf],
    which compares with [===], answers [-1]. *)
Definition noteToIndex (note : string) : Z :=
  match get flatToSharp note with
  | Own sharp => indexOf NOTE_NAMES sharp
  | Inherited => -1
  | Undefined => indexOf NOTE_NAMES note
  end.

(** [noteToIndex] on an arbitrary array element: a value that is not a
    string is no key of [flatToSharp] and no element of [NOTE_NAMES]. *)
Definition noteToIndex_value (v : js_value) : Z :=
  match v with
  | VString s => noteToIndex s
  | VUndefined | VObject => -1
  end.

(** [((index % 12) + 12) % 12] lies in [0..11] for every integer, so the
    array read never leaves the table; the default is unreachable. *)
Definition indexToNote (index : Z) (useFlats : bool) : string :=
  let normalized := Z.rem (Z.rem index 12 + 12) 12 in
  nth (Z.to_nat normalized)
      (if useFlats then NOTE_NAMES_FLAT else NOTE_NAMES) "".

(** An equal-tempered frequency [A4_FREQUENCY * 2 ^ (steps / 12)], recorded
    by the integer [steps] that determines the double. *)
Record tempered : Type := mkTempered { semitones_from_A4 : Z }.

Definition noteToFrequency (note : string) (octave : Z) : tempered :=
  let noteIndex := noteToIndex note in
  let midiNote := (octave + 1) * 12 + noteIndex in
  mkTempered (midiNote - A4_MIDI_NUMBER).

(** The result of [getInterval].  The field [frequencyRatio], a four
    decimal rendering of a floating-point power, is not carried. *)
Record interval_result : Type := mkIntervalResult {
  ir_semitones : Z;
  ir_halfSteps : Z;
  ir_wholeSteps : Q;
  ir_justRatio : string;
  ir_name : string;
  ir_quality : string
}.

Definition getInterval (noteA noteB : string) : interval_result :=
  let indexA := noteToIndex noteA in
  let indexB := noteToIndex noteB in
  let semitones := Z.rem ((indexB - indexA) + 12) 12 in
  let intervalEntry :=
    find (fun e => Z.eqb (iv_semitones (snd e)) semitones) INTERVALS in
  let intervalData := option_map snd intervalEntry in
  mkIntervalResult
    semitones
    semitones
    (inject_Z semitones / 2)
    match intervalData with
    | Some d => iv_justRatio d
    | None => "N/A"
    end
    match intervalData with
    | Some d => iv_name d
    | None => toString semitones ++ " semitones"
    end
    match intervalData with
    | Some d => iv_quality d
    | None => "unknown"
    end.

Record scale_result : Type := mkScaleResult {
  sr_root : string;
  sr_type : string;
  sr_name : string;
  sr_notes : list string;
  sr_intervals : list Z;
  sr_noteIndices : list Z
}.

(** [null] is [None].  A scale type that is only an inherited property
    name yields a truthy [scale] without [intervals], and the call
    [scale.intervals.map] throws. *)
Definition getScaleNotes (root scaleType : string)
  : completion (option scale_result) :=
  match get SCALES scaleType with
  | Undefined => Return None
  | Inherited => Throw TypeError
  | Own scale =>
      let rootIndex := noteToIndex root in
      let notes :=
        map (fun interval => indexToNote (Z.rem (rootIndex + interval) 12) false)
            (sc_intervals scale) in
      Return (Some (mkScaleResult
        root
        scaleType
        (root ++ " " ++ sc_name scale)
        notes
        (sc_intervals scale)
        (map (fun i => Z.rem (rootIndex + i) 12) (sc_intervals scale))))
  end.

(** [scale?.notes.includes(note) || false]. *)
Definition isNoteInScale (note root scaleType : string) : completion bool :=
  scale <- getScaleNotes root scaleType ;;
  Return match scale with
         | Some sc => includes (sr_notes sc) note
         | None => false
         end.

Record chord_tone : Type := mkTone {
  ct_note : string;
  ct_octave : Z;
  ct_frequency : tempered
}.

Record chord_result : Type := mkChordResult {
  cr_root : string;
  cr_type : string;
  cr_name : string;
  cr_fullName : string;
  cr_notes : list string;
  cr_intervals : list Z;
  cr_formula : string;
  cr_quality : string;
  cr_frequencies : list chord_tone
}.

(** The tone at position [i] pairs the note [n] with the template offset
    [chord.intervals[i]]; [notes] is the image of [chord.intervals], so
    the two arrays are traversed in step. *)
Definition buildChord (root chordType : string)
  : completion (option chord_result) :=
  match get CHORD_TYPES chordType with
  | Undefined => Return None
  | Inherited => Throw TypeError
  | Own chord =>
      let rootIndex := noteToIndex root in
      let notes :=
        map (fun interval => indexToNote (Z.rem (rootIndex + interval) 12) false)
            (ch_intervals chord) in
      Return (Some (mkChordResult
        root
        chordType
        (root ++ ch_symbol chord)
        (root ++ " " ++ ch_name chord)
        notes
        (ch_intervals chord)
        (ch_formula chord)
        (ch_quality chord)
        (map (fun ni =>
                let n := fst ni in
                let interval := snd ni in
                mkTone n
                       (4 + (rootIndex + interval) / 12)
                       (noteToFrequency n (4 + (rootIndex + interval) / 12)))
             (combine notes (ch_intervals chord)))))
  end.

Record diatonic_entry : Type := mkDiatonic {
  de_degree : Z;
  de_numeral : option string;
  de_root : string;
  de_chord : option chord_result;
  de_chordType : option string
}.

Definition indexed {A : Type} (l : list A) : list (A * Z) :=
  mapi_from 0 (fun x i => (x, i)) l.

(** A missing second argument of [buildChord] takes the default ['major']. *)
Definition chordType_or_default (t : option string) : string :=
  match t with
  | Some s => s
  | None => "major"
  end.

Definition getDiatonicChords (root scaleType : string) (useSevenths : bool)
  : completion (option (list diatonic_entry)) :=
  match get DIATONIC_PATTERNS scaleType with
  | Undefined => Return None
  | Inherited =>
      (* a truthy [pattern] without arrays; [getScaleNotes] is called
         first and throws on the same inherited name *)
      _ <- getScaleNotes root scaleType ;;
      Throw TypeError
  | Own pattern =>
      scale <- getScaleNotes root scaleType ;;
      match scale with
      | None => Throw TypeError
      | Some sc =>
          let chordTypes :=
            if useSevenths then sevenths pattern else triads pattern in
          entries <-
            mapM (fun ni =>
                    let note := fst ni in
                    let i := snd ni in
                    chord <- buildChord note
                               (chordType_or_default (at_index chordTypes i)) ;;
                    Return (mkDiatonic
                              (i + 1)
                              (at_index (numerals pattern) i)
                              note
                              chord
                              (at_index chordTypes i)))
                 (indexed (sr_notes sc)) ;;
          Return (Some entries)
      end
  end.

(** The three shapes [identifyChord] returns: [null], the built chord
    spread into an object with a [confidence], or the no-match object
    [{ notes, name, confidence }]. *)
Inductive identify_result : Type :=
| Null
| Identified (chord : option chord_result) (confidence : Q)
| Unidentified (notes : list string) (name : string) (confidence : Q).

Definition canonical (v : js_value) : string :=
  indexToNote (noteToIndex_value v) false.

Definition ascending (a b : Z) : Q := inject_Z (a - b).

Definition relative_intervals (uniqueNotes : list string)
  (potentialRoot : string) : list Z :=
  let rootIndex := noteToIndex potentialRoot in
  sort ascending
       (map (fun n => Z.rem ((noteToIndex n - rootIndex) + 12) 12) uniqueNotes).

(** The inner loop over [Object.entries(CHORD_TYPES)]; [None] means the
    loop ran to its end without returning. *)
Fixpoint match_chord_types (potentialRoot : string) (intervals : list Z)
  (entries : list (string * chord_entry))
  : option (completion identify_result) :=
  match entries with
  | [] => None
  | (type, data) :: rest =>
      let chordIntervals := sort ascending (ch_intervals data) in
      if same_json intervals chordIntervals
      then Some (chord <- buildChord potentialRoot type ;;
                 Return (Identified chord 1))
      else match_chord_types potentialRoot intervals rest
  end.

(** The outer loop over the candidate roots. *)
Fixpoint try_roots (uniqueNotes roots : list string)
  : option (completion identify_result) :=
  match roots with
  | [] => None
  | potentialRoot :: rest =>
      match match_chord_types potentialRoot
              (relative_intervals uniqueNotes potentialRoot) CHORD_TYPES with
      | Some r => Some r
      | None => try_roots uniqueNotes rest
      end
  end.

(** [typeof n === 'string' ? n : n.note]. *)
Definition chord_note_name (n : note_input) : js_value :=
  match n with
  | ByName s => VString s
  | ByFrequency _ => VUndefined
  | ByObject note _ => VString note
  end.

Definition chord_unique_notes (notes : list note_input) : list string :=
  let noteNames := map chord_note_name notes in
  Set_spread String.eqb (map canonical noteNames).

Definition identifyChord (notes : list note_input)
  : completion identify_result :=
  let uniqueNotes := chord_unique_notes notes in
  if Z.of_nat (length uniqueNotes) <? 2 then Return Null
  else
    match try_roots uniqueNotes uniqueNotes with
    | Some r => r
    | None => Return (Unidentified uniqueNotes "Unknown" 0)
    end.

Record key_candidate : Type := mkCandidate {
  kc_key : string;
  kc_root : string;
  kc_scale : string;
  kc_score : Q;
  kc_matchedNotes : Z;
  kc_totalNotes : Z
}.

(** The scale types [detectKey] tries for every root. *)
Definition detect_scales : list string :=
  ["major"; "naturalMinor"; "dorian"; "mixolydian"].

(** The (root, scaleType) pairs in the order of the two nested loops. *)
Definition key_candidates : list (string * string) :=
  flat_map (fun root => map (fun scaleType => (root, scaleType)) detect_scales)
           NOTE_NAMES.

(** One iteration of the inner loop: [Some] is the object pushed on
    [results], [None] is an iteration that pushes nothing.  The quotient
    is a double in the source; numerator and denominator are integers of
    magnitude at most a few dozen and the denominator is the same for all
    candidates of a run, so that signs and comparisons of the doubles
    agree with those of the exact quotients. *)
Definition score_key (uniqueNotes : list string) (candidate : string * string)
  : completion (option key_candidate) :=
  let root := fst candidate in
  let scaleType := snd candidate in
  scale <- getScaleNotes root scaleType ;;
  match scale with
  | None => Throw TypeError
  | Some sc =>
      let inScale :=
        Z.of_nat (length (filter (includes (sr_notes sc)) uniqueNotes)) in
      let outOfScale := Z.of_nat (length uniqueNotes) - inScale in
      let score :=
        (inject_Z (inScale - outOfScale * 2)
         / inject_Z (Z.of_nat (length uniqueNotes)))%Q in
      Return (if positive score
              then Some (mkCandidate
                           (root ++ " " ++ sr_name sc)
                           root
                           scaleType
                           (Qmax 0 score)
                           inScale
                           (Z.of_nat (length uniqueNotes)))
              else None)
  end.

Definition pushed {A : Type} (l : list (option A)) : list A :=
  flat_map (fun o => match o with Some a => [a] | None => [] end) l.

(** The comparator [(a, b) => b.score - a.score]. *)
Definition by_score_descending (a b : key_candidate) : Q :=
  (kc_score b - kc_score a)%Q.

(** [Boolean(v)] on an array element. *)
Definition truthy (v : js_value) : bool :=
  match v with
  | VString s => negb (String.eqb s "")
  | VUndefined => false
  | VObject => true
  end.

Section FrequencyInput.

(** [Math.round(12 * Math.log2(freq / A4_FREQUENCY) + A4_MIDI_NUMBER)],
    a floating-point computation; [None] when the result is not a
    finite number. *)
Variable roundedMidi : Q -> option Z.

(** [None] is [undefined], the read of [NOTE_NAMES] at [NaN]. *)
Definition frequencyToNote (freq : Q) : option string :=
  match roundedMidi freq with
  | Some midiNote => Some (indexToNote (Z.rem midiNote 12) false)
  | None => None
  end.

Definition key_note_name (n : note_input) : js_value :=
  match n with
  | ByName s => VString s
  | ByFrequency f =>
      match frequencyToNote f with
      | Some s => VString s
      | None => VUndefined
      end
  | ByObject note _ =>
      if String.eqb note "" then VObject else VString note
  end.

Definition key_unique_notes (notes : list note_input) : list string :=
  let noteNames := filter truthy (map key_note_name notes) in
  Set_spread String.eqb (map canonical noteNames).

Definition detectKey (notes : list note_input)
  : completion (list key_candidate) :=
  let uniqueNotes := key_unique_notes notes in
  if Z.of_nat (length uniqueNotes) <? 2 then Return []
  else
    results <- mapM (score_key uniqueNotes) key_candidates ;;
    Return (firstn 5 (sort by_score_descending (pushed results))).

End FrequencyInput.

(* ------------------------------------------------------------------ *)
(** ** The visualizer's chord analyzer *)
(* ------------------------------------------------------------------ *)

Module ChordAnalyzer.

(** A sounding note [{ freq, note }] as [getActiveNotes] builds it. *)
Record sounding : Type := mkSounding { freq : Q; note : string }.

Definition loc : Type := nat.

(** The objects the analyzer reads and allocates.  Arrays and the
    result live in the store and are referred to by location, so that
    an update through one reference is seen through every other. *)
Inductive object : Type :=
| NoteArray (elems : list sounding)
| NumberArray (elems : list Z)
| StringArray (elems : list string)
| Analysis (root : string) (chordName : string) (semitones : loc)
           (ratios : loc) (stability : string).

Definition store : Type := list object.

Fixpoint write (s : store) (l : loc) (o : object) : store :=
  match s, l with
  | [], _ => []
  | _ :: rest, O => o :: rest
  | x :: rest, S l' => x :: write rest l' o
  end.

Definition alloc (s : store) (o : object) : store * loc :=
  ((s ++ [o])%list, length s).

Definition intervals : list (Z * string) :=
  [ (3, "Minor Third"); (4, "Major Third"); (5, "Perfect Fourth");
    (7, "Perfect Fifth"); (12, "Octave") ].

Definition chords : list (string * string) :=
  [ ("0-4-7", "Major Triad"); ("0-3-7", "Minor Triad");
    ("0-4-7-11", "Major 7th"); ("0-3-7-10", "Minor 7th");
    ("0-4-7-10", "Dominant 7th"); ("0-3-6", "Diminished");
    ("0-4-8", "Augmented") ].

(** The comparator [(a, b) => a.freq - b.freq]. *)
Definition by_freq (a b : sounding) : Q := (freq a - freq b)%Q.

Fixpoint interval_name (table : list (Z * string)) (k : Z) : option string :=
  match table with
  | [] => None
  | (k', v) :: rest => if Z.eqb k' k then Some v else interval_name rest k
  end.

Definition dissonant_classes : list Z := [1; 2; 6; 10; 11].

Section Identify.

(** The two floating-point renderings of a frequency ratio:
    [Math.round(12 * Math.log2(f / r))] and [(f / r).toFixed(2)]. *)
Variable semitoneDistance : Q -> Q -> Z.
Variable ratioText : Q -> Q -> string.

(** [identify(activeNotes)], where [activeNotes] is a reference into
    the store.  The result is the new store and the returned
    reference ([None] is [null]).  The key joined from integers
    contains digits and dashes only, so the read of [this.chords]
    never meets an inherited name.  A reference that does not point
    to an array of sounding notes is outside the input type. *)
Definition identify (s : store) (activeNotes : loc)
  : completion (store * option loc) :=
  match nth_error s activeNotes with
  | Some (NoteArray elems) =>
      if Z.of_nat (length elems) <? 2 then Return (s, None)
      else
        let sorted := sort by_freq elems in
        let s1 := write s activeNotes (NoteArray sorted) in
        match sorted with
        | [] => Throw TypeError
        | root :: _ =>
            let semitones :=
              map (fun n => semitoneDistance (freq n) (freq root)) sorted in
            let uniqueSemitones := Set_spread Z.eqb semitones in
            let key := String.concat "-" (map toString uniqueSemitones) in
            let chordName :=
              match own chords key with
              | Some c => Some c
              | None =>
                  if Z.of_nat (length uniqueSemitones) =? 2
                  then match at_index uniqueSemitones 1 with
                       | Some interval =>
                           match interval_name intervals interval with
                           | Some nm => Some nm
                           | None => Some "Interval"
                           end
                       | None => Some "Interval"
                       end
                  else None
              end in
            let ratios :=
              map (fun n => ratioText (freq n) (freq root)) sorted in
            let stability :=
              if existsb (fun st =>
                            existsb (Z.eqb (Z.rem st 12)) dissonant_classes)
                         uniqueSemitones
              then "Dissonant" else "Consonant" in
            let (s2, semitonesRef) := alloc s1 (NumberArray uniqueSemitones) in
            let (s3, ratiosRef) := alloc s2 (StringArray ratios) in
            let (s4, result) :=
              alloc s3 (Analysis (note root)
                                 match chordName with
                                 | Some c => c
                                 | None => "Unknown"
                                 end
                                 semitonesRef ratiosRef stability) in
            Return (s4, Some result)
        end
  | _ => Throw TypeError
  end.

End Identify.

End ChordAnalyzer.

(* ------------------------------------------------------------------ *)
(** ** Progressions and modulation *)
(* ------------------------------------------------------------------ *)

(** A progression template.  As for the scales, the [description] prose
    is not carried; [keyType] is present on some entries only. *)
Record progression_entry : Type := mkProgression {
  pg_degrees : list Z;
  pg_name : string;
  pg_keyType : option string
}.

Definition PROGRESSIONS : list (string * progression_entry) :=
  [ ("popCanon", mkProgression [1; 5; 6; 4] "Pop Canon (I-V-vi-IV)" None);
    ("fifties", mkProgression [1; 6; 4; 5] "Fifties (I-vi-IV-V)" None);
    ("deepHouse1",
      mkProgression [1; 6; 3; 7] "Deep House Classic (i-VI-III-VII)"
                    (Some "minor"));
    ("deepHouse2",
      mkProgression [1; 4; 7; 3] "Emotional Deep (i-iv-VII-III)"
                    (Some "minor"));
    ("deepHouse3",
      mkProgression [1; 4; 6; 5] "Uplifting Minor (i-iv-VI-V)"
                    (Some "minor"));
    ("twoFiveOne", mkProgression [2; 5; 1] "ii-V-I" None);
    ("andalusian",
      mkProgression [1; 7; 6; 5] "Andalusian Cadence (i-VII-VI-V)"
                    (Some "minor"));
    ("blues12",
      mkProgression [1; 1; 1; 1; 4; 4; 1; 1; 5; 4; 1; 5] "12-Bar Blues"
                    None) ].

(** One element of the array [buildProgression] returns:
    [{ position, degree, ...diatonic[degree - 1] }].  The spread copies
    the fields of the diatonic entry, its [degree] included, over the
    two fields written first; when [degree - 1] is no index of
    [diatonic] the spread adds nothing and the remaining fields are
    absent ([None]). *)
Record progression_step : Type := mkStep {
  ps_position : Z;
  ps_degree : Z;
  ps_numeral : option string;
  ps_root : option string;
  ps_chord : option chord_result;
  ps_chordType : option string
}.

Definition progression_step_of (diatonic : list diatonic_entry)
  (degree index : Z) : progression_step :=
  match at_index diatonic (degree - 1) with
  | Some e =>
      mkStep (index + 1) (de_degree e) (de_numeral e) (Some (de_root e))
             (de_chord e) (de_chordType e)
  | None => mkStep (index + 1) degree None None None None
  end.

(** [buildProgression(progressionKey, root, scaleType)].  A progression
    key that is only an inherited property name yields a truthy
    [progression] without [degrees]: once the diatonic chords are there,
    [progression.degrees.map] throws. *)
Definition buildProgression (progressionKey root scaleType : string)
  : completion (option (list progression_step)) :=
  match get PROGRESSIONS progressionKey with
  | Undefined => Return None
  | Inherited =>
      diatonic <- getDiatonicChords root scaleType false ;;
      match diatonic with
      | None => Return None
      | Some _ => Throw TypeError
      end
  | Own progression =>
      diatonic <- getDiatonicChords root scaleType false ;;
      match diatonic with
      | None => Return None
      | Some d =>
          Return (Some (mapi_from 0 (progression_step_of d)
                                  (pg_degrees progression)))
      end
  end.

Record pivot : Type := mkPivot {
  pv_chord : string;
  pv_inKeyA : string;
  pv_inKeyB : string;
  pv_suggestion : string
}.

(** [entry.chord.name]: reading [name] of a [null] chord throws. *)
Definition diatonic_chord_name (e : diatonic_entry) : completion string :=
  match de_chord e with
  | Some c => Return (cr_name c)
  | None => Throw TypeError
  end.

(** A value inside a template string: [undefined] prints as such. *)
Definition template_text (s : option string) : string :=
  match s with
  | Some t => t
  | None => "undefined"
  end.

(** The body of the two nested loops of [findPivotChords] for one pair
    of chords: [Some] is the object pushed on [pivots]. *)
Definition pivot_of (rootA scaleA rootB scaleB : string)
  (pair : diatonic_entry * diatonic_entry) : completion (option pivot) :=
  let chordA := fst pair in
  let chordB := snd pair in
  nameA <- diatonic_chord_name chordA ;;
  nameB <- diatonic_chord_name chordB ;;
  Return (if String.eqb nameA nameB
          then Some (mkPivot
                       nameA
                       (template_text (de_numeral chordA)
                        ++ " of " ++ rootA ++ " " ++ scaleA)
                       (template_text (de_numeral chordB)
                        ++ " of " ++ rootB ++ " " ++ scaleB)
                       ("Play " ++ nameA ++ ", then move to "
                        ++ rootB ++ " " ++ scaleB))
          else None).

Definition findPivotChords (rootA scaleA rootB scaleB : string)
  : completion (list pivot) :=
  chordsA <- getDiatonicChords rootA scaleA false ;;
  chordsB <- getDiatonicChords rootB scaleB false ;;
  match chordsA, chordsB with
  | Some a, Some b =>
      found <- mapM (pivot_of rootA scaleA rootB scaleB) (list_prod a b) ;;
      Return (pushed found)
  | _, _ => Return []
  end.

Definition getKeyRelationship (semitones : Z) (fromScale toScale : string)
  : string :=
  if (semitones =? 0) && negb (String.eqb fromScale toScale)
  then "Parallel (same root, different mode)"
  else if (semitones =? 7) || (semitones =? 5)
  then "Dominant/Subdominant relationship"
  else if (semitones =? 3) || (semitones =? 9)
  then "Relative Major/Minor"
  else if (semitones =? 2) || (semitones =? 10)
  then "Whole step away"
  else if (semitones =? 1) || (semitones =? 11)
  then "Half step away (dramatic!)"
  else toString semitones ++ " semitones apart".

Definition getModulationTechniques (semitones : Z) : list string :=
  let techniques :=
    [ "Use a pivot chord shared by both keys";
      "Use a ii-V-I in the new key" ] in
  let techniques :=
    if (semitones =? 1) || (semitones =? 11)
    then (techniques ++ [ "Direct modulation (bold key change)";
                          "Chromatic bass line leading to new key" ])%list
    else techniques in
  let techniques :=
    if semitones =? 7
    then (techniques ++ [ "Tonicize V (make V feel like temporary I)";
                          "Use V/V (secondary dominant)" ])%list
    else techniques in
  if semitones =? 5
  then (techniques ++ [ "Plagal cadence to new key" ])%list
  else techniques.

(** [SCALES[scaleType]?.name || scaleType].  An inherited property is a
    function whose [name] is the property name, except [constructor],
    whose name is [Object], and [__proto__], an object without a
    [name], where the fallback gives the property name as well. *)
Definition scale_label (scaleType : string) : string :=
  match get SCALES scaleType with
  | Own scale =>
      if String.eqb (sc_name scale) "" then scaleType else sc_name scale
  | Inherited =>
      if String.eqb scaleType "constructor" then "Object" else scaleType
  | Undefined => scaleType
  end.

Record modulation : Type := mkModulation {
  md_fromKey : string;
  md_toKey : string;
  md_semitoneDistance : Z;
  md_relationship : string;
  md_pivotChords : list pivot;
  md_techniques : list string
}.

Definition suggestModulation (fromRoot fromScale toRoot toScale : string)
  : completion modulation :=
  pivots <- findPivotChords fromRoot fromScale toRoot toScale ;;
  let fromIndex := noteToIndex fromRoot in
  let toIndex := noteToIndex toRoot in
  let distance := Z.rem ((toIndex - fromIndex) + 12) 12 in
  Return (mkModulation
            (fromRoot ++ " " ++ scale_label fromScale)
            (toRoot ++ " " ++ scale_label toScale)
            distance
            (getKeyRelationship distance fromScale toScale)
            (firstn 3 pivots)
            (getModulationTechniques distance)).

(* ------------------------------------------------------------------ *)
(** ** The on-screen keyboard and the MIDI input *)
(* ------------------------------------------------------------------ *)

(** The array [notes] of [generateKeyboard], repeated verbatim in
    [MIDIHandler.getNoteName] and [EarTrainer.getNoteName]: sharps for
    C# and F#, flats for Eb, Ab and Bb. *)
Definition keyboard_notes : list string :=
  [ "C"; "C#"; "D"; "Eb"; "E"; "F"; "F#"; "G"; "Ab"; "A"; "Bb"; "B" ].

Definition natural_notes : list string :=
  [ "C"; "D"; "E"; "F"; "G"; "A"; "B" ].

(** The two shortcut tables of [generateKeyboard]. *)
Definition octave3_map : list (string * string) :=
  [ ("C", "a"); ("C#", "w"); ("D", "s"); ("Eb", "e"); ("E", "d");
    ("F", "f"); ("F#", "t"); ("G", "g"); ("Ab", "y"); ("A", "h");
    ("Bb", "u"); ("B", "j") ].

Definition octave4_map : list (string * string) :=
  [ ("C", "k"); ("C#", "o"); ("D", "l"); ("Eb", "p"); ("E", ";");
    ("F", "'"); ("F#", "]"); ("G", "7"); ("Ab", "8"); ("A", "9");
    ("Bb", "0"); ("B", "-") ].

(** [map[noteName] || ''], where [noteName] is an element of [notes] or
    [undefined], which reads the property named [undefined].  An
    inherited value would be a function; no name read here is inherited,
    so that branch is never taken. *)
Definition shortcut (map : list (string * string))
  (noteName : option string) : string :=
  match get map (template_text noteName) with
  | Own c => c
  | Inherited => ""
  | Undefined => ""
  end.

(** [noteName === n]. *)
Definition is_name (noteName : option string) (n : string) : bool :=
  match noteName with
  | Some x => String.eqb x n
  | None => false
  end.

Record piano_key : Type := mkKey {
  pk_note : string;
  pk_freq : tempered;
  pk_key : string;
  pk_color : string;
  pk_midi : Z
}.

(** The body of the loop of [generateKeyboard] for the MIDI number [m]. *)
Definition piano_key_of (m : Z) : piano_key :=
  let noteIndex := Z.rem m 12 in
  let octave := m / 12 - 1 in
  let noteName := at_index keyboard_notes noteIndex in
  let freq := mkTempered (m - 69) in
  let isBlack :=
    negb match noteName with
         | Some n => includes natural_notes n
         | None => false
         end in
  let keyChar := "" in
  let keyChar :=
    if octave =? 3 then shortcut octave3_map noteName else keyChar in
  let keyChar :=
    if octave =? 4 then shortcut octave4_map noteName else keyChar in
  let keyChar :=
    if octave =? 2
    then
      let keyChar := if is_name noteName "C" then "z" else keyChar in
      let keyChar := if is_name noteName "D" then "x" else keyChar in
      let keyChar := if is_name noteName "E" then "c" else keyChar in
      let keyChar := if is_name noteName "F" then "v" else keyChar in
      let keyChar := if is_name noteName "G" then "b" else keyChar in
      let keyChar := if is_name noteName "A" then "n" else keyChar in
      let keyChar := if is_name noteName "B" then "m" else keyChar in
      keyChar
    else keyChar in
  mkKey (template_text noteName ++ toString octave)
        freq
        keyChar
        (if isBlack then "black" else "white")
        m.

(** The values [m] takes in [for (let m = startMidi; m <= endMidi; m++)]. *)
Definition midi_range (startMidi endMidi : Z) : list Z :=
  map (fun k => startMidi + Z.of_nat k)
      (seq 0 (Z.to_nat (endMidi - startMidi + 1))).

(** [Number.MAX_SAFE_INTEGER]: the integers up to it in magnitude are
    doubles, and a sum, difference or product of such integers is exact
    whenever the result is one of them. *)
Definition MAX_SAFE_INTEGER : Z := 2 ^ 53 - 1.

Definition safe_integer (z : Z) : bool :=
  (- MAX_SAFE_INTEGER <=? z) && (z <=? MAX_SAFE_INTEGER).

(** [generateKeyboard(startOctave, endOctave)] for integer octaves.  The
    loop counter [m] is a double.  The embedding follows the source as
    long as every number the loop computes with, from [startMidi - 69]
    up to [endMidi + 1], is a safe integer, where the arithmetic on
    doubles is exact.  Beyond that range the numbers are rounded, and
    [m++] can leave [m] unchanged so that the loop need not end: [None]
    marks the calls outside the range, which the embedding does not
    describe. *)
Definition generateKeyboard (startOctave endOctave : Z)
  : option (list piano_key) :=
  let startMidi := (startOctave + 1) * 12 in
  let endMidi := (endOctave + 1) * 12 in
  if safe_integer (startMidi - 69) && safe_integer (endMidi + 1)
  then Some (map piano_key_of (midi_range startMidi endMidi))
  else None.

Definition pianoKeys : option (list piano_key) := generateKeyboard 3 5.

(** A key element of the page: its [data-note] attribute ([None] when
    absent) and its class list. *)
Record key_element : Type := mkKeyElement {
  ke_note : option string;
  ke_classes : list string
}.

(** [classList.add], [classList.remove] and [classList.toggle(c, force)]
    on the ordered set of class names. *)
Definition classList_add (classes : list string) (c : string)
  : list string :=
  if includes classes c then classes else (classes ++ [c])%list.

Definition classList_remove (classes : list string) (c : string)
  : list string :=
  filter (fun x => negb (String.eqb x c)) classes.

Definition classList_toggle (classes : list string) (c : string)
  (force : bool) : list string :=
  if force then classList_add classes c else classList_remove classes c.

(** [s.replace(/\d+/g, '')]: the string without its decimal digits. *)
Definition is_digit (c : ascii) : bool :=
  ((48 <=? nat_of_ascii c) && (nat_of_ascii c <=? 57))%nat.

Fixpoint strip_digits (s : string) : string :=
  match s with
  | EmptyString => EmptyString
  | String c t => if is_digit c then strip_digits t
                  else String c (strip_digits t)
  end.

(** The callback of [keys.forEach] in [updateKeyboardOverlay]; an element
    without a [data-note], or with an empty one, is left alone. *)
Definition overlay_key (currentKeyRoot : string) (scale : scale_result)
  (key : key_element) : key_element :=
  match ke_note key with
  | None => key
  | Some noteName =>
      if String.eqb noteName "" then key
      else
        let noteOnly := strip_digits noteName in
        let inScale := includes (sr_notes scale) noteOnly in
        let isRoot := String.eqb noteOnly currentKeyRoot in
        let classes := ke_classes key in
        let classes := classList_toggle classes "in-scale" inScale in
        let classes :=
          classList_toggle classes "out-of-scale" (negb inScale) in
        let classes := classList_toggle classes "scale-root" isRoot in
        mkKeyElement (ke_note key) classes
  end.

(** [updateKeyboardOverlay], on the key elements of the page; they are
    returned unchanged when [getScaleNotes] answers [null]. *)
Definition updateKeyboardOverlay (currentKeyRoot currentScaleType : string)
  (keys : list key_element) : completion (list key_element) :=
  scale <- getScaleNotes currentKeyRoot currentScaleType ;;
  match scale with
  | None => Return keys
  | Some sc => Return (map (overlay_key currentKeyRoot sc) keys)
  end.

(** [highlightChordKeys], on the key elements of the page. *)
Definition highlightChordKeys (noteNames : list string) (highlight : bool)
  (keys : list key_element) : list key_element :=
  map (fun key =>
         match ke_note key with
         | None => key
         | Some keyNote =>
             if String.eqb keyNote "" then key
             else
               let noteOnly := strip_digits keyNote in
               if includes noteNames noteOnly
               then mkKeyElement (ke_note key)
                      (if highlight
                       then classList_add (ke_classes key) "chord-highlight"
                       else classList_remove (ke_classes key)
                              "chord-highlight")
               else key
         end)
      keys.

Module MIDIHandler.

(** What [handleMessage] does with a message: it calls [playMidiNote],
    calls [stopMidiNote], or does nothing.  The volume handed to
    [playMidiNote] is [velocity / 127]; it is recorded by the velocity. *)
Inductive action : Type :=
| PlayMidiNote (note : option Z) (velocity : Z)
| StopMidiNote (note : option Z)
| NoAction.

(** [msg.data] is the array of the bytes of the message.  A missing byte
    reads as [undefined]: [undefined & 0xF0] is [0], and [undefined] is
    neither greater than nor equal to [0]. *)
Definition handleMessage (data : list Z) : action :=
  let command :=
    Z.land (match at_index data 0 with Some b => b | None => 0 end) 240 in
  let note := at_index data 1 in
  let velocity := at_index data 2 in
  if (command =? 144)
     && match velocity with Some v => 0 <? v | None => false end
  then PlayMidiNote note
         (match velocity with Some v => v | None => 0 end)
  else if (command =? 128)
          || ((command =? 144)
              && match velocity with Some v => v =? 0 | None => false end)
  then StopMidiNote note
  else NoAction.

Definition getNoteName (midiNote : Z) : string :=
  let octave := midiNote / 12 - 1 in
  let note := at_index keyboard_notes (Z.rem midiNote 12) in
  template_text note ++ toString octave.

End MIDIHandler.

Module EarTrainer.

Definition getNoteName (midi : Z) : string :=
  let octave := midi / 12 - 1 in
  let note := at_index keyboard_notes (Z.rem midi 12) in
  template_text note ++ toString octave.

End EarTrainer.

(* ------------------------------------------------------------------ *)
(** ** Vocabulary of the statements *)
(* ------------------------------------------------------------------ *)

(** The spellings [noteToIndex] knows: the twelve sharp names and the
    seven keys of [flatToSharp]. *)
Definition recognized (note : string) : Prop :=
  In note NOTE_NAMES \/ In note (map fst flatToSharp).

(** The call [engine.noteToIndex(note)] seen as an entry point.  Its body
    has no [throw], and neither a property read on an object literal nor
    [indexOf] can raise on a string argument: it completes normally. *)
Definition noteToIndex_call (note : string) : completion Z :=
  Return (noteToIndex note).

(** The test of the inner loop of [identifyChord]: the sorted offsets of
    the distinct notes above [root] print like the sorted template. *)
Definition chord_matches (uniqueNotes : list string) (root : string)
  (data : chord_entry) : bool :=
  same_json (relative_intervals uniqueNotes root)
            (sort ascending (ch_intervals data)).

(** The number of notes of [uniqueNotes] found in a scale. *)
Definition matched_in (sc : scale_result) (uniqueNotes : list string) : Z :=
  Z.of_nat (length (filter (includes (sr_notes sc)) uniqueNotes)).

(** The score [detectKey] gives a scale for the distinct notes played:
    matched notes count once, unmatched notes count twice against. *)
Definition raw_score (sc : scale_result) (uniqueNotes : list string) : Q :=
  let total := Z.of_nat (length uniqueNotes) in
  (inject_Z (matched_in sc uniqueNotes
             - (total - matched_in sc uniqueNotes) * 2)
   / inject_Z total)%Q.


(** *** Vocabulary of the further properties *)

(** A decidable test that a list of names has no repetition. *)
Fixpoint nodupb (l : list string) : bool :=
  match l with
  | [] => true
  | x :: t => negb (includes t x) && nodupb t
  end.

(** One string for every value [noteToIndex] can take: the empty string
    for [-1] and the sharp spellings for [0..11]. *)
Definition index_representatives : list string := "" :: NOTE_NAMES.

(** Every note of every chord of [entries] is among [scaleNotes]. *)
Definition chords_within (scaleNotes : list string)
  (entries : list diatonic_entry) : bool :=
  forallb (fun e =>
             match de_chord e with
             | Some c => forallb (includes scaleNotes) (cr_notes c)
             | None => true
             end)
          entries.

(** The names [findPivotChords] pairs up, on the chord names of the two
    keys: one occurrence for every pair of equal names. *)
Definition shared_names (namesA namesB : list string) : list string :=
  flat_map (fun a =>
              flat_map (fun b => if String.eqb a b then [a] else []) namesB)
           namesA.

(** The name of the chord of a diatonic entry (empty for an entry
    without a chord, which the registered patterns never produce). *)
Definition entry_name (e : diatonic_entry) : string :=
  match de_chord e with
  | Some c => cr_name c
  | None => ""
  end.

(** The chord name and the stability [identify] derives from the array
    of distinct semitone distances. *)
Definition analysis_chordName (uniqueSemitones : list Z) : string :=
  match own ChordAnalyzer.chords
          (String.concat "-" (map toString uniqueSemitones)) with
  | Some c => c
  | None =>
      if Z.of_nat (length uniqueSemitones) =? 2
      then match at_index uniqueSemitones 1 with
           | Some interval =>
               match ChordAnalyzer.interval_name ChordAnalyzer.intervals
                       interval with
               | Some nm => nm
               | None => "Interval"
               end
           | None => "Interval"
           end
      else "Unknown"
  end.

Definition analysis_stability (uniqueSemitones : list Z) : string :=
  if existsb (fun st =>
                existsb (Z.eqb (Z.rem st 12)) ChordAnalyzer.dissonant_classes)
             uniqueSemitones
  then "Dissonant" else "Consonant".

(* ------------------------------------------------------------------ *)
(** ** Facts about the JavaScript layer *)
(* ------------------------------------------------------------------ *)

Lemma own_Some_In {A : Type} (o : list (string * A)) (k : string) (v : A) :
  own o k = Some v -> In (k, v) o.
Proof.
  induction o as [| [k' v'] rest IH]; simpl; [discriminate |].
  destruct (String.eqb k' k) eqn:E.
  - intros [= <-]. apply String.eqb_eq in E. subst. now left.
  - intros H. right. now apply IH.
Qed.

Lemma own_None_notin {A : Type} (o : list (string * A)) (k : string) :
  ~ In k (map fst o) -> own o k = None.
Proof.
  induction o as [| [k' v'] rest IH]; simpl; [reflexivity |].
  intros H. destruct (String.eqb k' k) eqn:E.
  - apply String.eqb_eq in E. exfalso. apply H. now left.
  - apply IH. intros Hin. apply H. now right.
Qed.

Lemma own_get {A : Type} (o : list (string * A)) (k : string) (v : A) :
  own o k = Some v -> get o k = Own v.
Proof. unfold get. now intros ->. Qed.

Lemma includes_In (l : list string) (x : string) :
  includes l x = true <-> In x l.
Proof.
  unfold includes. rewrite existsb_exists. split.
  - intros [y [Hy E]]. apply String.eqb_eq in E. now subst.
  - intros H. exists x. split; [assumption | apply String.eqb_refl].
Qed.

Lemma includes_notin (l : list string) (x : string) :
  ~ In x l -> includes l x = false.
Proof.
  intros H. destruct (includes l x) eqn:E; [| reflexivity].
  apply includes_In in E. contradiction.
Qed.

Lemma indexOf_from_notin (i : Z) (l : list string) (x : string) :
  ~ In x l -> indexOf_from i l x = -1.
Proof.
  revert i. induction l as [| y t IH]; intros i H; simpl; [reflexivity |].
  destruct (String.eqb y x) eqn:E.
  - apply String.eqb_eq in E. exfalso. apply H. now left.
  - apply IH. intros Hin. apply H. now right.
Qed.

Lemma indexOf_from_in (i : Z) (l : list string) (x : string) :
  In x l -> i <= indexOf_from i l x < i + Z.of_nat (length l).
Proof.
  revert i. induction l as [| y t IH]; intros i H; [destruct H |].
  cbn [indexOf_from length]. destruct (String.eqb y x) eqn:E.
  - lia.
  - destruct H as [-> | H]; [rewrite String.eqb_refl in E; discriminate |].
    specialize (IH (i + 1) H). lia.
Qed.

Lemma indexOf_from_bounds (i : Z) (l : list string) (x : string) :
  indexOf_from i l x = -1 \/
  i <= indexOf_from i l x < i + Z.of_nat (length l).
Proof.
  revert i. induction l as [| y t IH]; intros i; simpl; [now left |].
  destruct (String.eqb y x).
  - right. lia.
  - destruct (IH (i + 1)) as [H | H]; [now left | right; lia].
Qed.

Lemma positive_spec (q : Q) : positive q = true <-> (0 < q)%Q.
Proof.
  unfold positive, Qlt. simpl. rewrite Z.ltb_lt. lia.
Qed.

Lemma positive_false (q : Q) : positive q = false <-> (q <= 0)%Q.
Proof.
  unfold positive, Qle. simpl. rewrite Z.ltb_ge. lia.
Qed.

(** Settles a guard [uniqueNotes.length < 2] from a bound on the length
    found in the context. *)
Ltac settle_length_guard :=
  match goal with
  | |- context [Z.of_nat (length ?l) <? 2] =>
      let E := fresh "E" in
      first
        [ assert (E : (Z.of_nat (length l) <? 2) = true)
            by (apply Z.ltb_lt; lia)
        | assert (E : (Z.of_nat (length l) <? 2) = false)
            by (apply Z.ltb_ge; lia) ];
      rewrite E
  end.

(** [Set_spread] keeps the first occurrence of every element: the head of
    the array is the first element of the result. *)
Lemma Set_add_fold_cons {A : Type} (eqb : A -> A -> bool) (x : A)
  (l s : list A) :
  fold_left (Set_add eqb) l (x :: s) =
  x :: fold_left (Set_add eqb) (filter (fun y => negb (eqb x y)) l) s.
Proof.
  revert s. induction l as [| y t IH]; intros s; simpl; [reflexivity |].
  destruct (eqb x y); simpl; apply IH.
Qed.

Lemma Set_spread_cons {A : Type} (eqb : A -> A -> bool) (x : A) (l : list A) :
  Set_spread eqb (x :: l) =
  x :: Set_spread eqb (filter (fun y => negb (eqb x y)) l).
Proof. unfold Set_spread. simpl. apply Set_add_fold_cons. Qed.

Lemma map_combine_map {A B C : Type} (g : A -> B) (f : B * A -> C)
  (l : list A) :
  map f (combine (map g l) l) = map (fun x => f (g x, x)) l.
Proof. induction l as [| x t IH]; simpl; [reflexivity | now rewrite IH]. Qed.

(** *** Sets in insertion order *)

Section SetSpread.

Variable A : Type.
Variable eqb : A -> A -> bool.
Hypothesis eqb_spec : forall x y, eqb x y = true <-> x = y.

Lemma Set_add_In (s : list A) (x y : A) :
  In y (Set_add eqb s x) <-> In y s \/ y = x.
Proof.
  induction s as [| z t IH]; simpl.
  - intuition congruence.
  - destruct (eqb z x) eqn:E.
    + apply eqb_spec in E. subst. simpl. intuition congruence.
    + simpl. rewrite IH. tauto.
Qed.

Lemma Set_add_NoDup (s : list A) (x : A) :
  NoDup s -> NoDup (Set_add eqb s x).
Proof.
  induction 1 as [| z t Hz Ht IH]; simpl.
  - constructor; [intros [] | constructor].
  - destruct (eqb z x) eqn:E; [now constructor |].
    constructor; [| exact IH].
    rewrite Set_add_In. intros [H | H]; [contradiction |].
    subst. assert (eqb x x = true) by now apply eqb_spec. congruence.
Qed.

Lemma Set_fold_spec (l s : list A) :
  NoDup s ->
  NoDup (fold_left (Set_add eqb) l s)
  /\ forall y, In y (fold_left (Set_add eqb) l s) <-> In y s \/ In y l.
Proof.
  revert s. induction l as [| x t IH]; intros s Hs; simpl.
  - split; [exact Hs | intros y; tauto].
  - destruct (IH (Set_add eqb s x) (Set_add_NoDup s x Hs)) as [Hn Hi].
    split; [exact Hn |]. intros y. rewrite Hi, Set_add_In.
    intuition congruence.
Qed.

Lemma Set_spread_spec (l : list A) :
  NoDup (Set_spread eqb l) /\ forall y, In y (Set_spread eqb l) <-> In y l.
Proof.
  destruct (Set_fold_spec l [] (NoDup_nil A)) as [Hn Hi].
  split; [exact Hn |]. intros y. rewrite (Hi y). simpl. tauto.
Qed.

End SetSpread.

Lemma nodupb_NoDup (l : list string) : nodupb l = true -> NoDup l.
Proof.
  induction l as [| x t IH]; intros H; [constructor |].
  simpl in H. apply andb_true_iff in H. destruct H as [Hx Ht].
  constructor; [| now apply IH].
  intros Hin. apply includes_In in Hin. rewrite Hin in Hx. discriminate.
Qed.

(** *** The stable sort *)

Section Sorting.

Variable A : Type.
Variable cmp : A -> A -> Q.
Variable le : A -> A -> Prop.

Hypothesis le_of_not_positive :
  forall x y, positive (cmp x y) = false -> le x y.
Hypothesis le_of_positive :
  forall x y, positive (cmp x y) = true -> le y x.
Hypothesis le_trans : forall x y z, le x y -> le y z -> le x z.

Lemma sort_insert_perm (x : A) (l : list A) :
  Permutation (sort_insert cmp x l) (x :: l).
Proof.
  induction l as [| y t IH]; simpl; [apply Permutation_refl |].
  destruct (positive (cmp x y)); [| apply Permutation_refl].
  eapply perm_trans; [apply perm_skip, IH | apply perm_swap].
Qed.

Lemma sort_perm (l : list A) : Permutation (sort cmp l) l.
Proof.
  induction l as [| x t IH]; simpl; [constructor |].
  eapply perm_trans; [apply sort_insert_perm | now apply perm_skip].
Qed.

Lemma sort_insert_sorted (x : A) (l : list A) :
  StronglySorted le l -> StronglySorted le (sort_insert cmp x l).
Proof.
  induction 1 as [| y t Hs IH Hall]; simpl.
  - constructor; constructor.
  - destruct (positive (cmp x y)) eqn:E.
    + constructor; [exact IH |].
      apply Forall_forall. intros z Hz.
      apply (Permutation_in _ (sort_insert_perm x t)) in Hz.
      destruct Hz as [<- | Hz]; [now apply le_of_positive |].
      rewrite Forall_forall in Hall. now apply Hall.
    + pose proof (le_of_not_positive _ _ E) as Hxy.
      constructor; [now constructor |].
      constructor; [exact Hxy |].
      eapply Forall_impl; [| exact Hall].
      intros z Hz. now apply le_trans with y.
Qed.

Lemma sort_sorted (l : list A) : StronglySorted le (sort cmp l).
Proof.
  induction l as [| x t IH]; simpl; [constructor |].
  now apply sort_insert_sorted.
Qed.

End Sorting.

Lemma sort_length {A : Type} (cmp : A -> A -> Q) (l : list A) :
  length (sort cmp l) = length l.
Proof. apply Permutation_length, sort_perm. Qed.

Lemma StronglySorted_firstn {A : Type} (le : A -> A -> Prop) (n : nat)
  (l : list A) :
  StronglySorted le l -> StronglySorted le (firstn n l).
Proof.
  intros H. revert n. induction H as [| x t Hs IH Hall]; intros n.
  - destruct n; constructor.
  - destruct n as [| n]; simpl; constructor; [apply IH |].
    rewrite Forall_forall in *. intros y Hy. apply Hall.
    rewrite <- (firstn_skipn n t). apply in_or_app. now left.
Qed.

Lemma StronglySorted_firstn_dominates {A : Type} (le : A -> A -> Prop)
  (n : nat) (l : list A) (x y : A) :
  StronglySorted le l -> In x (firstn n l) -> In y (skipn n l) -> le x y.
Proof.
  intros H. revert n. induction H as [| z t Hs IH Hall]; intros n Hx Hy.
  - destruct n; destruct Hx.
  - destruct n as [| n]; simpl in *; [destruct Hx |].
    destruct Hx as [<- | Hx].
    + rewrite Forall_forall in Hall. apply Hall.
      rewrite <- (firstn_skipn n t). apply in_or_app. now right.
    + now apply (IH n).
Qed.

(* ------------------------------------------------------------------ *)
(** ** Note names and indices *)
(* ------------------------------------------------------------------ *)

Lemma noteToIndex_recognized (note : string) :
  recognized note -> 0 <= noteToIndex note <= 11.
Proof.
  intros [H | H]; simpl in H;
    repeat (destruct H as [<- | H]; [vm_compute; split; discriminate |]);
    destruct H.
Qed.

Lemma noteToIndex_unrecognized (note : string) :
  ~ recognized note -> noteToIndex note = -1.
Proof.
  intros H. unfold noteToIndex, get.
  rewrite own_None_notin by (intros Hin; apply H; now right).
  destruct (includes Object_prototype_names note); [reflexivity |].
  apply indexOf_from_notin. intros Hin. apply H. now left.
Qed.

Lemma noteToIndex_bounds (note : string) : -1 <= noteToIndex note <= 11.
Proof.
  unfold noteToIndex, get, indexOf.
  destruct (own flatToSharp note) as [sharp |].
  - destruct (indexOf_from_bounds 0 NOTE_NAMES sharp) as [-> | H];
      [lia | change (Z.of_nat (length NOTE_NAMES)) with 12 in H; lia].
  - destruct (includes Object_prototype_names note); [lia |].
    destruct (indexOf_from_bounds 0 NOTE_NAMES note) as [-> | H];
      [lia | change (Z.of_nat (length NOTE_NAMES)) with 12 in H; lia].
Qed.

(** [((m % 12) + 12) % 12] is the mathematical residue of [m]. *)
Lemma rem_mod_12 (m : Z) : (Z.rem m 12) mod 12 = m mod 12.
Proof.
  assert (Hq : m = 12 * Z.quot m 12 + Z.rem m 12) by (apply Z.quot_rem'; lia).
  rewrite Hq at 2.
  now rewrite Z.add_comm, Z.mul_comm, Z.mod_add by lia.
Qed.

Lemma normalized_mod (m : Z) : Z.rem (Z.rem m 12 + 12) 12 = m mod 12.
Proof.
  assert (H : -12 < Z.rem m 12 < 12).
  { pose proof (Z.rem_bound_abs m 12). lia. }
  rewrite Z.rem_mod_nonneg by lia.
  replace (Z.rem m 12 + 12) with (Z.rem m 12 + 1 * 12) by lia.
  rewrite Z.mod_add by lia.
  apply rem_mod_12.
Qed.

(** The read of the name table in [indexToNote] is always in range. *)
Lemma indexToNote_defined (index : Z) :
  In (indexToNote index false) NOTE_NAMES.
Proof.
  unfold indexToNote. apply nth_In.
  rewrite normalized_mod.
  pose proof (Z.mod_pos_bound index 12).
  change (length NOTE_NAMES) with 12%nat. lia.
Qed.

Lemma indexToNote_small (i : Z) :
  0 <= i <= 11 -> noteToIndex (indexToNote i false) = i.
Proof.
  intros H.
  assert (Hc : i = 0 \/ i = 1 \/ i = 2 \/ i = 3 \/ i = 4 \/ i = 5 \/ i = 6 \/
               i = 7 \/ i = 8 \/ i = 9 \/ i = 10 \/ i = 11) by lia.
  repeat (destruct Hc as [-> | Hc]; [reflexivity |]). now subst.
Qed.

(** A name and its canonical sharp spelling have the same index. *)
Lemma canonical_index (note : string) :
  recognized note ->
  noteToIndex (indexToNote (noteToIndex note) false) = noteToIndex note.
Proof. intros H. apply indexToNote_small, noteToIndex_recognized, H. Qed.


(** Concert pitch: A in octave 4 is zero semitones from A4, that is
    [A4_FREQUENCY * 2 ^ 0]. *)
Lemma noteToFrequency_A4 : noteToFrequency "A" 4 = mkTempered 0.
Proof. reflexivity. Qed.





(* ------------------------------------------------------------------ *)
(** ** Intervals *)
(* ------------------------------------------------------------------ *)

Lemma octave_above_same_index (a : string) :
  recognized a ->
  noteToIndex (indexToNote (noteToIndex a + 12) false) = noteToIndex a.
Proof.
  intros H. pose proof (noteToIndex_recognized a H) as Hr.
  rewrite <- (indexToNote_small (noteToIndex a) Hr) at 2.
  f_equal. unfold indexToNote. do 2 f_equal.
  rewrite !normalized_mod.
  replace (noteToIndex a + 12) with (noteToIndex a + 1 * 12) by lia.
  now rewrite Z.mod_add by lia.
Qed.

Lemma getInterval_same_index (a b : string) :
  noteToIndex b = noteToIndex a ->
  ir_semitones (getInterval a b) = 0 /\ ir_name (getInterval a b) = "Unison".
Proof.
  intros H. unfold getInterval. rewrite H, Z.sub_diag. split; reflexivity.
Qed.

(** C6.  For recognized note names [a] and [b] the semitone count of
    [getInterval a b] is [((index b - index a) + 12) mod 12]; it lies in
    [0..11]; it is [0] from a note to itself; and the note twelve
    semitones above [a] is again at distance [0] from [a], reported as a
    unison. *)
Theorem getInterval_semitones_range (a b : string) :
  recognized a -> recognized b ->
  ir_semitones (getInterval a b)
    = ((noteToIndex b - noteToIndex a) + 12) mod 12
  /\ 0 <= ir_semitones (getInterval a b) <= 11
  /\ ir_semitones (getInterval a a) = 0
  /\ ir_semitones (getInterval a (indexToNote (noteToIndex a + 12) false)) = 0
  /\ ir_name (getInterval a (indexToNote (noteToIndex a + 12) false))
     = "Unison".
Proof.
  intros Ha Hb.
  pose proof (noteToIndex_recognized a Ha) as Ra.
  pose proof (noteToIndex_recognized b Hb) as Rb.
  assert (E : ir_semitones (getInterval a b)
              = ((noteToIndex b - noteToIndex a) + 12) mod 12).
  { unfold getInterval. cbn [ir_semitones].
    apply Z.rem_mod_nonneg; lia. }
  split; [exact E |].
  split.
  { rewrite E.
    pose proof (Z.mod_pos_bound (noteToIndex b - noteToIndex a + 12) 12).
    lia. }
  split; [apply getInterval_same_index; reflexivity |].
  split; apply getInterval_same_index, octave_above_same_index, Ha.
Qed.

Lemma getInterval_semitones_range_witness :
  ir_semitones (getInterval "D" "Bb") = 8
  /\ ir_semitones (getInterval "D" "D") = 0.
Proof.
  assert (Ha : recognized "D") by (left; simpl; tauto).
  assert (Hb : recognized "Bb") by (right; simpl; tauto).
  destruct (getInterval_semitones_range "D" "Bb" Ha Hb) as (E & _ & Z0 & _).
  split; [rewrite E; reflexivity | exact Z0].
Defined.

(* ------------------------------------------------------------------ *)
(** ** Chord construction *)
(* ------------------------------------------------------------------ *)

Lemma chord_offsets_nonnegative (chordType : string) (chord : chord_entry) :
  own CHORD_TYPES chordType = Some chord ->
  Forall (fun offset => 0 <= offset) (ch_intervals chord).
Proof.
  intros H. apply own_Some_In in H. simpl in H.
  repeat (destruct H as [[= <- <-] | H];
          [simpl; repeat constructor; lia |]).
  destruct H.
Qed.

(** C1, as the code has it.  For a recognized root and a registered chord
    type, every tone of [buildChord] carries the octave
    [4 + floor((rootIndex + offset) / 12)], where [rootIndex] is the index
    of the root and [offset] the template offset of the tone; its name is
    the pitch class of [rootIndex + offset].  A tone with
    [rootIndex + offset < 12] is in octave 4 and a tone with
    [rootIndex + offset >= 12] is above it.  The octave of a tone is
    [4 + floor(offset / 12)] exactly when
    [rootIndex + offset mod 12 < 12]: for every tone when the root is C,
    whose index is 0, while on every other root the major seventh chord
    has a tone placed elsewhere. *)
Theorem buildChord_tone_octaves (root chordType : string)
  (chord : chord_entry) :
  recognized root ->
  own CHORD_TYPES chordType = Some chord ->
  exists c,
    buildChord root chordType = Return (Some c)
    /\ cr_notes c
       = map (fun offset =>
                indexToNote (Z.rem (noteToIndex root + offset) 12) false)
             (ch_intervals chord)
    /\ map ct_note (cr_frequencies c) = cr_notes c
    /\ map ct_octave (cr_frequencies c)
       = map (fun offset => 4 + (noteToIndex root + offset) / 12)
             (ch_intervals chord)
    /\ Forall2 (fun offset tone =>
                  (noteToIndex root + offset < 12 -> ct_octave tone = 4)
                  /\ (12 <= noteToIndex root + offset -> 4 < ct_octave tone))
               (ch_intervals chord) (cr_frequencies c)
    /\ Forall2 (fun offset tone =>
                  ct_octave tone = 4 + offset / 12
                  <-> noteToIndex root + offset mod 12 < 12)
               (ch_intervals chord) (cr_frequencies c)
    /\ (noteToIndex root = 0 ->
        map ct_octave (cr_frequencies c)
        = map (fun offset => 4 + offset / 12) (ch_intervals chord))
    /\ (noteToIndex root <> 0 ->
        exists c7,
          buildChord root "major7" = Return (Some c7)
          /\ map ct_octave (cr_frequencies c7)
             <> map (fun offset => 4 + offset / 12) [0; 4; 7; 11]).
Proof.
  intros Hroot Hown.
  pose proof (noteToIndex_recognized root Hroot) as Hr.
  pose proof (chord_offsets_nonnegative _ _ Hown) as Hpos.
  unfold buildChord. rewrite (own_get _ _ _ Hown).
  eexists. split; [reflexivity |].
  cbn [cr_notes cr_frequencies].
  rewrite map_combine_map.
  split; [reflexivity |].
  split; [rewrite !map_map; reflexivity |].
  split; [rewrite !map_map; reflexivity |].
  split; [| split; [| split]].
  - induction Hpos as [| offset rest Ho _ IH]; cbn [map]; constructor.
    + cbn [ct_octave fst snd]. split; intros H.
      * rewrite Z.div_small by lia. reflexivity.
      * assert (1 <= (noteToIndex root + offset) / 12)
          by (apply Z.div_le_lower_bound; lia).
        lia.
    + exact IH.
  - induction Hpos as [| offset rest Ho _ IH]; cbn [map]; constructor;
      [| exact IH].
    cbn [ct_octave fst snd].
    pose proof (Z.div_mod offset 12 ltac:(lia)) as Hd.
    pose proof (Z.mod_pos_bound offset 12 ltac:(lia)) as Hm.
    replace (noteToIndex root + offset)
      with ((noteToIndex root + offset mod 12) + (offset / 12) * 12) by lia.
    rewrite Z.div_add by lia.
    split; intros H.
    + assert (H0 : (noteToIndex root + offset mod 12) / 12 = 0) by lia.
      apply Z.div_small_iff in H0; lia.
    + rewrite (Z.div_small (noteToIndex root + offset mod 12)) by lia. lia.
  - intros H0. rewrite !map_map. apply map_ext. intros offset.
    cbn [ct_octave fst snd]. now rewrite H0.
  - intros Hn. eexists. split; [reflexivity |].
    cbn [cr_frequencies ch_intervals]. rewrite map_combine_map, !map_map.
    cbn [map ct_octave fst snd]. intros H.
    apply (f_equal (fun l => nth 3 l 0)) in H. cbn [nth] in H.
    assert (H0 : (noteToIndex root + 11) / 12 = 0)
      by (change (11 / 12) with 0 in H; lia).
    apply Z.div_small_iff in H0; lia.
Qed.

Lemma buildChord_tone_octaves_witness :
  exists c,
    buildChord "B" "major" = Return (Some c)
    /\ map ct_octave (cr_frequencies c) = [4; 5; 5].
Proof.
  assert (Hroot : recognized "B") by (left; simpl; tauto).
  destruct (buildChord_tone_octaves "B" "major"
              (mkChord [0; 4; 7] "" "Major" "R-M3-P5" "consonant")
              Hroot eq_refl) as (c & Hc & _ & _ & Ho & _).
  exists c. split; [exact Hc | exact Ho].
Defined.

(** C1, as the spec words it, fails: B major is built from the offsets
    0, 4 and 7, all below 12, yet its third and fifth are placed in
    octave 5. *)
Lemma buildChord_octave_not_from_offset_alone :
  recognized "B"
  /\ own CHORD_TYPES "major"
     = Some (mkChord [0; 4; 7] "" "Major" "R-M3-P5" "consonant")
  /\ exists c,
       buildChord "B" "major" = Return (Some c)
       /\ map ct_octave (cr_frequencies c) = [4; 5; 5]
       /\ map (fun offset => 4 + offset / 12) [0; 4; 7] = [4; 4; 4].
Proof.
  split; [left; simpl; tauto |].
  split; [reflexivity |].
  eexists. split; [reflexivity |]. split; reflexivity.
Qed.

(* ------------------------------------------------------------------ *)
(** ** Scale membership *)
(* ------------------------------------------------------------------ *)

(** What [isNoteInScale] decides: literal membership of the query in the
    sharp-spelled notes of the scale. *)
Lemma isNoteInScale_literal (note root scaleType : string)
  (scale : scale_entry) :
  own SCALES scaleType = Some scale ->
  isNoteInScale note root scaleType
  = Return (includes
              (map (fun interval =>
                      indexToNote (Z.rem (noteToIndex root + interval) 12)
                                  false)
                   (sc_intervals scale))
              note).
Proof.
  intros H. unfold isNoteInScale, getScaleNotes.
  now rewrite (own_get _ _ _ H).
Qed.

(** C2 at a failing input.  B flat is the fourth degree of F major, and
    the engine gives ["Bb"] and ["A#"] the same index; queried as ["A#"]
    the note is found in the scale, queried as ["Bb"] it is not. *)
Theorem isNoteInScale_flat_query_rejected :
  noteToIndex "Bb" = noteToIndex "A#"
  /\ isNoteInScale "A#" "F" "major" = Return true
  /\ isNoteInScale "Bb" "F" "major" = Return false.
Proof. repeat split. Qed.

(* ------------------------------------------------------------------ *)
(** ** Chord identification *)
(* ------------------------------------------------------------------ *)

Lemma CHORD_TYPES_nth_own (j : nat) (type : string) (data : chord_entry) :
  nth_error CHORD_TYPES j = Some (type, data) ->
  own CHORD_TYPES type = Some data.
Proof.
  intros H.
  do 16 (destruct j as [| j]; [injection H as <- <-; reflexivity |]).
  destruct j; discriminate H.
Qed.

Lemma CHORD_TYPES_In_own (type : string) (data : chord_entry) :
  In (type, data) CHORD_TYPES -> own CHORD_TYPES type = Some data.
Proof.
  intros H. apply In_nth_error in H. destruct H as [j H].
  now apply CHORD_TYPES_nth_own with j.
Qed.

(** The candidate roots start with the first note supplied. *)
Lemma chord_unique_notes_head (n : note_input) (notes : list note_input) :
  exists rest,
    chord_unique_notes (n :: notes) = canonical (chord_note_name n) :: rest.
Proof.
  unfold chord_unique_notes. cbn [map]. rewrite Set_spread_cons.
  eexists. reflexivity.
Qed.

Lemma match_chord_types_none (root : string) (intervals : list Z)
  (entries : list (string * chord_entry)) :
  (forall e, In e entries ->
             same_json intervals (sort ascending (ch_intervals (snd e)))
             = false) ->
  match_chord_types root intervals entries = None.
Proof.
  induction entries as [| [type data] rest IH]; intros H; simpl;
    [reflexivity |].
  pose proof (H (type, data) (or_introl eq_refl)) as E. cbn [snd] in E.
  rewrite E.
  apply IH. intros e He. apply H. now right.
Qed.

Lemma match_chord_types_first (root : string) (intervals : list Z)
  (pre post : list (string * chord_entry)) (type : string)
  (data : chord_entry) :
  (forall e, In e pre ->
             same_json intervals (sort ascending (ch_intervals (snd e)))
             = false) ->
  same_json intervals (sort ascending (ch_intervals data)) = true ->
  match_chord_types root intervals (pre ++ (type, data) :: post)
  = Some (chord <- buildChord root type ;; Return (Identified chord 1)).
Proof.
  induction pre as [| [type' data'] rest IH]; intros Hpre Hm; simpl.
  - now rewrite Hm.
  - pose proof (Hpre (type', data') (or_introl eq_refl)) as E.
    cbn [snd] in E. rewrite E.
    apply IH; [| exact Hm]. intros e He. apply Hpre. now right.
Qed.

Lemma match_chord_types_normal (root : string) (intervals : list Z)
  (entries : list (string * chord_entry)) (r : completion identify_result) :
  (forall e, In e entries -> In e CHORD_TYPES) ->
  match_chord_types root intervals entries = Some r ->
  exists c, r = Return (Identified (Some c) 1).
Proof.
  induction entries as [| [type data] rest IH]; intros Hin H; simpl in H;
    [discriminate |].
  destruct (same_json intervals (sort ascending (ch_intervals data))).
  - injection H as <-.
    pose proof (CHORD_TYPES_In_own type data
                  (Hin _ (or_introl eq_refl))) as Ho.
    unfold buildChord. rewrite (own_get _ _ _ Ho). simpl.
    eexists. reflexivity.
  - apply IH; [| exact H]. intros e He. apply Hin. now right.
Qed.

Lemma try_roots_none (uniqueNotes roots : list string) :
  (forall root, In root roots ->
     match_chord_types root (relative_intervals uniqueNotes root) CHORD_TYPES
     = None) ->
  try_roots uniqueNotes roots = None.
Proof.
  induction roots as [| root rest IH]; intros H; cbn [try_roots];
    [reflexivity |].
  rewrite (H root (or_introl eq_refl)).
  apply IH. intros r Hr. apply H. now right.
Qed.

Lemma try_roots_first (uniqueNotes pre post : list string) (root : string)
  (r : completion identify_result) :
  (forall root', In root' pre ->
     match_chord_types root' (relative_intervals uniqueNotes root')
                       CHORD_TYPES = None) ->
  match_chord_types root (relative_intervals uniqueNotes root) CHORD_TYPES
  = Some r ->
  try_roots uniqueNotes (pre ++ root :: post) = Some r.
Proof.
  induction pre as [| root' rest IH]; intros Hpre Hm;
    cbn [try_roots app].
  - now rewrite Hm.
  - rewrite (Hpre root' (or_introl eq_refl)).
    apply IH; [| exact Hm]. intros x Hx. apply Hpre. now right.
Qed.

Lemma try_roots_normal (uniqueNotes roots : list string)
  (r : completion identify_result) :
  try_roots uniqueNotes roots = Some r ->
  exists c, r = Return (Identified (Some c) 1).
Proof.
  induction roots as [| root rest IH]; intros H; cbn [try_roots] in H;
    [discriminate |].
  destruct (match_chord_types root (relative_intervals uniqueNotes root)
                              CHORD_TYPES) as [r' |] eqn:E.
  - injection H as <-.
    now apply (match_chord_types_normal _ _ _ _ (fun e He => He) E).
  - now apply IH.
Qed.

Lemma In_prefix_nth {A : Type} (pre post : list A) (x : A) :
  In x pre ->
  exists i, (i < length pre)%nat /\ nth_error (pre ++ post) i = Some x.
Proof.
  intros H. apply In_nth_error in H. destruct H as [i H].
  exists i. split.
  - apply nth_error_Some. now rewrite H.
  - rewrite nth_error_app1; [exact H |].
    apply nth_error_Some. now rewrite H.
Qed.

(** C3, as the code has it.  The candidate roots are the distinct
    canonical names of the supplied notes in the order in which they
    were first supplied; for each root the chord types are tried in
    catalog order.  The pair that matches and has no matching pair before
    it in this order is the one returned, with confidence 1. *)
Theorem identifyChord_first_match (notes : list note_input) (i j : nat)
  (root type : string) (data : chord_entry) :
  (2 <= length (chord_unique_notes notes))%nat ->
  nth_error (chord_unique_notes notes) i = Some root ->
  nth_error CHORD_TYPES j = Some (type, data) ->
  chord_matches (chord_unique_notes notes) root data = true ->
  (forall i' j' root' entry',
     nth_error (chord_unique_notes notes) i' = Some root' ->
     nth_error CHORD_TYPES j' = Some entry' ->
     (i' < i \/ (i' = i /\ j' < j))%nat ->
     chord_matches (chord_unique_notes notes) root' (snd entry') = false) ->
  exists c,
    identifyChord notes = Return (Identified (Some c) 1)
    /\ cr_root c = root
    /\ cr_type c = type
    /\ cr_intervals c = ch_intervals data.
Proof.
  intros Hlen Hi Hj Hm Hfirst.
  unfold identifyChord.
  set (uniqueNotes := chord_unique_notes notes) in *.
  settle_length_guard.
  destruct (nth_error_split _ _ Hi) as (rpre & rpost & Hr & Hrlen).
  destruct (nth_error_split _ _ Hj) as (tpre & tpost & Ht & Htlen).
  assert (Hroot :
    match_chord_types root (relative_intervals uniqueNotes root) CHORD_TYPES
    = Some (chord <- buildChord root type ;; Return (Identified chord 1))).
  { rewrite Ht. apply match_chord_types_first; [| exact Hm].
    intros e He. destruct (In_prefix_nth tpre ((type, data) :: tpost) e He)
      as (j' & Hj' & Hn).
    rewrite <- Ht in Hn.
    apply (Hfirst i j' root e Hi Hn). right. split; [reflexivity | lia]. }
  assert (Hbefore : forall root', In root' rpre ->
    match_chord_types root' (relative_intervals uniqueNotes root')
                      CHORD_TYPES = None).
  { intros root' Hin.
    destruct (In_prefix_nth rpre (root :: rpost) root' Hin)
      as (i' & Hi' & Hn).
    rewrite <- Hr in Hn.
    apply match_chord_types_none. intros e He.
    apply In_nth_error in He. destruct He as [j' He].
    apply (Hfirst i' j' root' e Hn He). left. lia. }
  replace (try_roots uniqueNotes uniqueNotes)
    with (try_roots uniqueNotes (rpre ++ root :: rpost))
    by (now rewrite <- Hr).
  rewrite (try_roots_first _ _ _ _ _ Hbefore Hroot).
  unfold buildChord.
  rewrite (own_get _ _ _ (CHORD_TYPES_nth_own _ _ _ Hj)). simpl.
  eexists. repeat split.
Qed.

Lemma identifyChord_first_match_witness :
  exists c,
    identifyChord [ByName "G"; ByName "C"; ByName "D"]
    = Return (Identified (Some c) 1)
    /\ cr_root c = "G"
    /\ cr_type c = "sus4"
    /\ cr_intervals c = [0; 5; 7].
Proof.
  apply (identifyChord_first_match
           [ByName "G"; ByName "C"; ByName "D"] 0 5 "G" "sus4"
           (mkChord [0; 5; 7] "sus4" "Suspended 4th" "R-P4-P5" "open")).
  - vm_compute. lia.
  - reflexivity.
  - reflexivity.
  - reflexivity.
  - intros i' j' root' entry' Hi Hj [Hlt | [-> Hlt]]; [lia |].
    injection Hi as <-.
    do 5 (destruct j' as [| j']; [injection Hj as <-; reflexivity |]).
    lia.
Defined.

(** C3, as the spec words it, fails.  The notes G, C, D read as a
    suspended second on C and as a suspended fourth on G; C comes before
    G in [NOTE_NAMES], yet the chord returned is the one on G, the note
    supplied first.  Supplied as C, D, G the same notes are answered
    with the chord on C. *)
Lemma identifyChord_roots_in_supplied_order :
  chord_unique_notes [ByName "G"; ByName "C"; ByName "D"] = ["G"; "C"; "D"]
  /\ chord_matches ["G"; "C"; "D"] "C"
       (mkChord [0; 2; 7] "sus2" "Suspended 2nd" "R-M2-P5" "open") = true
  /\ chord_matches ["G"; "C"; "D"] "G"
       (mkChord [0; 5; 7] "sus4" "Suspended 4th" "R-P4-P5" "open") = true
  /\ indexOf NOTE_NAMES "C" < indexOf NOTE_NAMES "G"
  /\ exists c,
       identifyChord [ByName "G"; ByName "C"; ByName "D"]
       = Return (Identified (Some c) 1)
       /\ cr_root c = "G"
       /\ cr_type c = "sus4"
       /\ cr_root c <> "C"
       /\ exists c',
            identifyChord [ByName "C"; ByName "D"; ByName "G"]
            = Return (Identified (Some c') 1)
            /\ cr_root c' = "C"
            /\ cr_type c' = "sus2".
Proof.
  repeat (split; [reflexivity |]).
  eexists. split; [reflexivity |].
  do 2 (split; [reflexivity |]).
  split; [discriminate |].
  eexists. repeat split.
Qed.

(** C5, as the code has it.  [identifyChord] never throws.  With fewer
    than two distinct pitch classes it returns [null]; with at least two
    that match no chord template from any root it returns the object
    with name ['Unknown'], confidence 0 and the distinct notes. *)
Theorem identifyChord_no_match (notes : list note_input) :
  (exists r, identifyChord notes = Return r)
  /\ ((length (chord_unique_notes notes) < 2)%nat ->
      identifyChord notes = Return Null)
  /\ ((2 <= length (chord_unique_notes notes))%nat ->
      (forall root entry,
         In root (chord_unique_notes notes) ->
         In entry CHORD_TYPES ->
         chord_matches (chord_unique_notes notes) root (snd entry) = false) ->
      identifyChord notes
      = Return (Unidentified (chord_unique_notes notes) "Unknown" 0)).
Proof.
  unfold identifyChord.
  set (uniqueNotes := chord_unique_notes notes).
  split; [| split].
  - destruct (Z.of_nat (length uniqueNotes) <? 2); [eexists; reflexivity |].
    destruct (try_roots uniqueNotes uniqueNotes) as [r |] eqn:E.
    + destruct (try_roots_normal _ _ _ E) as [c ->]. eexists. reflexivity.
    + eexists. reflexivity.
  - intros H.
    settle_length_guard. reflexivity.
  - intros H Hnone.
    settle_length_guard. rewrite try_roots_none; [reflexivity |].
    intros root Hroot. apply match_chord_types_none.
    intros e He. now apply Hnone.
Qed.

Lemma identifyChord_no_match_witness :
  identifyChord [ByName "C"; ByName "C"] = Return Null
  /\ identifyChord [ByName "C"; ByName "E"]
     = Return (Unidentified ["C"; "E"] "Unknown" 0).
Proof.
  split.
  - apply (proj1 (proj2 (identifyChord_no_match [ByName "C"; ByName "C"]))).
    vm_compute. lia.
  - apply (proj2 (proj2 (identifyChord_no_match [ByName "C"; ByName "E"]))).
    + vm_compute. lia.
    + intros root entry Hr He.
      change (chord_unique_notes [ByName "C"; ByName "E"])
        with ["C"; "E"] in *.
      simpl in Hr, He.
      destruct Hr as [<- | [<- | []]];
        repeat (destruct He as [<- | He]; [reflexivity |]);
        destruct He.
Defined.

(** C5, as the spec words it, fails: a single pitch class is answered by
    [null], which is not the object named ['Unknown']. *)
Lemma identifyChord_single_note_is_null :
  (length (chord_unique_notes [ByName "C"; ByName "C"]) < 2)%nat
  /\ identifyChord [ByName "C"; ByName "C"] = Return Null
  /\ forall ns conf,
       identifyChord [ByName "C"; ByName "C"]
       <> Return (Unidentified ns "Unknown" conf).
Proof.
  split; [vm_compute; lia |].
  split; [reflexivity |].
  intros ns conf. discriminate.
Qed.

(* ------------------------------------------------------------------ *)
(** ** Diatonic harmony *)
(* ------------------------------------------------------------------ *)

Lemma SCALES_not_inherited (scaleType : string) (scale : scale_entry) :
  own SCALES scaleType = Some scale ->
  ~ In scaleType Object_prototype_names.
Proof.
  intros H. apply own_Some_In in H. simpl in H.
  repeat (destruct H as [[= <- <-] | H];
          [intros Hin; simpl in Hin;
           repeat (destruct Hin as [Hin | Hin]; [discriminate Hin |]);
           destruct Hin |]).
  destruct H.
Qed.

Lemma getDiatonicChords_no_pattern (root scaleType : string)
  (useSevenths : bool) :
  own DIATONIC_PATTERNS scaleType = None ->
  ~ In scaleType Object_prototype_names ->
  getDiatonicChords root scaleType useSevenths = Return None.
Proof.
  intros H Hn. unfold getDiatonicChords, get.
  now rewrite H, (includes_notin _ _ Hn).
Qed.

Lemma inherited_name_reads (name : string) :
  In name Object_prototype_names ->
  get SCALES name = Inherited
  /\ get DIATONIC_PATTERNS name = Inherited
  /\ get PROGRESSIONS name = Inherited.
Proof.
  intros H. simpl in H.
  repeat (destruct H as [<- | H]; [repeat split; reflexivity |]).
  destruct H.
Qed.

Lemma getDiatonicChords_inherited (root scaleType : string)
  (useSevenths : bool) :
  In scaleType Object_prototype_names ->
  getDiatonicChords root scaleType useSevenths = Throw TypeError.
Proof.
  intros H. destruct (inherited_name_reads _ H) as (Hs & Hp & _).
  unfold getDiatonicChords, getScaleNotes. now rewrite Hp, Hs.
Qed.

(** C9, as the code has it.  Where a scale type has no registered
    diatonic pattern, [getDiatonicChords] returns [null]: for every
    registered scale type, and for any other name that is not inherited
    from the object prototype.  On each of the twelve inherited names,
    which have no registered pattern either, it throws a [TypeError].
    Where a scale type has a pattern, the result holds one entry per
    degree of the scale, numbered from 1, rooted on the notes of the
    scale in order and labelled with the numerals and chord types of the
    pattern.  In A natural minor these are seven entries with the
    numerals i, ii°, III, iv, v, VI, VII. *)
Theorem getDiatonicChords_degrees (root : string) (useSevenths : bool) :
  (forall scaleType scale,
     own SCALES scaleType = Some scale ->
     own DIATONIC_PATTERNS scaleType = None ->
     getDiatonicChords root scaleType useSevenths = Return None)
  /\ (forall scaleType,
        own DIATONIC_PATTERNS scaleType = None ->
        ~ In scaleType Object_prototype_names ->
        getDiatonicChords root scaleType useSevenths = Return None)
  /\ (forall scaleType,
        In scaleType Object_prototype_names ->
        own DIATONIC_PATTERNS scaleType = None
        /\ getDiatonicChords root scaleType useSevenths = Throw TypeError)
  /\ (forall scaleType pattern,
        own DIATONIC_PATTERNS scaleType = Some pattern ->
        exists scale entries,
          own SCALES scaleType = Some scale
          /\ getDiatonicChords root scaleType useSevenths
             = Return (Some entries)
          /\ length entries = length (sc_intervals scale)
          /\ map de_degree entries
             = map (fun k => Z.of_nat k + 1)
                   (seq 0 (length (sc_intervals scale)))
          /\ map de_root entries
             = map (fun interval =>
                      indexToNote (Z.rem (noteToIndex root + interval) 12)
                                  false)
                   (sc_intervals scale)
          /\ map de_numeral entries = map Some (numerals pattern)
          /\ map de_chordType entries
             = map Some (if useSevenths then sevenths pattern
                         else triads pattern)
          /\ Forall (fun e => exists c,
                       de_chord e = Some c /\ cr_root c = de_root e
                       /\ Some (cr_type c) = de_chordType e)
                    entries)
  /\ (exists entries,
        getDiatonicChords "A" "naturalMinor" false = Return (Some entries)
        /\ length entries = 7%nat
        /\ map de_numeral entries
           = map Some ["i"; "ii°"; "III"; "iv"; "v"; "VI"; "VII"]).
Proof.
  split; [| split; [| split; [| split]]].
  - intros scaleType scale Hs Hp.
    apply getDiatonicChords_no_pattern; [exact Hp |].
    now apply SCALES_not_inherited with scale.
  - intros scaleType Hp Hn. now apply getDiatonicChords_no_pattern.
  - intros scaleType Hin. split; [| now apply getDiatonicChords_inherited].
    destruct (inherited_name_reads _ Hin) as (_ & Hp & _).
    unfold get in Hp.
    destruct (own DIATONIC_PATTERNS scaleType); [discriminate Hp | reflexivity].
  - intros scaleType pattern Hp. apply own_Some_In in Hp. simpl in Hp.
    repeat (destruct Hp as [[= <- <-] | Hp];
            [eexists; destruct useSevenths; eexists;
             repeat (split; [reflexivity |]);
             repeat constructor;
             (eexists; repeat split) |]).
    destruct Hp.
  - eexists. split; [reflexivity |]. split; reflexivity.
Qed.

Lemma getDiatonicChords_degrees_witness :
  getDiatonicChords "A" "lydian" false = Return None
  /\ getDiatonicChords "A" "unregistered" false = Return None
  /\ getDiatonicChords "A" "valueOf" false = Throw TypeError
  /\ exists entries,
       getDiatonicChords "A" "dorian" true = Return (Some entries)
       /\ length entries = 7%nat.
Proof.
  destruct (getDiatonicChords_degrees "A" false) as (H1 & H2 & H4 & _ & _).
  destruct (getDiatonicChords_degrees "A" true) as (_ & _ & _ & H3 & _).
  split; [| split; [| split]].
  - apply (H1 "lydian" (mkScale [0; 2; 4; 6; 7; 9; 11] "Lydian"));
      reflexivity.
  - apply H2; [reflexivity |].
    intros Hin. simpl in Hin.
    repeat (destruct Hin as [Hin | Hin]; [discriminate Hin |]).
    destruct Hin.
  - apply H4. simpl. tauto.
  - destruct (H3 "dorian" _ eq_refl) as (scale & entries & Hs & Hr & Hl & _).
    exists entries. split; [exact Hr |].
    rewrite Hl. injection Hs as <-. reflexivity.
Defined.

(** C9, as the spec words it, fails: [constructor] has no registered
    diatonic pattern, yet the call throws instead of returning [null]. *)
Lemma getDiatonicChords_throws_on_inherited_name :
  own DIATONIC_PATTERNS "constructor" = None
  /\ getDiatonicChords "A" "constructor" false = Throw TypeError
  /\ getDiatonicChords "A" "constructor" false <> Return None.
Proof. split; [reflexivity |]. split; [reflexivity | discriminate]. Qed.

(** A name inherited from the object prototype is no scale type; the
    pattern read is truthy there and the call ends in a [TypeError]. *)
Remark getDiatonicChords_inherited_name :
  getDiatonicChords "A" "constructor" false = Throw TypeError.
Proof. reflexivity. Qed.

(* ------------------------------------------------------------------ *)
(** ** Key detection *)
(* ------------------------------------------------------------------ *)

Lemma mapM_Forall2 {A B : Type} (f : A -> completion B) (P : A -> B -> Prop)
  (l : list A) :
  (forall x, In x l -> exists y, f x = Return y /\ P x y) ->
  exists ys, mapM f l = Return ys /\ Forall2 P l ys.
Proof.
  induction l as [| x t IH]; intros H.
  - exists []. split; [reflexivity | constructor].
  - destruct (H x (or_introl eq_refl)) as (y & Hy & Py).
    destruct IH as (ys & Hys & Pys); [intros z Hz; apply H; now right |].
    exists (y :: ys). simpl. rewrite Hy. simpl. rewrite Hys. simpl.
    split; [reflexivity | now constructor].
Qed.

Lemma Forall2_In_l {A B : Type} (P : A -> B -> Prop) (l : list A)
  (l' : list B) (x : A) :
  Forall2 P l l' -> In x l -> exists y, In y l' /\ P x y.
Proof.
  induction 1 as [| a b t t' Hab _ IH]; intros Hin; [destruct Hin |].
  destruct Hin as [<- | Hin].
  - exists b. split; [now left | exact Hab].
  - destruct (IH Hin) as (y & Hy & Py). exists y. split; [now right | exact Py].
Qed.

Lemma Forall2_In_r {A B : Type} (P : A -> B -> Prop) (l : list A)
  (l' : list B) (y : B) :
  Forall2 P l l' -> In y l' -> exists x, In x l /\ P x y.
Proof.
  induction 1 as [| a b t t' Hab _ IH]; intros Hin; [destruct Hin |].
  destruct Hin as [<- | Hin].
  - exists a. split; [now left | exact Hab].
  - destruct (IH Hin) as (x & Hx & Px). exists x. split; [now right | exact Px].
Qed.

Lemma In_pushed {A : Type} (l : list (option A)) (a : A) :
  In a (pushed l) <-> In (Some a) l.
Proof.
  unfold pushed. rewrite in_flat_map. split.
  - intros ([b |] & Hin & Ha); simpl in Ha; [| destruct Ha].
    destruct Ha as [<- | []]. exact Hin.
  - intros H. exists (Some a). split; [exact H | now left].
Qed.

Lemma Qmax_0_positive (q : Q) : positive q = true -> Qmax 0 q = q.
Proof.
  intros H. apply positive_spec in H.
  unfold Qmax, GenericMinMax.gmax.
  destruct (0 ?= q)%Q eqn:E; [| reflexivity |].
  - apply Qeq_alt in E. lra.
  - apply Qgt_alt in E. lra.
Qed.

Lemma key_candidates_product :
  key_candidates = list_prod NOTE_NAMES detect_scales.
Proof. reflexivity. Qed.

Lemma key_candidates_scale (candidate : string * string) :
  In candidate key_candidates ->
  exists scale, own SCALES (snd candidate) = Some scale.
Proof.
  rewrite key_candidates_product. destruct candidate as [root scaleType].
  rewrite in_prod_iff. intros [_ H]. simpl in H.
  repeat (destruct H as [<- | H]; [eexists; reflexivity |]). destruct H.
Qed.

(** One iteration of the loop of [detectKey], for a candidate it visits. *)
Lemma score_key_candidate (uniqueNotes : list string)
  (candidate : string * string) :
  In candidate key_candidates ->
  exists sc,
    getScaleNotes (fst candidate) (snd candidate) = Return (Some sc)
    /\ score_key uniqueNotes candidate
       = Return (if positive (raw_score sc uniqueNotes)
                 then Some (mkCandidate
                              (fst candidate ++ " " ++ sr_name sc)
                              (fst candidate)
                              (snd candidate)
                              (raw_score sc uniqueNotes)
                              (matched_in sc uniqueNotes)
                              (Z.of_nat (length uniqueNotes)))
                 else None).
Proof.
  intros H. destruct (key_candidates_scale candidate H) as [scale Hs].
  unfold score_key, getScaleNotes. rewrite (own_get _ _ _ Hs).
  eexists. split; [reflexivity |]. cbn [bind].
  fold (matched_in
          (mkScaleResult (fst candidate) (snd candidate)
             (fst candidate ++ " " ++ sc_name scale)
             (map (fun interval =>
                     indexToNote
                       (Z.rem (noteToIndex (fst candidate) + interval) 12)
                       false)
                  (sc_intervals scale))
             (sc_intervals scale)
             (map (fun i => Z.rem (noteToIndex (fst candidate) + i) 12)
                  (sc_intervals scale)))
          uniqueNotes).
  match goal with
  | |- context [matched_in ?sc _] => fold (raw_score sc uniqueNotes)
  end.
  match goal with
  | |- context [positive ?q] => destruct (positive q) eqn:E
  end; [| reflexivity].
  now rewrite (Qmax_0_positive _ E).
Qed.

Lemma by_score_descending_sorted (l : list key_candidate) :
  StronglySorted (fun a b => kc_score b <= kc_score a)%Q
                 (sort by_score_descending l).
Proof.
  apply sort_sorted; unfold by_score_descending.
  - intros x y H. apply positive_false in H. lra.
  - intros x y H. apply positive_spec in H. lra.
  - intros x y z Hxy Hyz. lra.
Qed.

Lemma sharp_name_canonical (s : string) :
  In s NOTE_NAMES ->
  s <> "" /\ indexToNote (noteToIndex s) false = s.
Proof.
  intros H. simpl in H.
  repeat (destruct H as [<- | H]; [split; [discriminate | reflexivity] |]).
  destruct H.
Qed.

Lemma key_candidates_distinct : NoDup key_candidates.
Proof.
  apply (NoDup_map_inv (fun p => fst p ++ " " ++ snd p)).
  apply nodupb_NoDup. vm_compute. reflexivity.
Qed.

(** The distinct notes [detectKey] works with, read off its argument:
    a name is among them exactly when it is the canonical spelling of a
    non-empty string of the array, the note of a frequency of the array
    whose rounded MIDI number is finite, or the canonical spelling of
    the [note] of an object of the array. *)
Lemma key_unique_notes_spec (roundedMidi : Q -> option Z)
  (notes : list note_input) (n : string) :
  In n (key_unique_notes roundedMidi notes)
  <-> exists x,
        In x notes
        /\ match x with
           | ByName s => s <> "" /\ n = indexToNote (noteToIndex s) false
           | ByFrequency f =>
               exists midiNote,
                 roundedMidi f = Some midiNote
                 /\ n = indexToNote (Z.rem midiNote 12) false
           | ByObject note _ => n = indexToNote (noteToIndex note) false
           end.
Proof.
  unfold key_unique_notes. cbv zeta.
  rewrite (proj2 (Set_spread_spec _ String.eqb String.eqb_eq _)).
  rewrite in_map_iff. split.
  - intros (v & Hv & Hin). apply filter_In in Hin. destruct Hin as [Hin Ht].
    apply in_map_iff in Hin. destruct Hin as (x & <- & Hx).
    exists x. split; [exact Hx |].
    destruct x as [s | f | note f]; cbn [key_note_name] in *.
    + cbn [truthy] in Ht. apply negb_true_iff, String.eqb_neq in Ht.
      split; [exact Ht | now rewrite <- Hv].
    + unfold frequencyToNote in *.
      destruct (roundedMidi f) as [midiNote |]; [| discriminate Ht].
      exists midiNote. split; [reflexivity |].
      rewrite <- Hv. unfold canonical. cbn [noteToIndex_value].
      apply (proj2 (sharp_name_canonical _ (indexToNote_defined _))).
    + rewrite <- Hv. destruct (String.eqb note "") eqn:E; [| reflexivity].
      apply String.eqb_eq in E. subst note. reflexivity.
  - intros (x & Hx & Hn).
    exists (key_note_name roundedMidi x). split.
    + destruct x as [s | f | note f]; cbn [key_note_name].
      * now destruct Hn as [_ ->].
      * destruct Hn as (midiNote & Hm & ->). unfold frequencyToNote.
        rewrite Hm. unfold canonical. cbn [noteToIndex_value].
        apply (proj2 (sharp_name_canonical _ (indexToNote_defined _))).
      * subst n. destruct (String.eqb note "") eqn:E; [| reflexivity].
        apply String.eqb_eq in E. subst note. reflexivity.
    + apply filter_In. split; [now apply in_map |].
      destruct x as [s | f | note f]; cbn [key_note_name].
      * destruct Hn as [Hne _]. cbn [truthy].
        apply negb_true_iff, String.eqb_neq, Hne.
      * destruct Hn as (midiNote & Hm & _). unfold frequencyToNote.
        rewrite Hm. cbn [truthy].
        apply negb_true_iff, String.eqb_neq.
        apply (proj1 (sharp_name_canonical _ (indexToNote_defined _))).
      * destruct (String.eqb note "") eqn:E; [reflexivity |].
        cbn [truthy]. now rewrite E.
Qed.

(** The entries pushed for a list of candidates follow the candidates:
    when no candidate occurs twice, no two entries share root and scale
    type. *)
Lemma pushed_candidates_distinct (P : string * string -> key_candidate -> Prop)
  (candidates : list (string * string)) (ys : list (option key_candidate)) :
  (forall c k, P c k -> (kc_root k, kc_scale k) = c) ->
  Forall2 (fun c o => match o with Some k => P c k | None => True end)
          candidates ys ->
  NoDup candidates ->
  NoDup (map (fun k => (kc_root k, kc_scale k)) (pushed ys))
  /\ forall p, In p (map (fun k => (kc_root k, kc_scale k)) (pushed ys)) ->
               In p candidates.
Proof.
  intros HP Hall. induction Hall as [| c o cs os Hco _ IH]; intros Hnd.
  - split; [constructor | intros p []].
  - inversion Hnd as [| ? ? Hc Hcs]; subst.
    destruct (IH Hcs) as [IHn IHi].
    destruct o as [k |]; cbn [pushed flat_map app map].
    + fold (pushed os). rewrite (HP _ _ Hco). split.
      * constructor; [| exact IHn]. intros Hin. apply Hc, IHi, Hin.
      * intros p [<- | Hp]; [now left | right; now apply IHi].
    + fold (pushed os). split; [exact IHn |].
      intros p Hp. right. now apply IHi.
Qed.

(** C7.  [detectKey] scores the 48 pairs of the 12 roots with the scale
    types major, naturalMinor, dorian and mixolydian.  The notes it
    counts are the distinct canonical spellings of the non-empty
    strings, of the frequencies with a finite rounded MIDI number and of
    the [note] fields of the objects of its argument.  With fewer than
    two of them it returns the empty list.  Otherwise it returns at most
    five entries, in descending order of score and no two for the same
    root and scale type; every entry belongs to one of the 48 pairs,
    reports the number of distinct notes found in that scale and their
    total, and carries the positive score
    [(matched - unmatched * 2) / total]; and a pair with a positive
    score is either among the entries or scores no more than each of the
    five returned. *)
Theorem detectKey_candidates (roundedMidi : Q -> option Z)
  (notes : list note_input) :
  length key_candidates = 48%nat
  /\ key_candidates
     = list_prod NOTE_NAMES ["major"; "naturalMinor"; "dorian"; "mixolydian"]
  /\ NoDup (key_unique_notes roundedMidi notes)
  /\ (forall n,
        In n (key_unique_notes roundedMidi notes)
        <-> exists x,
              In x notes
              /\ match x with
                 | ByName s =>
                     s <> "" /\ n = indexToNote (noteToIndex s) false
                 | ByFrequency f =>
                     exists midiNote,
                       roundedMidi f = Some midiNote
                       /\ n = indexToNote (Z.rem midiNote 12) false
                 | ByObject note _ =>
                     n = indexToNote (noteToIndex note) false
                 end)
  /\ ((length (key_unique_notes roundedMidi notes) < 2)%nat ->
      detectKey roundedMidi notes = Return [])
  /\ ((2 <= length (key_unique_notes roundedMidi notes))%nat ->
      exists results,
        detectKey roundedMidi notes = Return results
        /\ (length results <= 5)%nat
        /\ StronglySorted (fun a b => kc_score b <= kc_score a)%Q results
        /\ NoDup (map (fun k => (kc_root k, kc_scale k)) results)
        /\ (forall k,
              In k results ->
              exists sc,
                In (kc_root k, kc_scale k) key_candidates
                /\ getScaleNotes (kc_root k) (kc_scale k) = Return (Some sc)
                /\ kc_matchedNotes k
                   = matched_in sc (key_unique_notes roundedMidi notes)
                /\ kc_totalNotes k
                   = Z.of_nat (length (key_unique_notes roundedMidi notes))
                /\ kc_score k
                   = raw_score sc (key_unique_notes roundedMidi notes)
                /\ (0 < kc_score k)%Q)
        /\ (forall root scaleType sc,
              In (root, scaleType) key_candidates ->
              getScaleNotes root scaleType = Return (Some sc) ->
              (0 < raw_score sc (key_unique_notes roundedMidi notes))%Q ->
              (exists k,
                 In k results /\ kc_root k = root /\ kc_scale k = scaleType)
              \/ (length results = 5%nat
                  /\ forall k,
                       In k results ->
                       (raw_score sc (key_unique_notes roundedMidi notes)
                        <= kc_score k)%Q))).
Proof.
  split; [reflexivity |].
  split; [reflexivity |].
  split; [apply (Set_spread_spec _ String.eqb String.eqb_eq) |].
  split; [apply key_unique_notes_spec |].
  unfold detectKey.
  set (uniqueNotes := key_unique_notes roundedMidi notes).
  split.
  - intros H.
    settle_length_guard. reflexivity.
  - intros H.
    settle_length_guard.
    destruct (mapM_Forall2 (score_key uniqueNotes)
                (fun candidate o =>
                   exists sc,
                     getScaleNotes (fst candidate) (snd candidate)
                     = Return (Some sc)
                     /\ o = if positive (raw_score sc uniqueNotes)
                            then Some (mkCandidate
                                         (fst candidate ++ " " ++ sr_name sc)
                                         (fst candidate)
                                         (snd candidate)
                                         (raw_score sc uniqueNotes)
                                         (matched_in sc uniqueNotes)
                                         (Z.of_nat (length uniqueNotes)))
                            else None)
                key_candidates) as (ys & Hys & Hall).
    { intros candidate Hin.
      destruct (score_key_candidate uniqueNotes candidate Hin)
        as (sc & Hsc & Hk).
      eexists. split; [exact Hk |]. exists sc. split; [exact Hsc | reflexivity]. }
    rewrite Hys. cbn [bind].
    set (sorted := sort by_score_descending (pushed ys)).
    assert (Hsorted : StronglySorted (fun a b => kc_score b <= kc_score a)%Q
                                     sorted)
      by apply by_score_descending_sorted.
    assert (Hmem : forall k, In k sorted <-> In (Some k) ys).
    { intros k. rewrite <- In_pushed. split; intros Hk.
      - apply (Permutation_in _ (sort_perm _ by_score_descending _) Hk).
      - apply (Permutation_in _ (Permutation_sym
                                   (sort_perm _ by_score_descending _)) Hk). }
    exists (firstn 5 sorted).
    split; [reflexivity |].
    split; [apply firstn_le_length |].
    split; [now apply StronglySorted_firstn |].
    split; [| split].
    + rewrite <- firstn_map.
      apply (NoDup_app_remove_r _
               (skipn 5 (map (fun k => (kc_root k, kc_scale k)) sorted))).
      rewrite firstn_skipn.
      apply (Permutation_NoDup
               (Permutation_map _ (Permutation_sym
                                     (sort_perm _ by_score_descending _)))).
      apply (pushed_candidates_distinct
               (fun c k => (kc_root k, kc_scale k) = c) key_candidates);
        [intros c k Hk; exact Hk | | apply key_candidates_distinct].
      eapply Forall2_impl; [| exact Hall].
      intros c o (sc & _ & ->).
      destruct (positive (raw_score sc uniqueNotes)); [| exact I].
      cbn [kc_root kc_scale]. now destruct c.
    + intros k Hk.
      assert (Hk' : In k sorted).
      { rewrite <- (firstn_skipn 5 sorted). apply in_or_app. now left. }
      apply Hmem in Hk'.
      destruct (Forall2_In_r _ _ _ _ Hall Hk')
        as ([root scaleType] & Hc & sc & Hsc & Ho).
      cbn [fst snd] in *.
      destruct (positive (raw_score sc uniqueNotes)) eqn:Ep;
        [| discriminate Ho].
      injection Ho as ->. cbn.
      exists sc. repeat split; try assumption.
      now apply positive_spec.
    + intros root scaleType sc Hc Hsc Hpos.
      destruct (Forall2_In_l _ _ _ _ Hall Hc) as (o & Ho & sc' & Hsc' & Eo).
      cbn [fst snd] in *.
      rewrite Hsc in Hsc'. injection Hsc' as <-.
      rewrite (proj2 (positive_spec _) Hpos) in Eo. subst o.
      apply Hmem in Ho.
      rewrite <- (firstn_skipn 5 sorted) in Ho.
      apply in_app_or in Ho. destruct Ho as [Ho | Ho].
      * left. eexists. split; [exact Ho |]. split; reflexivity.
      * right.
        assert (Hlen : (5 < length sorted)%nat \/ (length sorted <= 5)%nat)
          by lia.
        destruct Hlen as [Hlen | Hlen];
          [| rewrite (skipn_all2 _ Hlen) in Ho; destruct Ho].
        split; [apply firstn_length_le; lia |].
        intros k Hk.
        apply (StronglySorted_firstn_dominates _ _ _ _ _ Hsorted Hk Ho).
Qed.

Lemma detectKey_candidates_witness :
  detectKey (fun _ => None) [ByName "C"; ByName "C"; ByName "C"] = Return []
  /\ In "G" (key_unique_notes (fun _ => None)
               [ByName "C"; ByName "E"; ByName "G"])
  /\ exists results,
       detectKey (fun _ => None) [ByName "C"; ByName "E"; ByName "G"]
       = Return results
       /\ map (fun k => (kc_root k, kc_scale k,
                         kc_matchedNotes k, kc_totalNotes k)) results
          = [ ("C", "major", 3, 3); ("C", "mixolydian", 3, 3);
              ("D", "naturalMinor", 3, 3); ("D", "dorian", 3, 3);
              ("D", "mixolydian", 3, 3) ].
Proof.
  split; [| split].
  - apply (proj1 (proj2 (proj2 (proj2 (proj2
             (detectKey_candidates (fun _ => None)
                [ByName "C"; ByName "C"; ByName "C"])))))).
    vm_compute. lia.
  - apply (proj1 (proj2 (proj2 (proj2
             (detectKey_candidates (fun _ => None)
                [ByName "C"; ByName "E"; ByName "G"]))))).
    exists (ByName "G"). split; [simpl; tauto |].
    split; [discriminate | reflexivity].
  - destruct (proj2 (proj2 (proj2 (proj2 (proj2
                (detectKey_candidates (fun _ => None)
                   [ByName "C"; ByName "E"; ByName "G"]))))))
      as (results & Hr & _).
    + vm_compute. lia.
    + exists results. split; [exact Hr |].
      vm_compute in Hr. injection Hr as <-. reflexivity.
Defined.

(* ------------------------------------------------------------------ *)
(** ** Unrecognized note names *)
(* ------------------------------------------------------------------ *)

Lemma identifyChord_completes (notes : list note_input) :
  exists r, identifyChord notes = Return r.
Proof.
  unfold identifyChord.
  destruct (Z.of_nat (length (chord_unique_notes notes)) <? 2);
    [eexists; reflexivity |].
  destruct (try_roots (chord_unique_notes notes) (chord_unique_notes notes))
    as [r |] eqn:E.
  - destruct (try_roots_normal _ _ _ E) as [c ->]. eexists. reflexivity.
  - eexists. reflexivity.
Qed.

Lemma detectKey_completes (roundedMidi : Q -> option Z)
  (notes : list note_input) :
  exists results, detectKey roundedMidi notes = Return results.
Proof.
  unfold detectKey.
  destruct (Z.of_nat (length (key_unique_notes roundedMidi notes)) <? 2);
    [eexists; reflexivity |].
  destruct (mapM_Forall2 (score_key (key_unique_notes roundedMidi notes))
              (fun _ _ => True) key_candidates) as (ys & Hys & _).
  { intros candidate Hin.
    destruct (score_key_candidate (key_unique_notes roundedMidi notes)
                candidate Hin) as (sc & _ & Hk).
    eexists. split; [exact Hk | exact I]. }
  rewrite Hys. eexists. reflexivity.
Qed.

Lemma canonical_unrecognized (note : string) :
  ~ recognized note -> canonical (VString note) = "B".
Proof.
  intros H. unfold canonical. cbn [noteToIndex_value].
  now rewrite (noteToIndex_unrecognized note H).
Qed.

(** C4, as the code has it.  A string that is neither one of the twelve
    sharp spellings nor one of the seven keys of [flatToSharp] makes
    [noteToIndex] return [-1]; no error is raised.  [getScaleNotes] and
    [buildChord] go on to compute with that index and [isNoteInScale]
    answers.  [identifyChord] reads such a note as B wherever it stands
    among the notes, and returns.  [detectKey] returns too: it drops the
    empty string and reads every other such note as B. *)
Theorem noteToIndex_unrecognized_sentinel (note : string) :
  ~ recognized note ->
  noteToIndex_call note = Return (-1)
  /\ (forall scaleType scale,
        own SCALES scaleType = Some scale ->
        exists r,
          getScaleNotes note scaleType = Return (Some r)
          /\ sr_noteIndices r
             = map (fun i => Z.rem (-1 + i) 12) (sc_intervals scale))
  /\ (forall query scaleType scale,
        own SCALES scaleType = Some scale ->
        exists b, isNoteInScale query note scaleType = Return b)
  /\ (forall chordType chord,
        own CHORD_TYPES chordType = Some chord ->
        exists c,
          buildChord note chordType = Return (Some c)
          /\ cr_notes c
             = map (fun i => indexToNote (Z.rem (-1 + i) 12) false)
                   (ch_intervals chord))
  /\ canonical (VString note) = "B"
  /\ (forall before after,
        identifyChord (before ++ ByName note :: after)
        = identifyChord (before ++ ByName "B" :: after)
        /\ exists r,
             identifyChord (before ++ ByName note :: after) = Return r)
  /\ (forall roundedMidi before after,
        (note <> "" ->
         detectKey roundedMidi (before ++ ByName note :: after)
         = detectKey roundedMidi (before ++ ByName "B" :: after))
        /\ (note = "" ->
            detectKey roundedMidi (before ++ ByName note :: after)
            = detectKey roundedMidi (before ++ after))
        /\ exists results,
             detectKey roundedMidi (before ++ ByName note :: after)
             = Return results).
Proof.
  intros H. pose proof (noteToIndex_unrecognized note H) as E.
  pose proof (canonical_unrecognized note H) as Hc.
  split; [unfold noteToIndex_call; now rewrite E |].
  split; [| split; [| split; [| split; [exact Hc | split]]]].
  - intros scaleType scale Hs. unfold getScaleNotes.
    rewrite (own_get _ _ _ Hs), E. eexists. split; reflexivity.
  - intros query scaleType scale Hs.
    rewrite (isNoteInScale_literal _ _ _ _ Hs). eexists. reflexivity.
  - intros chordType chord Hch. unfold buildChord.
    rewrite (own_get _ _ _ Hch), E. eexists. split; reflexivity.
  - intros before after. split; [| apply identifyChord_completes].
    unfold identifyChord, chord_unique_notes.
    rewrite !map_app. cbn [map chord_note_name]. now rewrite Hc.
  - intros roundedMidi before after.
    split; [| split; [| apply detectKey_completes]].
    + intros Hne. unfold detectKey, key_unique_notes.
      rewrite !map_app, !filter_app. cbn [map key_note_name filter].
      assert (Ht : truthy (VString note) = true)
        by (cbn [truthy]; apply String.eqb_neq in Hne; now rewrite Hne).
      rewrite Ht. change (truthy (VString "B")) with true. cbv iota.
      rewrite !map_app. cbn [map]. rewrite Hc. reflexivity.
    + intros ->. unfold detectKey, key_unique_notes.
      rewrite !map_app, !filter_app. reflexivity.
Qed.

Lemma not_recognized_H : ~ recognized "H".
Proof.
  intros [H | H]; simpl in H;
    repeat (destruct H as [H | H]; [discriminate H |]); destruct H.
Qed.

Lemma noteToIndex_unrecognized_sentinel_witness :
  noteToIndex_call "H" = Return (-1)
  /\ identifyChord [ByName "C"; ByName "E"; ByName "H"]
     = identifyChord [ByName "C"; ByName "E"; ByName "B"]
  /\ detectKey (fun _ => None) [ByName "C"; ByName "E"; ByName "H"]
     = detectKey (fun _ => None) [ByName "C"; ByName "E"; ByName "B"].
Proof.
  destruct (noteToIndex_unrecognized_sentinel "H" not_recognized_H)
    as (H1 & _ & _ & _ & _ & H2 & H3).
  split; [exact H1 |].
  split.
  - exact (proj1 (H2 [ByName "C"; ByName "E"] [])).
  - apply (proj1 (H3 (fun _ => None) [ByName "C"; ByName "E"] [])).
    discriminate.
Defined.

(** C4, as the spec words it, fails: ["H"] is no recognized spelling, and
    the conversion returns the sentinel [-1] instead of raising
    [InvalidNoteNameError]. *)
Lemma noteToIndex_does_not_fail_fast :
  ~ In "H" NOTE_NAMES
  /\ ~ In "H" (map fst flatToSharp)
  /\ noteToIndex_call "H" = Return (-1)
  /\ noteToIndex_call "H" <> Throw (UserError "InvalidNoteNameError").
Proof.
  split; [intros H; apply not_recognized_H; now left |].
  split; [intros H; apply not_recognized_H; now right |].
  split; [reflexivity | discriminate].
Qed.

(* ------------------------------------------------------------------ *)
(** ** The chord analyzer and the caller's array *)
(* ------------------------------------------------------------------ *)

Lemma write_length (s : ChordAnalyzer.store) (l : ChordAnalyzer.loc)
  (o : ChordAnalyzer.object) :
  length (ChordAnalyzer.write s l o) = length s.
Proof.
  revert l. induction s as [| x rest IH]; intros l; [reflexivity |].
  destruct l as [| l]; simpl; [reflexivity | now rewrite IH].
Qed.

Lemma write_same (s : ChordAnalyzer.store) (l : ChordAnalyzer.loc)
  (o : ChordAnalyzer.object) :
  (l < length s)%nat -> nth_error (ChordAnalyzer.write s l o) l = Some o.
Proof.
  revert l. induction s as [| x rest IH]; intros l H; simpl in H; [lia |].
  destruct l as [| l]; simpl; [reflexivity | apply IH; lia].
Qed.

Lemma write_other (s : ChordAnalyzer.store) (l l' : ChordAnalyzer.loc)
  (o : ChordAnalyzer.object) :
  l' <> l -> nth_error (ChordAnalyzer.write s l o) l' = nth_error s l'.
Proof.
  revert l l'. induction s as [| x rest IH]; intros l l' H; [reflexivity |].
  destruct l as [| l], l' as [| l']; simpl; try reflexivity;
    [congruence | apply IH; congruence].
Qed.

Lemma by_freq_sorted (elems : list ChordAnalyzer.sounding) :
  StronglySorted
    (fun a b => ChordAnalyzer.freq a <= ChordAnalyzer.freq b)%Q
    (sort ChordAnalyzer.by_freq elems).
Proof.
  apply sort_sorted; unfold ChordAnalyzer.by_freq.
  - intros x y H. apply positive_false in H. lra.
  - intros x y H. apply positive_spec in H. lra.
  - intros x y z Hxy Hyz. lra.
Qed.

(** C10.  [identify] is called with a reference to the caller's array.
    With fewer than two elements it returns [null] and leaves the store
    as it was.  Otherwise the array the caller holds has been replaced,
    at its own location, by its elements sorted by ascending frequency;
    every other object of the caller's store is untouched; and the
    object returned, like the two arrays it refers to, lies at a
    location that did not exist before the call. *)
Theorem identify_sorts_caller_array
  (semitoneDistance : Q -> Q -> Z) (ratioText : Q -> Q -> string)
  (s : ChordAnalyzer.store) (activeNotes : ChordAnalyzer.loc)
  (elems : list ChordAnalyzer.sounding) :
  nth_error s activeNotes = Some (ChordAnalyzer.NoteArray elems) ->
  ((length elems < 2)%nat ->
   ChordAnalyzer.identify semitoneDistance ratioText s activeNotes
   = Return (s, None))
  /\ ((2 <= length elems)%nat ->
      exists s' result,
        ChordAnalyzer.identify semitoneDistance ratioText s activeNotes
        = Return (s', Some result)
        /\ nth_error s' activeNotes
           = Some (ChordAnalyzer.NoteArray (sort ChordAnalyzer.by_freq elems))
        /\ Permutation (sort ChordAnalyzer.by_freq elems) elems
        /\ StronglySorted
             (fun a b => ChordAnalyzer.freq a <= ChordAnalyzer.freq b)%Q
             (sort ChordAnalyzer.by_freq elems)
        /\ (forall l, l <> activeNotes -> (l < length s)%nat ->
                      nth_error s' l = nth_error s l)
        /\ nth_error s result = None
        /\ exists root chordName semitones ratios stability,
             nth_error s' result
             = Some (ChordAnalyzer.Analysis root chordName semitones ratios
                                            stability)
             /\ nth_error s semitones = None
             /\ nth_error s ratios = None).
Proof.
  intros Hs.
  assert (Hloc : (activeNotes < length s)%nat)
    by (apply nth_error_Some; now rewrite Hs).
  unfold ChordAnalyzer.identify. rewrite Hs. split.
  - intros H.
    settle_length_guard. reflexivity.
  - intros H.
    settle_length_guard.
    pose proof (sort_length ChordAnalyzer.by_freq elems) as Hlen.
    destruct (sort ChordAnalyzer.by_freq elems) as [| root rest] eqn:Esort;
      [simpl in Hlen; lia |].
    cbv beta iota zeta delta [ChordAnalyzer.alloc].
    remember (ChordAnalyzer.write s activeNotes
                (ChordAnalyzer.NoteArray (root :: rest))) as s1 eqn:Es1.
    assert (Hlen1 : length s1 = length s)
      by (rewrite Es1; apply write_length).
    eexists. eexists. split; [reflexivity |].
    rewrite !length_app, Hlen1. cbn [length].
    split.
    { rewrite !nth_error_app1 by (rewrite ?length_app, Hlen1; lia).
      rewrite Es1. now apply write_same. }
    split; [rewrite <- Esort; apply sort_perm |].
    split; [rewrite <- Esort; apply by_freq_sorted |].
    split.
    { intros l Hne Hl.
      rewrite !nth_error_app1 by (rewrite ?length_app, Hlen1; lia).
      rewrite Es1. now apply write_other. }
    split; [apply nth_error_None; lia |].
    do 5 eexists. split; [| split].
    + rewrite nth_error_app2 by (rewrite !length_app, Hlen1; cbn; lia).
      rewrite !length_app, Hlen1. cbn [length].
      rewrite Nat.sub_diag. reflexivity.
    + apply nth_error_None. lia.
    + apply nth_error_None. lia.
Qed.

(** A call that reorders: the caller's array holds 660 Hz before 440 Hz
    and holds them in the opposite order afterwards. *)
Lemma identify_sorts_caller_array_witness :
  let before :=
    [ChordAnalyzer.mkSounding 660 "Note"; ChordAnalyzer.mkSounding 440 "Drone"]
  in
  exists s' result,
    ChordAnalyzer.identify (fun _ _ => 7) (fun _ _ => "1.50")
      [ChordAnalyzer.NoteArray before] 0%nat
    = Return (s', Some result)
    /\ nth_error s' 0%nat
       = Some (ChordAnalyzer.NoteArray
                 [ChordAnalyzer.mkSounding 440 "Drone";
                  ChordAnalyzer.mkSounding 660 "Note"])
    /\ nth_error s' 0%nat <> Some (ChordAnalyzer.NoteArray before).
Proof.
  intros before.
  destruct (proj2 (identify_sorts_caller_array
                     (fun _ _ => 7) (fun _ _ => "1.50")
                     [ChordAnalyzer.NoteArray before] 0%nat before eq_refl))
    as (s' & result & Hr & Hs' & _).
  - simpl. lia.
  - exists s', result. split; [exact Hr |].
    rewrite Hs'. split; [reflexivity | discriminate].
Defined.

(* ------------------------------------------------------------------ *)
(** ** Further properties: names, indices and intervals *)
(* ------------------------------------------------------------------ *)

Lemma residue_cases (m : Z) :
  0 <= m < 12 ->
  m = 0 \/ m = 1 \/ m = 2 \/ m = 3 \/ m = 4 \/ m = 5 \/ m = 6 \/ m = 7 \/
  m = 8 \/ m = 9 \/ m = 10 \/ m = 11.
Proof. lia. Qed.

(** The index of the name found at a normalized position of either
    name table is that position. *)
Lemma name_table_index (m : Z) (useFlats : bool) :
  0 <= m < 12 ->
  noteToIndex
    (nth (Z.to_nat m) (if useFlats then NOTE_NAMES_FLAT else NOTE_NAMES) "")
  = m.
Proof.
  intros H. apply residue_cases in H.
  destruct useFlats;
    repeat (destruct H as [-> | H]; [reflexivity |]); rewrite H; reflexivity.
Qed.

(** X1.  From an index to a name and back: in either spelling, the name
    [indexToNote] gives for any integer, negative ones included, is read
    back by [noteToIndex] as the residue of that integer modulo 12. *)
Theorem indexToNote_round_trip (index : Z) (useFlats : bool) :
  noteToIndex (indexToNote index useFlats) = index mod 12.
Proof.
  unfold indexToNote. rewrite normalized_mod.
  apply name_table_index, Z.mod_pos_bound. lia.
Qed.

(** X2.  From a name to an index and back: a sharp spelling is returned
    unchanged when sharps are asked for, and a spelling of the flat table
    is returned unchanged when flats are asked for. *)
Theorem noteToIndex_round_trip (note : string) :
  (In note NOTE_NAMES -> indexToNote (noteToIndex note) false = note)
  /\ (In note NOTE_NAMES_FLAT -> indexToNote (noteToIndex note) true = note).
Proof.
  split; intros H; simpl in H;
    repeat (destruct H as [<- | H]; [reflexivity |]); destruct H.
Qed.

Lemma noteToIndex_round_trip_witness :
  indexToNote (noteToIndex "F#") false = "F#"
  /\ indexToNote (noteToIndex "Eb") true = "Eb".
Proof.
  split.
  - apply (proj1 (noteToIndex_round_trip "F#")). simpl. tauto.
  - apply (proj2 (noteToIndex_round_trip "Eb")). simpl. tauto.
Defined.

(** Pitch classes repeat every octave: moving an index by any number of
    octaves, up or down, does not change the name. *)
Theorem indexToNote_octave_periodic (index k : Z) (useFlats : bool) :
  indexToNote (index + 12 * k) useFlats = indexToNote index useFlats.
Proof.
  unfold indexToNote. f_equal. f_equal.
  rewrite !normalized_mod.
  now rewrite (Z.mul_comm 12 k), Z.mod_add by lia.
Qed.

Lemma getInterval_semitones_mod (a b : string) :
  ir_semitones (getInterval a b) = (noteToIndex b - noteToIndex a) mod 12.
Proof.
  unfold getInterval. cbn [ir_semitones].
  pose proof (noteToIndex_bounds a). pose proof (noteToIndex_bounds b).
  rewrite Z.rem_mod_nonneg by lia.
  replace (noteToIndex b - noteToIndex a + 12)
    with (noteToIndex b - noteToIndex a + 1 * 12) by lia.
  now rewrite Z.mod_add by lia.
Qed.

(** X3.  Intervals add up around the circle of twelve semitones, for any
    three strings given as note names: the way from [a] to [c] is the
    way from [a] to [b] followed by the way from [b] to [c], reduced
    modulo 12; and the way back from [b] to [a] completes the way there
    to a multiple of 12. *)
Theorem getInterval_compose (a b c : string) :
  ir_semitones (getInterval a c)
  = (ir_semitones (getInterval a b) + ir_semitones (getInterval b c)) mod 12
  /\ (ir_semitones (getInterval a b) + ir_semitones (getInterval b a)) mod 12
     = 0.
Proof.
  rewrite !getInterval_semitones_mod. split.
  - rewrite <- Zplus_mod. f_equal. lia.
  - rewrite <- Zplus_mod.
    replace (noteToIndex b - noteToIndex a + (noteToIndex a - noteToIndex b))
      with 0 by lia.
    reflexivity.
Qed.

Ltac found_interval_entry :=
  cbn [find INTERVALS option_map snd fst iv_semitones Z.eqb];
  eexists; eexists;
  (split; [| split; [| split; [| split; [| split]]]]);
  [ | | | reflexivity | reflexivity | reflexivity ];
  [ simpl; eauto 20 | discriminate | reflexivity ].

(** X4.  The lookup of the interval table never falls back: whatever two
    strings are given, the name, the just ratio and the quality reported
    are those of one of the twelve entries from unison to major seventh.
    The entry of the octave is never the one found. *)
Theorem getInterval_entry_found (a b : string) :
  exists key entry,
    In (key, entry) INTERVALS
    /\ key <> "octave"
    /\ iv_semitones entry = ir_semitones (getInterval a b)
    /\ ir_name (getInterval a b) = iv_name entry
    /\ ir_justRatio (getInterval a b) = iv_justRatio entry
    /\ ir_quality (getInterval a b) = iv_quality entry.
Proof.
  pose proof (getInterval_semitones_mod a b) as E.
  pose proof (Z.mod_pos_bound (noteToIndex b - noteToIndex a) 12 ltac:(lia))
    as Hr.
  unfold getInterval in *. cbn [ir_semitones ir_name ir_justRatio ir_quality]
    in *.
  rewrite E. apply residue_cases in Hr.
  repeat (destruct Hr as [-> | Hr]; [found_interval_entry |]).
  rewrite Hr. found_interval_entry.
Qed.

(* ------------------------------------------------------------------ *)
(** ** Further properties: scales and chords *)
(* ------------------------------------------------------------------ *)

Lemma index_representative (root : string) :
  exists r, In r index_representatives /\ noteToIndex r = noteToIndex root.
Proof.
  pose proof (noteToIndex_bounds root) as H.
  assert (Hc : noteToIndex root = -1 \/ 0 <= noteToIndex root < 12) by lia.
  destruct Hc as [Hc | Hc].
  - exists "". split; [now left | now rewrite Hc].
  - exists (indexToNote (noteToIndex root) false). split.
    + right. apply indexToNote_defined.
    + apply indexToNote_small. lia.
Qed.

Lemma indexToNote_rem (x : Z) (useFlats : bool) :
  indexToNote (Z.rem x 12) useFlats = indexToNote x useFlats.
Proof.
  unfold indexToNote. do 2 f_equal. now rewrite !normalized_mod, rem_mod_12.
Qed.

Lemma scale_starts_at_root (scaleType : string) (scale : scale_entry) :
  own SCALES scaleType = Some scale ->
  exists rest, sc_intervals scale = 0 :: rest.
Proof.
  intros H. apply own_Some_In in H. simpl in H.
  repeat (destruct H as [[= <- <-] | H]; [eexists; reflexivity |]).
  destruct H.
Qed.

Lemma scale_notes_distinct (root scaleType : string) (scale : scale_entry) :
  own SCALES scaleType = Some scale ->
  NoDup (map (fun interval =>
                indexToNote (Z.rem (noteToIndex root + interval) 12) false)
             (sc_intervals scale)).
Proof.
  intros H. apply nodupb_NoDup.
  pose proof (noteToIndex_bounds root) as Hb.
  assert (Hc : noteToIndex root = -1 \/ 0 <= noteToIndex root + 0 < 12)
    by lia.
  apply own_Some_In in H. simpl in H.
  destruct Hc as [-> | Hc];
    [| apply residue_cases in Hc; rewrite Z.add_0_r in Hc;
       repeat (destruct Hc as [-> | Hc]; [| ]); [.. | rewrite Hc] ];
    repeat (destruct H as [[= <- <-] | H]; [vm_compute; reflexivity |]);
    destruct H.
Qed.

(** X5.  The shape of a scale.  An unregistered scale type gives [null].  A
    registered one gives, for any root string, as many notes as the
    template has offsets, all of them sharp spellings and no two alike;
    the first is the sharp spelling of the root, and the names are those
    of the reported indices. *)
Theorem getScaleNotes_shape (root scaleType : string) :
  (own SCALES scaleType = None ->
   ~ In scaleType Object_prototype_names ->
   getScaleNotes root scaleType = Return None)
  /\ (forall scale,
        own SCALES scaleType = Some scale ->
        exists sc,
          getScaleNotes root scaleType = Return (Some sc)
          /\ length (sr_notes sc) = length (sc_intervals scale)
          /\ Forall (fun n => In n NOTE_NAMES) (sr_notes sc)
          /\ NoDup (sr_notes sc)
          /\ hd_error (sr_notes sc)
             = Some (indexToNote (noteToIndex root) false)
          /\ map (fun i => indexToNote i false) (sr_noteIndices sc)
             = sr_notes sc).
Proof.
  split.
  - intros H Hn. unfold getScaleNotes, get.
    now rewrite H, (includes_notin _ _ Hn).
  - intros scale H. unfold getScaleNotes. rewrite (own_get _ _ _ H).
    eexists. split; [reflexivity |]. cbn [sr_notes sr_noteIndices].
    split; [apply length_map |].
    split.
    { apply Forall_forall. intros n Hn. apply in_map_iff in Hn.
      destruct Hn as (i & <- & _). apply indexToNote_defined. }
    split; [now apply scale_notes_distinct with scaleType |].
    split.
    { destruct (scale_starts_at_root _ _ H) as [rest ->]. cbn [map hd_error].
      now rewrite Z.add_0_r, indexToNote_rem. }
    rewrite map_map. reflexivity.
Qed.

Lemma getScaleNotes_shape_witness :
  getScaleNotes "Db" "nonsense" = Return None
  /\ exists sc,
       getScaleNotes "Db" "majorPentatonic" = Return (Some sc)
       /\ length (sr_notes sc) = 5%nat
       /\ hd_error (sr_notes sc) = Some "C#".
Proof.
  split.
  - apply (proj1 (getScaleNotes_shape "Db" "nonsense")); [reflexivity |].
    intros H. simpl in H.
    repeat (destruct H as [H | H]; [discriminate H |]). destruct H.
  - destruct (proj2 (getScaleNotes_shape "Db" "majorPentatonic") _ eq_refl)
      as (sc & Hsc & Hl & _ & _ & Hh & _).
    exists sc. split; [exact Hsc |]. split; [exact Hl | exact Hh].
Defined.

(** [getScaleNotes] and [getDiatonicChords] read the root only through
    its index. *)
Lemma getScaleNotes_same_index (r1 r2 scaleType : string)
  (sc1 : scale_result) :
  noteToIndex r1 = noteToIndex r2 ->
  getScaleNotes r1 scaleType = Return (Some sc1) ->
  exists sc2,
    getScaleNotes r2 scaleType = Return (Some sc2)
    /\ sr_notes sc2 = sr_notes sc1
    /\ sr_noteIndices sc2 = sr_noteIndices sc1.
Proof.
  intros E. unfold getScaleNotes.
  destruct (get SCALES scaleType) as [scale | |]; intros H;
    [| discriminate H | discriminate H].
  injection H as <-. eexists. split; [reflexivity |].
  cbn [sr_notes sr_noteIndices]. now rewrite E.
Qed.

Lemma getDiatonicChords_same_index (r1 r2 scaleType : string)
  (useSevenths : bool) :
  noteToIndex r1 = noteToIndex r2 ->
  getDiatonicChords r1 scaleType useSevenths
  = getDiatonicChords r2 scaleType useSevenths.
Proof.
  intros E. unfold getDiatonicChords, getScaleNotes.
  destruct (get DIATONIC_PATTERNS scaleType) as [pattern | |];
    [| | reflexivity];
    destruct (get SCALES scaleType) as [scale | |]; try reflexivity;
    cbn [bind sr_notes]; now rewrite E.
Qed.

(** X6.  Enharmonic roots are interchangeable: two root strings with the same
    index give the same scale notes and indices, the same chord tones
    with the same octaves and frequencies, and the same diatonic
    chords. *)
Theorem enharmonic_roots (r1 r2 : string) :
  noteToIndex r1 = noteToIndex r2 ->
  (forall scaleType sc1,
     getScaleNotes r1 scaleType = Return (Some sc1) ->
     exists sc2,
       getScaleNotes r2 scaleType = Return (Some sc2)
       /\ sr_notes sc2 = sr_notes sc1
       /\ sr_noteIndices sc2 = sr_noteIndices sc1)
  /\ (forall chordType c1,
        buildChord r1 chordType = Return (Some c1) ->
        exists c2,
          buildChord r2 chordType = Return (Some c2)
          /\ cr_notes c2 = cr_notes c1
          /\ cr_frequencies c2 = cr_frequencies c1)
  /\ (forall scaleType useSevenths,
        getDiatonicChords r1 scaleType useSevenths
        = getDiatonicChords r2 scaleType useSevenths).
Proof.
  intros E. split; [| split].
  - intros scaleType sc1. now apply getScaleNotes_same_index.
  - intros chordType c1. unfold buildChord.
    destruct (get CHORD_TYPES chordType) as [chord | |]; intros H;
      [| discriminate H | discriminate H].
    injection H as <-. eexists. split; [reflexivity |].
    cbn [cr_notes cr_frequencies]. now rewrite E.
  - intros scaleType useSevenths. now apply getDiatonicChords_same_index.
Qed.

Lemma enharmonic_roots_witness :
  getDiatonicChords "Db" "major" true = getDiatonicChords "C#" "major" true.
Proof.
  apply (proj2 (proj2 (enharmonic_roots "Db" "C#" eq_refl))).
Defined.

(** X7.  [isNoteInScale] answers [true] only for a registered scale type and
    only for a query that is literally one of the twelve sharp
    spellings: no flat-spelled query is ever found in any scale. *)
Theorem isNoteInScale_true_only_sharp (note root scaleType : string) :
  isNoteInScale note root scaleType = Return true ->
  In note NOTE_NAMES /\ exists scale, own SCALES scaleType = Some scale.
Proof.
  unfold isNoteInScale, getScaleNotes, get.
  destruct (own SCALES scaleType) as [scale |].
  - cbn [bind sr_notes]. intros [= H]. apply includes_In in H.
    apply in_map_iff in H. destruct H as (i & <- & _).
    split; [apply indexToNote_defined | eexists; reflexivity].
  - destruct (includes Object_prototype_names scaleType); discriminate.
Qed.

Lemma isNoteInScale_true_only_sharp_witness :
  In "A#" NOTE_NAMES
  /\ exists scale, own SCALES "major" = Some scale.
Proof.
  apply (isNoteInScale_true_only_sharp "A#" "F" "major"). reflexivity.
Defined.

(** X8.  The root belongs to every scale built on it: queried by its sharp
    spelling, the root of any registered scale is found, whichever
    spelling the root itself was given in. *)
Theorem isNoteInScale_root (root scaleType : string) (scale : scale_entry) :
  own SCALES scaleType = Some scale ->
  isNoteInScale (indexToNote (noteToIndex root) false) root scaleType
  = Return true.
Proof.
  intros H. rewrite (isNoteInScale_literal _ _ _ _ H). f_equal.
  apply includes_In.
  destruct (scale_starts_at_root _ _ H) as [rest ->]. left.
  now rewrite Z.add_0_r, indexToNote_rem.
Qed.

Lemma isNoteInScale_root_witness :
  isNoteInScale "G#" "Ab" "blues" = Return true.
Proof.
  apply (isNoteInScale_root "Ab" "blues" (mkScale [0; 3; 5; 6; 7; 10]
                                                  "Blues Scale")).
  reflexivity.
Defined.

(** X9.  Chord tones are tempered from the root: for a registered chord type
    and any root string, the tone built from the template offset [o]
    sounds exactly [o] semitones above the root placed in octave 4
    (index of the root minus 9 semitones from A4), whatever octave the
    tone has been given.  Offsets of 12 and more are therefore not folded
    back into the octave. *)
Theorem buildChord_frequencies_from_root (root chordType : string)
  (chord : chord_entry) :
  own CHORD_TYPES chordType = Some chord ->
  exists c,
    buildChord root chordType = Return (Some c)
    /\ map (fun tone => semitones_from_A4 (ct_frequency tone))
           (cr_frequencies c)
       = map (fun offset => (noteToIndex root - 9) + offset)
             (ch_intervals chord)
    /\ (forall tone,
          In tone (cr_frequencies c) ->
          ct_frequency tone = noteToFrequency (ct_note tone) (ct_octave tone)).
Proof.
  intros H. unfold buildChord. rewrite (own_get _ _ _ H).
  eexists. split; [reflexivity |]. cbn [cr_frequencies].
  rewrite map_combine_map. split.
  - rewrite map_map. apply map_ext. intros offset.
    cbn [ct_frequency fst snd]. unfold noteToFrequency.
    cbn [semitones_from_A4].
    match goal with
    | |- context [noteToIndex (indexToNote ?x false)] =>
        change (noteToIndex (indexToNote x false))
          with (noteToIndex
                  (nth (Z.to_nat (Z.rem (Z.rem x 12 + 12) 12))
                       (if false then NOTE_NAMES_FLAT else NOTE_NAMES) ""))
    end.
    rewrite normalized_mod.
    rewrite (name_table_index _ false), rem_mod_12
      by (apply Z.mod_pos_bound; lia).
    pose proof (Z.div_mod (noteToIndex root + offset) 12 ltac:(lia)).
    unfold A4_MIDI_NUMBER. lia.
  - intros tone Hin. apply in_map_iff in Hin.
    destruct Hin as (offset & <- & _). reflexivity.
Qed.

Lemma buildChord_frequencies_from_root_witness :
  exists c,
    buildChord "C" "major9" = Return (Some c)
    /\ map (fun tone => semitones_from_A4 (ct_frequency tone))
           (cr_frequencies c)
       = [-9; -5; -2; 2; 5].
Proof.
  destruct (buildChord_frequencies_from_root "C" "major9" _ eq_refl)
    as (c & Hc & Hf & _).
  exists c. split; [exact Hc | exact Hf].
Defined.

Lemma chords_within_spec (scaleNotes : list string)
  (entries : list diatonic_entry) :
  chords_within scaleNotes entries = true ->
  forall e c n,
    In e entries -> de_chord e = Some c -> In n (cr_notes c) ->
    In n scaleNotes.
Proof.
  unfold chords_within. rewrite forallb_forall.
  intros H e c n He Hc Hn. specialize (H e He). rewrite Hc in H.
  rewrite forallb_forall in H. apply includes_In. now apply H.
Qed.

Ltac computed_scale_and_chords :=
  match goal with
  | |- exists sc entries, ?gs = _ /\ ?gd = _ /\ _ =>
      let vs := eval vm_compute in gs in
      let vd := eval vm_compute in gd in
      match constr:((vs, vd)) with
      | (Return (Some ?sc), Return (Some ?entries)) =>
          exists sc, entries; repeat split; vm_compute; reflexivity
      end
  end.

Lemma diatonic_within_scale_at (r scaleType : string) (useSevenths : bool)
  (pattern : diatonic_pattern) :
  In r index_representatives ->
  own DIATONIC_PATTERNS scaleType = Some pattern ->
  (useSevenths = true -> scaleType <> "harmonicMinor") ->
  exists sc entries,
    getScaleNotes r scaleType = Return (Some sc)
    /\ getDiatonicChords r scaleType useSevenths = Return (Some entries)
    /\ chords_within (sr_notes sc) entries = true.
Proof.
  intros Hr Hp Hs. apply own_Some_In in Hp. simpl in Hp, Hr.
  repeat (destruct Hp as [[= <- <-] | Hp];
          [destruct useSevenths;
           try (exfalso; now apply Hs);
           repeat (destruct Hr as [<- | Hr]; [computed_scale_and_chords |]);
           destruct Hr |]).
  destruct Hp.
Qed.

(** X10.  Diatonic chords stay inside their scale: for any root, every triad
    of the four registered patterns, and every seventh chord of the
    major, natural minor and dorian patterns, is made of notes of the
    scale it is the degree of. *)
Theorem diatonic_chords_within_scale (root scaleType : string)
  (useSevenths : bool) (pattern : diatonic_pattern) :
  own DIATONIC_PATTERNS scaleType = Some pattern ->
  (useSevenths = true -> scaleType <> "harmonicMinor") ->
  exists sc entries,
    getScaleNotes root scaleType = Return (Some sc)
    /\ getDiatonicChords root scaleType useSevenths = Return (Some entries)
    /\ forall e c n,
         In e entries -> de_chord e = Some c -> In n (cr_notes c) ->
         In n (sr_notes sc).
Proof.
  intros Hp Hs.
  destruct (index_representative root) as (r & Hr & E).
  destruct (diatonic_within_scale_at r scaleType useSevenths pattern
              Hr Hp Hs) as (sc & entries & Hsc & He & Hin).
  destruct (getScaleNotes_same_index r root _ _ E Hsc)
    as (sc' & Hsc' & Hn & _).
  exists sc', entries. split; [exact Hsc' |].
  split; [now rewrite <- (getDiatonicChords_same_index r root _ _ E) |].
  rewrite Hn. now apply chords_within_spec.
Qed.

Lemma diatonic_chords_within_scale_witness :
  exists sc entries,
    getScaleNotes "Eb" "dorian" = Return (Some sc)
    /\ getDiatonicChords "Eb" "dorian" true = Return (Some entries)
    /\ forall e c n,
         In e entries -> de_chord e = Some c -> In n (cr_notes c) ->
         In n (sr_notes sc).
Proof.
  apply (diatonic_chords_within_scale "Eb" "dorian" true) with
    (pattern := mkPattern
        ["minor"; "minor"; "major"; "major"; "minor"; "diminished"; "major"]
        ["i"; "ii"; "III"; "IV"; "v"; "vi°"; "VII"]
        ["minor7"; "minor7"; "major7"; "dominant7"; "minor7";
         "halfDiminished"; "major7"]).
  - reflexivity.
  - intros _. discriminate.
Defined.

(** The exception: the seventh chord the harmonic minor pattern puts on
    the third degree ([augmented7]) has a minor seventh that is no note
    of the scale.  In A harmonic minor it is C, E, G#, A#. *)
Remark harmonic_minor_seventh_leaves_scale :
  exists sc entries e c,
    getScaleNotes "A" "harmonicMinor" = Return (Some sc)
    /\ getDiatonicChords "A" "harmonicMinor" true = Return (Some entries)
    /\ nth_error entries 2 = Some e
    /\ de_chord e = Some c
    /\ cr_notes c = ["C"; "E"; "G#"; "A#"]
    /\ ~ In "A#" (sr_notes sc).
Proof.
  do 4 eexists.
  split; [reflexivity |]. split; [reflexivity |].
  split; [reflexivity |]. split; [reflexivity |].
  split; [reflexivity |].
  cbn. intros H.
  repeat (destruct H as [H | H]; [discriminate H |]). destruct H.
Qed.

(* ------------------------------------------------------------------ *)
(** ** Further properties: chord identification *)
(* ------------------------------------------------------------------ *)

Lemma index_cases (root : string) :
  noteToIndex root = -1 \/ noteToIndex root = 0 \/ noteToIndex root = 1 \/
  noteToIndex root = 2 \/ noteToIndex root = 3 \/ noteToIndex root = 4 \/
  noteToIndex root = 5 \/ noteToIndex root = 6 \/ noteToIndex root = 7 \/
  noteToIndex root = 8 \/ noteToIndex root = 9 \/ noteToIndex root = 10 \/
  noteToIndex root = 11.
Proof. pose proof (noteToIndex_bounds root). lia. Qed.

Lemma same_json_eq (a b : list Z) : same_json a b = true -> a = b.
Proof.
  revert b. induction a as [| x a IH]; intros [| y b] H; simpl in H;
    try discriminate; [reflexivity |].
  apply andb_true_iff in H. destruct H as [Hx Hr].
  apply Z.eqb_eq in Hx. subst. f_equal. now apply IH.
Qed.

Lemma match_chord_types_found (root : string) (intervals : list Z)
  (entries : list (string * chord_entry)) (r : completion identify_result) :
  match_chord_types root intervals entries = Some r ->
  exists type data,
    In (type, data) entries
    /\ same_json intervals (sort ascending (ch_intervals data)) = true
    /\ r = (chord <- buildChord root type ;; Return (Identified chord 1)).
Proof.
  induction entries as [| [type data] rest IH]; intros H; simpl in H;
    [discriminate |].
  destruct (same_json intervals (sort ascending (ch_intervals data))) eqn:E.
  - injection H as <-. exists type, data.
    split; [now left |]. split; [exact E | reflexivity].
  - destruct (IH H) as (t & d & Hin & Hm & Hr).
    exists t, d. split; [now right |]. split; assumption.
Qed.

Lemma try_roots_found (uniqueNotes roots : list string)
  (r : completion identify_result) :
  try_roots uniqueNotes roots = Some r ->
  exists root type data,
    In root roots
    /\ In (type, data) CHORD_TYPES
    /\ chord_matches uniqueNotes root data = true
    /\ r = (chord <- buildChord root type ;; Return (Identified chord 1)).
Proof.
  induction roots as [| root rest IH]; intros H; cbn [try_roots] in H;
    [discriminate |].
  destruct (match_chord_types root (relative_intervals uniqueNotes root)
                              CHORD_TYPES) as [r' |] eqn:E.
  - injection H as <-.
    destruct (match_chord_types_found _ _ _ _ E) as (t & d & Hin & Hm & Hr).
    exists root, t, d. split; [now left |]. repeat split; assumption.
  - destruct (IH H) as (root' & t & d & Hin & Hc & Hm & Hr).
    exists root', t, d. split; [now right |]. repeat split; assumption.
Qed.

Lemma relative_intervals_bounded (uniqueNotes : list string) (root : string) :
  Forall (fun i => 0 <= i <= 11) (relative_intervals uniqueNotes root).
Proof.
  unfold relative_intervals. apply Forall_forall. intros i Hi.
  apply (Permutation_in _ (sort_perm _ ascending _)) in Hi.
  apply in_map_iff in Hi. destruct Hi as (n & <- & _).
  pose proof (noteToIndex_bounds n). pose proof (noteToIndex_bounds root).
  pose proof (Z.rem_bound_pos (noteToIndex n - noteToIndex root + 12) 12
                ltac:(lia) ltac:(lia)).
  lia.
Qed.

(** X11.  Chords with a ninth are never recognized: the offsets compared are
    reduced into one octave, so that whatever notes are supplied, an
    identified chord has all its template offsets between 0 and 11 and
    is none of add9, minor9 and major9. *)
Theorem identifyChord_never_extended (notes : list note_input)
  (c : chord_result) (confidence : Q) :
  identifyChord notes = Return (Identified (Some c) confidence) ->
  Forall (fun i => 0 <= i <= 11) (cr_intervals c)
  /\ ~ In (cr_type c) ["add9"; "minor9"; "major9"].
Proof.
  unfold identifyChord.
  destruct (Z.of_nat (length (chord_unique_notes notes)) <? 2);
    [discriminate |].
  destruct (try_roots (chord_unique_notes notes) (chord_unique_notes notes))
    as [r |] eqn:E; [| discriminate].
  destruct (try_roots_found _ _ _ E) as (root & type & data & _ & Hin & Hm & ->).
  pose proof (CHORD_TYPES_In_own _ _ Hin) as Ho.
  unfold buildChord. rewrite (own_get _ _ _ Ho). cbn [bind].
  intros [= <- _]. cbn [cr_intervals cr_type].
  assert (Hb : Forall (fun i => 0 <= i <= 11) (ch_intervals data)).
  { apply same_json_eq in Hm.
    apply Forall_forall. intros i Hi.
    apply (Permutation_in _ (Permutation_sym (sort_perm _ ascending _)))
      in Hi.
    unfold chord_matches in Hm. rewrite <- Hm in Hi.
    pose proof (relative_intervals_bounded (chord_unique_notes notes) root)
      as Hr.
    rewrite Forall_forall in Hr. now apply Hr. }
  split; [exact Hb |].
  intros Hext. simpl in Hin, Hext.
  repeat (destruct Hin as [[= <- <-] | Hin];
          [first
             [ now (repeat (destruct Hext as [Hext | Hext];
                            [discriminate Hext |]))
             | simpl in Hb;
               repeat (apply Forall_cons_iff in Hb;
                       destruct Hb as [? Hb]);
               lia ] |]).
  destruct Hin.
Qed.

Lemma identifyChord_never_extended_witness :
  exists c,
    identifyChord [ByName "A"; ByName "C"; ByName "E"; ByName "G"]
    = Return (Identified (Some c) 1)
    /\ Forall (fun i => 0 <= i <= 11) (cr_intervals c)
    /\ ~ In (cr_type c) ["add9"; "minor9"; "major9"].
Proof.
  eexists. split; [reflexivity |].
  apply (identifyChord_never_extended
           [ByName "A"; ByName "C"; ByName "E"; ByName "G"] _ 1).
  reflexivity.
Defined.

(** What this means for the ninth chords the engine itself builds: the
    notes of C add9 come back unidentified. *)
Remark identifyChord_add9_unknown :
  exists c,
    buildChord "C" "add9" = Return (Some c)
    /\ identifyChord (map ByName (cr_notes c))
       = Return (Unidentified ["C"; "E"; "G"; "D"] "Unknown" 0).
Proof. eexists. split; reflexivity. Qed.

Ltac built_chord_identified :=
  match goal with
  | |- exists c', ?call = _ /\ _ =>
      let v := eval vm_compute in call in
      match v with
      | Return (Identified (Some ?c') _) =>
          exists c'; split; [vm_compute; reflexivity |];
          repeat split; vm_compute; reflexivity
      end
  end.

(** X12.  Build, then identify: for a recognized root and any registered chord
    type whose offsets stay below 12, the notes [buildChord] produces are
    identified, with confidence 1, as the chord of the same type on the
    sharp spelling of the root, with the same notes and frequencies. *)
Theorem identifyChord_of_built_chord (root chordType : string)
  (chord : chord_entry) (c : chord_result) :
  recognized root ->
  own CHORD_TYPES chordType = Some chord ->
  Forall (fun offset => offset < 12) (ch_intervals chord) ->
  buildChord root chordType = Return (Some c) ->
  exists c',
    identifyChord (map ByName (cr_notes c)) = Return (Identified (Some c') 1)
    /\ cr_type c' = chordType
    /\ cr_root c' = indexToNote (noteToIndex root) false
    /\ cr_notes c' = cr_notes c
    /\ cr_frequencies c' = cr_frequencies c.
Proof.
  intros Hroot Hown Hlt Hb. unfold buildChord in Hb.
  rewrite (own_get _ _ _ Hown) in Hb. injection Hb as <-.
  cbn [cr_notes cr_frequencies].
  apply own_Some_In in Hown. simpl in Hown.
  assert (Hc : 0 <= noteToIndex root < 12)
    by (pose proof (noteToIndex_recognized root Hroot); lia).
  apply residue_cases in Hc.
  repeat (destruct Hown as [[= <- <-] | Hown];
          [first
             [ exfalso; simpl in Hlt;
               repeat (apply Forall_cons_iff in Hlt;
                       destruct Hlt as [? Hlt]);
               lia
             | repeat (destruct Hc as [Hc | Hc];
                       [rewrite Hc; built_chord_identified |]);
               rewrite Hc; built_chord_identified ] |]).
  destruct Hown.
Qed.

Lemma identifyChord_of_built_chord_witness :
  exists c c',
    buildChord "Bb" "minor7" = Return (Some c)
    /\ identifyChord (map ByName (cr_notes c))
       = Return (Identified (Some c') 1)
    /\ cr_type c' = "minor7"
    /\ cr_root c' = "A#".
Proof.
  eexists.
  destruct (identifyChord_of_built_chord "Bb" "minor7" _ _
              ltac:(right; simpl; tauto) eq_refl
              ltac:(simpl; repeat constructor; lia) eq_refl)
    as (c' & Hi & Ht & Hr & _).
  exists c'. split; [reflexivity |].
  split; [exact Hi |]. split; [exact Ht | exact Hr].
Defined.

(* ------------------------------------------------------------------ *)
(** ** Further properties: progressions *)
(* ------------------------------------------------------------------ *)

Lemma mapi_from_nth_error {A B : Type} (f : A -> Z -> B) (l : list A)
  (i : Z) (k : nat) :
  nth_error (mapi_from i f l) k
  = option_map (fun x => f x (i + Z.of_nat k)) (nth_error l k).
Proof.
  revert i k. induction l as [| x t IH]; intros i k.
  - destruct k; reflexivity.
  - destruct k as [| k]; cbn [mapi_from nth_error option_map].
    + now rewrite Z.add_0_r.
    + rewrite IH. destruct (nth_error t k); cbn [option_map];
        [do 2 f_equal; lia | reflexivity].
Qed.

Lemma mapi_from_same_length {A B : Type} (f : A -> Z -> B) (l : list A)
  (i : Z) :
  length (mapi_from i f l) = length l.
Proof.
  revert i. induction l as [| x t IH]; intros i; [reflexivity |].
  cbn [mapi_from length]. now rewrite IH.
Qed.

Lemma Forall2_nth_error_r {A B : Type} (P : A -> B -> Prop) (l : list A)
  (l' : list B) (k : nat) (y : B) :
  Forall2 P l l' -> nth_error l' k = Some y ->
  exists x, nth_error l k = Some x /\ P x y.
Proof.
  intros H. revert k. induction H as [| a b t t' Hab _ IH]; intros k Hk.
  - destruct k; discriminate Hk.
  - destruct k as [| k]; cbn [nth_error] in *.
    + injection Hk as <-. exists a. now split.
    + now apply IH.
Qed.

Lemma pattern_triads_registered (scaleType : string)
  (pattern : diatonic_pattern) :
  own DIATONIC_PATTERNS scaleType = Some pattern ->
  exists scale,
    own SCALES scaleType = Some scale
    /\ length (sc_intervals scale) = 7%nat
    /\ forall k, (k < 7)%nat ->
                 exists t ch,
                   nth_error (triads pattern) k = Some t
                   /\ own CHORD_TYPES t = Some ch.
Proof.
  intros Hp. apply own_Some_In in Hp. simpl in Hp.
  repeat (destruct Hp as [[= <- <-] | Hp];
          [eexists; split; [reflexivity |]; split; [reflexivity |];
           intros k Hk;
           do 7 (destruct k as [| k];
                 [do 2 eexists; split; reflexivity |]);
           lia |]).
  destruct Hp.
Qed.

(** The triads of a key with a registered pattern: seven entries,
    numbered from 1, each with its chord. *)
Lemma diatonic_triads (root scaleType : string) (pattern : diatonic_pattern) :
  own DIATONIC_PATTERNS scaleType = Some pattern ->
  exists entries,
    getDiatonicChords root scaleType false = Return (Some entries)
    /\ length entries = 7%nat
    /\ forall k e,
         nth_error entries k = Some e ->
         de_degree e = Z.of_nat k + 1
         /\ exists c, de_chord e = Some c.
Proof.
  intros Hp.
  destruct (pattern_triads_registered _ _ Hp) as (scale & Hs & Hlen & Ht).
  unfold getDiatonicChords, getScaleNotes.
  rewrite (own_get _ _ _ Hp), (own_get _ _ _ Hs). cbn [bind sr_notes].
  set (notes := map _ (sc_intervals scale)).
  assert (Hnotes : length notes = 7%nat)
    by (unfold notes; now rewrite length_map).
  match goal with
  | |- exists _, (bind (mapM ?f _) _) = _ /\ _ =>
      destruct (mapM_Forall2 f
                  (fun ni e =>
                     de_degree e = snd ni + 1
                     /\ exists c, de_chord e = Some c)
                  (indexed notes)) as (entries & He & HF)
  end.
  { intros [note i] Hin. apply In_nth_error in Hin. destruct Hin as [k Hk].
    unfold indexed in Hk. rewrite mapi_from_nth_error in Hk.
    destruct (nth_error notes k) as [n |] eqn:En; [| discriminate Hk].
    injection Hk as Hn Hi. subst n.
    assert (Hk7 : (k < 7)%nat)
      by (rewrite <- Hnotes; apply nth_error_Some; now rewrite En).
    destruct (Ht k Hk7) as (t & ch & Hnt & Hch).
    cbn [fst snd]. unfold at_index.
    assert (Hz : (i <? 0) = false) by (apply Z.ltb_ge; lia).
    rewrite Hz. replace (Z.to_nat i) with k by lia.
    rewrite Hnt. cbn [chordType_or_default]. unfold buildChord.
    rewrite (own_get _ _ _ Hch). cbn [bind].
    eexists. split; [reflexivity |]. cbn [de_degree de_chord].
    split; [reflexivity | eexists; reflexivity]. }
  exists entries. rewrite He. cbn [bind].
  split; [reflexivity |].
  split.
  { rewrite <- (Forall2_length HF). unfold indexed.
    now rewrite mapi_from_same_length. }
  intros k e Hk.
  destruct (Forall2_nth_error_r _ _ _ _ _ HF Hk) as ([note i] & Hx & Hd & Hc).
  unfold indexed in Hx. rewrite mapi_from_nth_error in Hx.
  destruct (nth_error notes k); [| discriminate Hx].
  injection Hx as _ Hi. cbn [snd] in Hd.
  split; [rewrite Hd; lia | exact Hc].
Qed.

Lemma progression_degrees_in_range (key : string) (p : progression_entry) :
  own PROGRESSIONS key = Some p ->
  Forall (fun degree => 1 <= degree <= 7) (pg_degrees p).
Proof.
  intros H. apply own_Some_In in H. simpl in H.
  repeat (destruct H as [[= <- <-] | H];
          [simpl; repeat constructor; lia |]).
  destruct H.
Qed.

Lemma progression_step_in_range (d : list diatonic_entry) (degree index : Z) :
  length d = 7%nat ->
  (forall k e, nth_error d k = Some e -> de_degree e = Z.of_nat k + 1) ->
  1 <= degree <= 7 ->
  exists e,
    nth_error d (Z.to_nat (degree - 1)) = Some e
    /\ progression_step_of d degree index
       = mkStep (index + 1) degree (de_numeral e) (Some (de_root e))
                (de_chord e) (de_chordType e).
Proof.
  intros Hlen Hdeg Hr.
  destruct (nth_error d (Z.to_nat (degree - 1))) as [e |] eqn:E.
  - exists e. split; [reflexivity |].
    unfold progression_step_of, at_index.
    assert (Hlt : (degree - 1 <? 0) = false) by (apply Z.ltb_ge; lia).
    rewrite Hlt, E. f_equal.
    rewrite (Hdeg _ _ E). lia.
  - apply nth_error_None in E. lia.
Qed.

Lemma mapi_from_Forall2 {A B : Type} (f : A -> Z -> B) (P : A -> B -> Prop)
  (Q : A -> Prop) (l : list A) (i : Z) :
  Forall Q l ->
  (forall x j, Q x -> P x (f x j)) ->
  Forall2 P l (mapi_from i f l).
Proof.
  intros Hl Hf. revert i.
  induction Hl as [| x t Hx _ IH]; intros i; simpl; constructor;
    [now apply Hf | apply IH].
Qed.

Lemma mapi_from_positions {A B : Type} (f : A -> Z -> B) (pos : B -> Z)
  (l : list A) (i : Z) :
  (forall x j, pos (f x j) = j + 1) ->
  map pos (mapi_from i f l)
  = map (fun k => i + Z.of_nat k + 1) (seq 0 (length l)).
Proof.
  intros H. revert i. induction l as [| x t IH]; intros i; [reflexivity |].
  cbn [mapi_from map length seq]. rewrite H, IH. f_equal; [lia |].
  rewrite <- seq_shift, map_map. apply map_ext. intros k. lia.
Qed.

(** X13.  Resolving a progression in a key.  A progression key that is
    neither registered nor inherited from the object prototype gives
    [null], and so does, for a registered progression, a scale type
    that has no diatonic pattern and is not an inherited name.  For a
    registered progression and a scale type with a pattern every degree
    of the template is resolved: the result has one step per degree,
    numbered from 1, and each step carries its degree together with the
    numeral, root and chord of the diatonic entry of that degree; no
    step is left without a chord.  On the inherited names the call
    throws a [TypeError]: for a registered progression when the scale
    type is an inherited name, and for a progression key that is an
    inherited name when the scale type has a pattern or is an inherited
    name itself; with such a key and any other scale type the result is
    [null]. *)
Theorem buildProgression_steps (progressionKey root scaleType : string) :
  (own PROGRESSIONS progressionKey = None ->
   ~ In progressionKey Object_prototype_names ->
   buildProgression progressionKey root scaleType = Return None)
  /\ (forall p,
        own PROGRESSIONS progressionKey = Some p ->
        own DIATONIC_PATTERNS scaleType = None ->
        ~ In scaleType Object_prototype_names ->
        buildProgression progressionKey root scaleType = Return None)
  /\ (forall p pattern,
        own PROGRESSIONS progressionKey = Some p ->
        own DIATONIC_PATTERNS scaleType = Some pattern ->
        exists d steps,
          getDiatonicChords root scaleType false = Return (Some d)
          /\ buildProgression progressionKey root scaleType
             = Return (Some steps)
          /\ map ps_position steps
             = map (fun k => Z.of_nat k + 1) (seq 0 (length (pg_degrees p)))
          /\ Forall2 (fun degree step =>
                        exists e c,
                          nth_error d (Z.to_nat (degree - 1)) = Some e
                          /\ ps_degree step = degree
                          /\ ps_numeral step = de_numeral e
                          /\ ps_root step = Some (de_root e)
                          /\ ps_chord step = Some c
                          /\ de_chord e = Some c)
                     (pg_degrees p) steps)
  /\ (forall p,
        own PROGRESSIONS progressionKey = Some p ->
        In scaleType Object_prototype_names ->
        buildProgression progressionKey root scaleType = Throw TypeError)
  /\ (In progressionKey Object_prototype_names ->
      ((exists pattern, own DIATONIC_PATTERNS scaleType = Some pattern)
       \/ In scaleType Object_prototype_names ->
       buildProgression progressionKey root scaleType = Throw TypeError)
      /\ (own DIATONIC_PATTERNS scaleType = None ->
          ~ In scaleType Object_prototype_names ->
          buildProgression progressionKey root scaleType = Return None)).
Proof.
  split; [| split; [| split; [| split]]].
  - intros H Hn. unfold buildProgression, get.
    now rewrite H, (includes_notin _ _ Hn).
  - intros p Hp Hd Hn. unfold buildProgression.
    rewrite (own_get _ _ _ Hp), (getDiatonicChords_no_pattern _ _ _ Hd Hn).
    reflexivity.
  - intros p pattern Hp Hd.
    destruct (diatonic_triads root scaleType pattern Hd)
      as (d & Hdc & Hlen & Hent).
    exists d. eexists. split; [exact Hdc |].
    unfold buildProgression. rewrite (own_get _ _ _ Hp), Hdc. cbn [bind].
    split; [reflexivity |].
    split.
    + rewrite mapi_from_positions with (pos := ps_position).
      * apply map_ext. intros k. lia.
      * intros degree j. unfold progression_step_of.
        destruct (at_index d (degree - 1)); reflexivity.
    + apply mapi_from_Forall2 with (Q := fun degree => 1 <= degree <= 7);
        [now apply progression_degrees_in_range with progressionKey |].
      intros degree j Hr.
      destruct (progression_step_in_range d degree j Hlen
                  (fun k e H => proj1 (Hent k e H)) Hr) as (e & He & ->).
      destruct (proj2 (Hent _ _ He)) as [c Hc].
      exists e, c. cbn. repeat split; assumption.
  - intros p Hp Hin. unfold buildProgression.
    now rewrite (own_get _ _ _ Hp), (getDiatonicChords_inherited _ _ _ Hin).
  - intros Hk. destruct (inherited_name_reads _ Hk) as (_ & _ & Hg).
    unfold buildProgression. rewrite Hg. split.
    + intros [[pattern Hd] | Hin].
      * destruct (diatonic_triads root scaleType pattern Hd) as (d & Hdc & _).
        now rewrite Hdc.
      * now rewrite (getDiatonicChords_inherited _ _ _ Hin).
    + intros Hd Hn.
      now rewrite (getDiatonicChords_no_pattern _ _ _ Hd Hn).
Qed.

Lemma buildProgression_steps_witness :
  buildProgression "unknown" "A" "naturalMinor" = Return None
  /\ buildProgression "blues12" "A" "lydian" = Return None
  /\ buildProgression "blues12" "A" "constructor" = Throw TypeError
  /\ exists steps,
       buildProgression "blues12" "A" "naturalMinor" = Return (Some steps)
       /\ map ps_position steps = [1; 2; 3; 4; 5; 6; 7; 8; 9; 10; 11; 12].
Proof.
  assert (Hn : forall s, In s ["unknown"; "lydian"] ->
                         ~ In s Object_prototype_names).
  { intros s Hs Hin. simpl in Hs, Hin.
    destruct Hs as [<- | [<- | []]];
      repeat (destruct Hin as [Hin | Hin]; [discriminate Hin |]);
      destruct Hin. }
  split; [| split; [| split]].
  - apply (proj1 (buildProgression_steps "unknown" "A" "naturalMinor"));
      [reflexivity | apply Hn; simpl; tauto].
  - apply (proj1 (proj2 (buildProgression_steps "blues12" "A" "lydian"))
             _ eq_refl eq_refl).
    apply Hn. simpl. tauto.
  - apply (proj1 (proj2 (proj2 (proj2
             (buildProgression_steps "blues12" "A" "constructor"))))
             _ eq_refl).
    simpl. tauto.
  - destruct (proj1 (proj2 (proj2 (buildProgression_steps "blues12" "A"
                                     "naturalMinor"))) _ _ eq_refl eq_refl)
      as (d & steps & _ & Hs & Hp & _).
    exists steps. split; [exact Hs | exact Hp].
Defined.

(* ------------------------------------------------------------------ *)
(** ** Further properties: pivot chords and modulation *)
(* ------------------------------------------------------------------ *)

Lemma pushed_app {A : Type} (l1 l2 : list (option A)) :
  pushed (l1 ++ l2) = (pushed l1 ++ pushed l2)%list.
Proof. unfold pushed. apply flat_map_app. Qed.

Lemma shared_names_cons (a : string) (namesA namesB : list string) :
  shared_names (a :: namesA) namesB
  = (flat_map (fun b => if String.eqb a b then [a] else []) namesB
     ++ shared_names namesA namesB)%list.
Proof. reflexivity. Qed.

(** The pivots found for two lists of diatonic entries that all have a
    chord: the names paired up by [shared_names]. *)
Lemma pivot_names (rootA scaleA rootB scaleB : string)
  (a b : list diatonic_entry) :
  (forall e, In e a -> exists c, de_chord e = Some c) ->
  (forall e, In e b -> exists c, de_chord e = Some c) ->
  exists found,
    mapM (pivot_of rootA scaleA rootB scaleB) (list_prod a b) = Return found
    /\ map pv_chord (pushed found)
       = shared_names (map entry_name a) (map entry_name b).
Proof.
  intros Ha Hb.
  induction a as [| x a IH].
  - exists []. split; reflexivity.
  - destruct IH as (rest & Hrest & Hnames);
      [intros e He; apply Ha; now right |].
    destruct (Ha x (or_introl eq_refl)) as [cx Hcx].
    assert (Hrow : exists row,
      mapM (pivot_of rootA scaleA rootB scaleB) (map (pair x) b) = Return row
      /\ map pv_chord (pushed row)
         = flat_map (fun nb => if String.eqb (entry_name x) nb
                               then [entry_name x] else [])
                    (map entry_name b)).
    { clear Hrest Hnames. induction b as [| y b IHb].
      - exists []. split; reflexivity.
      - destruct IHb as (row & Hrow & Hn);
          [intros e He; apply Hb; now right |].
        destruct (Hb y (or_introl eq_refl)) as [cy Hcy].
        eexists. split.
        + cbn [map mapM]. rewrite Hrow.
          unfold pivot_of at 1, diatonic_chord_name. cbn [fst snd].
          rewrite Hcx, Hcy. cbn [bind]. reflexivity.
        + assert (Ex : entry_name x = cr_name cx)
            by (unfold entry_name; now rewrite Hcx).
          assert (Ey : entry_name y = cr_name cy)
            by (unfold entry_name; now rewrite Hcy).
          cbn [map flat_map]. rewrite Ex, Ey in *.
          destruct (String.eqb (cr_name cx) (cr_name cy));
            unfold pushed in *; cbn [flat_map map app pv_chord];
            now rewrite Hn. }
    destruct Hrow as (row & Hrow & Hrn).
    assert (Happ : forall l1 l2 r1 r2,
      mapM (pivot_of rootA scaleA rootB scaleB) l1 = Return r1 ->
      mapM (pivot_of rootA scaleA rootB scaleB) l2 = Return r2 ->
      mapM (pivot_of rootA scaleA rootB scaleB) (l1 ++ l2)
      = Return (r1 ++ r2)%list).
    { induction l1 as [| z l1 IHl]; intros l2 r1 r2 H1 H2.
      - injection H1 as <-. exact H2.
      - cbn [mapM app] in *.
        destruct (pivot_of rootA scaleA rootB scaleB z) as [o | err];
          [| discriminate H1].
        cbn [bind] in *.
        destruct (mapM (pivot_of rootA scaleA rootB scaleB) l1) as [r |]
          eqn:E; [| discriminate H1].
        cbn [bind] in *. injection H1 as <-.
        now rewrite (IHl l2 r r2 eq_refl H2). }
    exists (row ++ rest)%list. split.
    + cbn [list_prod]. now apply Happ.
    + rewrite pushed_app, map_app, Hrn, Hnames. reflexivity.
Qed.

Lemma shared_names_In (namesA namesB : list string) (n : string) :
  In n (shared_names namesA namesB) <-> In n namesA /\ In n namesB.
Proof.
  unfold shared_names. rewrite in_flat_map. split.
  - intros (a & Ha & H). apply in_flat_map in H.
    destruct H as (b & Hb & H).
    destruct (String.eqb a b) eqn:E; [| destruct H].
    apply String.eqb_eq in E. destruct H as [<- | []]. subst. now split.
  - intros [Ha Hb]. exists n. split; [exact Ha |].
    apply in_flat_map. exists n. split; [exact Hb |].
    rewrite String.eqb_refl. now left.
Qed.

Lemma diatonic_triads_have_chords (root scaleType : string)
  (pattern : diatonic_pattern) (entries : list diatonic_entry) :
  own DIATONIC_PATTERNS scaleType = Some pattern ->
  getDiatonicChords root scaleType false = Return (Some entries) ->
  forall e, In e entries -> exists c, de_chord e = Some c.
Proof.
  intros Hp He e Hin.
  destruct (diatonic_triads root scaleType pattern Hp) as (d & Hd & _ & Hent).
  rewrite Hd in He. injection He as <-.
  apply In_nth_error in Hin. destruct Hin as [k Hk].
  exact (proj2 (Hent _ _ Hk)).
Qed.

(** X14.  Pivot chords are exactly the shared chords.  When neither scale
    type is a name inherited from the object prototype and one of them
    has no diatonic pattern, the result is empty.  When both have a
    pattern, for any two roots, the names of the pivots are the chord
    names that occur among the triads of both keys: none is invented and
    none is missed.  When one of the scale types is an inherited name
    the call throws a [TypeError]. *)
Theorem findPivotChords_shared (rootA scaleA rootB scaleB : string) :
  (~ In scaleA Object_prototype_names ->
   ~ In scaleB Object_prototype_names ->
   own DIATONIC_PATTERNS scaleA = None
   \/ own DIATONIC_PATTERNS scaleB = None ->
   findPivotChords rootA scaleA rootB scaleB = Return [])
  /\ (forall patternA patternB,
        own DIATONIC_PATTERNS scaleA = Some patternA ->
        own DIATONIC_PATTERNS scaleB = Some patternB ->
        exists a b pivots,
          getDiatonicChords rootA scaleA false = Return (Some a)
          /\ getDiatonicChords rootB scaleB false = Return (Some b)
          /\ findPivotChords rootA scaleA rootB scaleB = Return pivots
          /\ map pv_chord pivots
             = shared_names (map entry_name a) (map entry_name b)
          /\ forall n,
               In n (map pv_chord pivots)
               <-> In n (map entry_name a) /\ In n (map entry_name b))
  /\ (In scaleA Object_prototype_names
      \/ In scaleB Object_prototype_names ->
      findPivotChords rootA scaleA rootB scaleB = Throw TypeError).
Proof.
  split; [| split].
  - intros HnA HnB H. unfold findPivotChords.
    destruct (own DIATONIC_PATTERNS scaleA) as [pa |] eqn:EA;
      destruct (own DIATONIC_PATTERNS scaleB) as [pb |] eqn:EB.
    + destruct H as [H | H]; discriminate H.
    + destruct (diatonic_triads rootA scaleA pa EA) as (a & Ha & _).
      rewrite Ha, (getDiatonicChords_no_pattern _ _ _ EB HnB). reflexivity.
    + rewrite (getDiatonicChords_no_pattern _ _ _ EA HnA).
      destruct (diatonic_triads rootB scaleB pb EB) as (b & Hb & _).
      rewrite Hb. reflexivity.
    + rewrite (getDiatonicChords_no_pattern _ _ _ EA HnA),
        (getDiatonicChords_no_pattern _ _ _ EB HnB).
      reflexivity.
  - intros pa pb EA EB.
    destruct (diatonic_triads rootA scaleA pa EA) as (a & Ha & _).
    destruct (diatonic_triads rootB scaleB pb EB) as (b & Hb & _).
    destruct (pivot_names rootA scaleA rootB scaleB a b
                (diatonic_triads_have_chords _ _ _ _ EA Ha)
                (diatonic_triads_have_chords _ _ _ _ EB Hb))
      as (found & Hf & Hn).
    exists a, b, (pushed found).
    split; [exact Ha |]. split; [exact Hb |].
    split; [unfold findPivotChords; rewrite Ha, Hb; cbn [bind];
            now rewrite Hf |].
    split; [exact Hn |].
    intros n. rewrite Hn. apply shared_names_In.
  - intros H. unfold findPivotChords.
    destruct (in_dec string_dec scaleA Object_prototype_names) as [HA | HA];
      [now rewrite (getDiatonicChords_inherited _ _ _ HA) |].
    destruct H as [H | H]; [contradiction |].
    destruct (own DIATONIC_PATTERNS scaleA) as [pa |] eqn:EA.
    + destruct (diatonic_triads rootA scaleA pa EA) as (a & Ha & _).
      now rewrite Ha, (getDiatonicChords_inherited _ _ _ H).
    + now rewrite (getDiatonicChords_no_pattern _ _ _ EA HA),
        (getDiatonicChords_inherited _ _ _ H).
Qed.

Ltac computed_entries :=
  match goal with
  | |- exists entries, ?call = _ /\ _ =>
      let v := eval vm_compute in call in
      match v with
      | Return (Some ?a) =>
          exists a; split; vm_compute; reflexivity
      end
  end.

Lemma findPivotChords_shared_witness :
  findPivotChords "C" "major" "G" "lydian" = Return []
  /\ findPivotChords "C" "major" "C" "toString" = Throw TypeError
  /\ exists pivots,
       findPivotChords "C" "major" "G" "major" = Return pivots
       /\ map pv_chord pivots = ["C"; "Em"; "G"; "Am"].
Proof.
  split; [| split].
  - apply (proj1 (findPivotChords_shared "C" "major" "G" "lydian")).
    + intros H. simpl in H.
      repeat (destruct H as [H | H]; [discriminate H |]). destruct H.
    + intros H. simpl in H.
      repeat (destruct H as [H | H]; [discriminate H |]). destruct H.
    + right. reflexivity.
  - apply (proj2 (proj2 (findPivotChords_shared "C" "major" "C" "toString"))).
    right. simpl. tauto.
  - destruct (proj1 (proj2 (findPivotChords_shared "C" "major" "G" "major"))
                _ _ eq_refl eq_refl)
      as (a & b & pivots & Ha & Hb & Hp & Hn & _).
    exists pivots. split; [exact Hp |].
    rewrite Hn.
    assert (Ea : exists va, getDiatonicChords "C" "major" false
                            = Return (Some va)
                            /\ map entry_name va
                               = ["C"; "Dm"; "Em"; "F"; "G"; "Am"; "Bdim"])
      by computed_entries.
    assert (Eb : exists vb, getDiatonicChords "G" "major" false
                            = Return (Some vb)
                            /\ map entry_name vb
                               = ["G"; "Am"; "Bm"; "C"; "D"; "Em"; "F#dim"])
      by computed_entries.
    destruct Ea as (va & Ea & Na). destruct Eb as (vb & Eb & Nb).
    rewrite Ea in Ha. rewrite Eb in Hb.
    injection Ha as <-. injection Hb as <-.
    rewrite Na, Nb. reflexivity.
Defined.

Lemma flat_map_split_perm {A B : Type} (f g : A -> list B) (l : list A) :
  Permutation (flat_map (fun x => f x ++ g x)%list l)
              (flat_map f l ++ flat_map g l).
Proof.
  induction l as [| x t IH]; [constructor |].
  cbn [flat_map]. rewrite <- !app_assoc. apply Permutation_app_head.
  rewrite IH, !app_assoc. apply Permutation_app_tail, Permutation_app_comm.
Qed.

Lemma shared_names_nil_r (names : list string) : shared_names names [] = [].
Proof. induction names as [| a t IH]; [reflexivity | exact IH]. Qed.

Lemma shared_names_cons_r (a : string) (namesA namesB : list string) :
  Permutation (shared_names namesB (a :: namesA))
              (flat_map (fun b => if String.eqb a b then [a] else []) namesB
               ++ shared_names namesB namesA).
Proof.
  unfold shared_names. cbn [flat_map].
  rewrite flat_map_split_perm. apply Permutation_app_tail.
  replace (flat_map (fun b => if String.eqb b a then [b] else []) namesB)
    with (flat_map (fun b => if String.eqb a b then [a] else []) namesB);
    [reflexivity |].
  apply flat_map_ext. intros b. rewrite (String.eqb_sym b a).
  destruct (String.eqb a b) eqn:E; [| reflexivity].
  apply String.eqb_eq in E. now subst.
Qed.

Lemma shared_names_sym (namesA namesB : list string) :
  Permutation (shared_names namesA namesB) (shared_names namesB namesA).
Proof.
  induction namesA as [| a t IH].
  - rewrite shared_names_nil_r. constructor.
  - rewrite shared_names_cons, shared_names_cons_r.
    now apply Permutation_app_head.
Qed.

Lemma findPivotChords_symmetric_pivots (rootA scaleA rootB scaleB : string)
  (patternA patternB : diatonic_pattern) :
  own DIATONIC_PATTERNS scaleA = Some patternA ->
  own DIATONIC_PATTERNS scaleB = Some patternB ->
  exists there back,
    findPivotChords rootA scaleA rootB scaleB = Return there
    /\ findPivotChords rootB scaleB rootA scaleA = Return back
    /\ length there = length back.
Proof.
  intros EA EB.
  destruct (diatonic_triads rootA scaleA patternA EA) as (a & Ha & _).
  destruct (diatonic_triads rootB scaleB patternB EB) as (b & Hb & _).
  pose proof (diatonic_triads_have_chords _ _ _ _ EA Ha) as Ca.
  pose proof (diatonic_triads_have_chords _ _ _ _ EB Hb) as Cb.
  destruct (pivot_names rootA scaleA rootB scaleB a b Ca Cb)
    as (f1 & Hf1 & Hn1).
  destruct (pivot_names rootB scaleB rootA scaleA b a Cb Ca)
    as (f2 & Hf2 & Hn2).
  exists (pushed f1), (pushed f2).
  split; [unfold findPivotChords; rewrite Ha, Hb; cbn [bind];
          now rewrite Hf1 |].
  split; [unfold findPivotChords; rewrite Ha, Hb; cbn [bind];
          now rewrite Hf2 |].
  rewrite <- (length_map pv_chord (pushed f1)),
    <- (length_map pv_chord (pushed f2)), Hn1, Hn2.
  apply Permutation_length, shared_names_sym.
Qed.

(** X15.  Pivot search is symmetric: exchanging the two keys gives the same
    pivot chords, each as many times, possibly in another order. *)
Theorem findPivotChords_symmetric (rootA scaleA rootB scaleB : string)
  (patternA patternB : diatonic_pattern) :
  own DIATONIC_PATTERNS scaleA = Some patternA ->
  own DIATONIC_PATTERNS scaleB = Some patternB ->
  exists there back,
    findPivotChords rootA scaleA rootB scaleB = Return there
    /\ findPivotChords rootB scaleB rootA scaleA = Return back
    /\ Permutation (map pv_chord there) (map pv_chord back)
    /\ length there = length back.
Proof.
  intros EA EB.
  destruct (diatonic_triads rootA scaleA patternA EA) as (a & Ha & _).
  destruct (diatonic_triads rootB scaleB patternB EB) as (b & Hb & _).
  pose proof (diatonic_triads_have_chords _ _ _ _ EA Ha) as Ca.
  pose proof (diatonic_triads_have_chords _ _ _ _ EB Hb) as Cb.
  destruct (pivot_names rootA scaleA rootB scaleB a b Ca Cb)
    as (f1 & Hf1 & Hn1).
  destruct (pivot_names rootB scaleB rootA scaleA b a Cb Ca)
    as (f2 & Hf2 & Hn2).
  exists (pushed f1), (pushed f2).
  assert (Hperm : Permutation (map pv_chord (pushed f1))
                              (map pv_chord (pushed f2)))
    by (rewrite Hn1, Hn2; apply shared_names_sym).
  split; [unfold findPivotChords; rewrite Ha, Hb; cbn [bind];
          now rewrite Hf1 |].
  split; [unfold findPivotChords; rewrite Ha, Hb; cbn [bind];
          now rewrite Hf2 |].
  split; [exact Hperm |].
  apply Permutation_length in Hperm. now rewrite !length_map in Hperm.
Qed.

Lemma findPivotChords_symmetric_witness :
  exists there back,
    findPivotChords "C" "major" "D" "dorian" = Return there
    /\ findPivotChords "D" "dorian" "C" "major" = Return back
    /\ Permutation (map pv_chord there) (map pv_chord back)
    /\ length there = length back.
Proof.
  apply (findPivotChords_symmetric "C" "major" "D" "dorian" _ _
           eq_refl eq_refl).
Defined.

Lemma flat_map_ext_on {A B : Type} (f g : A -> list B) (l : list A) :
  (forall x, In x l -> f x = g x) -> flat_map f l = flat_map g l.
Proof.
  induction l as [| x t IH]; intros H; [reflexivity |].
  cbn [flat_map]. rewrite (H x (or_introl eq_refl)), IH; [reflexivity |].
  intros y Hy. apply H. now right.
Qed.

Lemma no_shared_name (a : string) (names : list string) :
  ~ In a names ->
  flat_map (fun b => if String.eqb a b then [a] else []) names = [].
Proof.
  induction names as [| b t IH]; intros H; [reflexivity |].
  cbn [flat_map]. destruct (String.eqb a b) eqn:E.
  - apply String.eqb_eq in E. subst. exfalso. apply H. now left.
  - apply IH. intros Hin. apply H. now right.
Qed.

Lemma shared_names_self (names : list string) :
  NoDup names -> shared_names names names = names.
Proof.
  induction 1 as [| a t Ha Hnd IH]; [reflexivity |].
  rewrite shared_names_cons. cbn [flat_map]. rewrite String.eqb_refl.
  rewrite (no_shared_name a t Ha). cbn [app]. f_equal.
  rewrite <- IH at 3. unfold shared_names.
  apply flat_map_ext_on. intros x Hx. cbn [flat_map].
  destruct (String.eqb x a) eqn:E; [| reflexivity].
  apply String.eqb_eq in E. subst. contradiction.
Qed.

Lemma diatonic_names_distinct_at (r scaleType : string)
  (pattern : diatonic_pattern) :
  In r index_representatives ->
  own DIATONIC_PATTERNS scaleType = Some pattern ->
  exists entries,
    getDiatonicChords r scaleType false = Return (Some entries)
    /\ nodupb (map entry_name entries) = true.
Proof.
  intros Hr Hp. apply own_Some_In in Hp. simpl in Hp, Hr.
  repeat (destruct Hp as [[= <- <-] | Hp];
          [repeat (destruct Hr as [<- | Hr]; [computed_entries |]);
           destruct Hr |]).
  destruct Hp.
Qed.

(** X16.  A key shares every chord with itself and nothing else: for any root
    and any scale type with a pattern, the pivots between the key and
    itself are its seven triads, each once, in order of degree. *)
Theorem findPivotChords_same_key (root scaleType : string)
  (pattern : diatonic_pattern) :
  own DIATONIC_PATTERNS scaleType = Some pattern ->
  exists entries pivots,
    getDiatonicChords root scaleType false = Return (Some entries)
    /\ findPivotChords root scaleType root scaleType = Return pivots
    /\ map pv_chord pivots = map entry_name entries
    /\ length pivots = 7%nat.
Proof.
  intros Hp.
  destruct (index_representative root) as (r & Hr & E).
  destruct (diatonic_names_distinct_at r scaleType pattern Hr Hp)
    as (entries & He & Hnd).
  rewrite (getDiatonicChords_same_index r root _ _ E) in He.
  destruct (diatonic_triads root scaleType pattern Hp)
    as (d & Hd & Hlen & _).
  rewrite Hd in He. injection He as ->.
  pose proof (diatonic_triads_have_chords _ _ _ _ Hp Hd) as Hc.
  destruct (pivot_names root scaleType root scaleType entries entries Hc Hc)
    as (found & Hf & Hn).
  exists entries, (pushed found).
  split; [exact Hd |].
  split; [unfold findPivotChords; rewrite Hd; cbn [bind]; now rewrite Hf |].
  rewrite (shared_names_self _ (nodupb_NoDup _ Hnd)) in Hn.
  split; [exact Hn |].
  rewrite <- (length_map pv_chord), Hn, length_map. exact Hlen.
Qed.

Lemma findPivotChords_same_key_witness :
  exists entries pivots,
    getDiatonicChords "F#" "harmonicMinor" false = Return (Some entries)
    /\ findPivotChords "F#" "harmonicMinor" "F#" "harmonicMinor"
       = Return pivots
    /\ map pv_chord pivots = map entry_name entries
    /\ length pivots = 7%nat.
Proof.
  apply (findPivotChords_same_key "F#" "harmonicMinor" _ eq_refl).
Defined.

Ltac relative_keys_case :=
  match goal with
  | |- exists a b c, ?ga = _ /\ ?gb = _ /\ ?gc = _ /\ _ =>
      let va := eval vm_compute in ga in
      let vb := eval vm_compute in gb in
      let vc := eval vm_compute in gc in
      match constr:((va, vb, vc)) with
      | (Return (Some ?a), Return (Some ?b), Return (Some ?c)) =>
          exists a, b, c; repeat split; vm_compute; reflexivity
      end
  end.

Lemma relative_keys_at (r : string) :
  In r index_representatives ->
  exists a b c,
    getDiatonicChords r "major" false = Return (Some a)
    /\ getDiatonicChords (indexToNote (noteToIndex r + 9) false)
                         "naturalMinor" false = Return (Some b)
    /\ getDiatonicChords (indexToNote (noteToIndex r + 2) false)
                         "dorian" false = Return (Some c)
    /\ shared_names (map entry_name a) (map entry_name b) = map entry_name a
    /\ shared_names (map entry_name a) (map entry_name c) = map entry_name a.
Proof.
  intros Hr. simpl in Hr.
  repeat (destruct Hr as [<- | Hr]; [relative_keys_case |]).
  destruct Hr.
Qed.

(** X17.  Relative keys share all their chords: for any root, every triad of
    the major key is a pivot towards the natural minor key nine
    semitones above it, and towards the dorian key two semitones above
    it; the pivots are the seven triads of the major key in order. *)
Theorem findPivotChords_relative_keys (root : string) :
  exists entries toMinor toDorian,
    getDiatonicChords root "major" false = Return (Some entries)
    /\ findPivotChords root "major"
         (indexToNote (noteToIndex root + 9) false) "naturalMinor"
       = Return toMinor
    /\ findPivotChords root "major"
         (indexToNote (noteToIndex root + 2) false) "dorian"
       = Return toDorian
    /\ map pv_chord toMinor = map entry_name entries
    /\ map pv_chord toDorian = map entry_name entries
    /\ length entries = 7%nat.
Proof.
  destruct (index_representative root) as (r & Hr & E).
  destruct (relative_keys_at r Hr) as (a & b & c & Ha & Hb & Hc & Hab & Hac).
  rewrite E in Hb, Hc.
  rewrite (getDiatonicChords_same_index r root _ _ E) in Ha.
  pose proof (diatonic_triads_have_chords root "major" _ _ eq_refl Ha) as Ca.
  pose proof (diatonic_triads_have_chords _ "naturalMinor" _ _ eq_refl Hb)
    as Cb.
  pose proof (diatonic_triads_have_chords _ "dorian" _ _ eq_refl Hc) as Cc.
  destruct (pivot_names root "major"
              (indexToNote (noteToIndex root + 9) false) "naturalMinor"
              a b Ca Cb) as (f1 & Hf1 & Hn1).
  destruct (pivot_names root "major"
              (indexToNote (noteToIndex root + 2) false) "dorian"
              a c Ca Cc) as (f2 & Hf2 & Hn2).
  exists a, (pushed f1), (pushed f2).
  split; [exact Ha |].
  split; [unfold findPivotChords; rewrite Ha, Hb; cbn [bind];
          now rewrite Hf1 |].
  split; [unfold findPivotChords; rewrite Ha, Hc; cbn [bind];
          now rewrite Hf2 |].
  split; [now rewrite Hn1 |]. split; [now rewrite Hn2 |].
  destruct (diatonic_triads root "major" _ eq_refl) as (d & Hd & Hlen & _).
  rewrite Hd in Ha. injection Ha as <-. exact Hlen.
Qed.

Lemma getModulationTechniques_bounds (semitones : Z) :
  (2 <= length (getModulationTechniques semitones) <= 4)%nat
  /\ firstn 2 (getModulationTechniques semitones)
     = [ "Use a pivot chord shared by both keys";
         "Use a ii-V-I in the new key" ].
Proof.
  unfold getModulationTechniques.
  destruct (semitones =? 1) eqn:E1; destruct (semitones =? 11) eqn:E11;
    destruct (semitones =? 7) eqn:E7; destruct (semitones =? 5) eqn:E5;
    cbn [orb app length firstn];
    try (split; [lia | reflexivity]);
    exfalso;
    repeat match goal with
           | H : (_ =? _) = true |- _ => apply Z.eqb_eq in H
           end;
    lia.
Qed.

Lemma getKeyRelationship_parallel (d : Z) (fromScale toScale : string) :
  0 <= d < 12 ->
  getKeyRelationship d fromScale toScale
  = "Parallel (same root, different mode)"
  <-> d = 0 /\ fromScale <> toScale.
Proof.
  intros Hd. unfold getKeyRelationship. apply residue_cases in Hd.
  destruct (String.eqb fromScale toScale) eqn:E.
  - apply String.eqb_eq in E.
    repeat (destruct Hd as [-> | Hd];
            [split; [discriminate | intros [_ H]; contradiction] |]).
    rewrite Hd. split; [discriminate | intros [_ H]; contradiction].
  - apply String.eqb_neq in E.
    destruct Hd as [-> | Hd]; [split; [intros _; now split | reflexivity] |].
    repeat (destruct Hd as [-> | Hd];
            [split; [discriminate | intros [H _]; discriminate H] |]).
    rewrite Hd. split; [discriminate | intros [H _]; discriminate H].
Qed.

(** X18.  The summary [suggestModulation] gives whenever the pivot search
    returns: the distance is the difference of the root indices modulo
    12, between 0 and 11; at most three pivots are kept, the first ones
    found; the relationship is called parallel exactly when the distance
    is 0 and the scale types differ; and between two and four techniques
    are listed, the two general ones first. *)
Theorem suggestModulation_summary
  (fromRoot fromScale toRoot toScale : string) (pivots : list pivot) :
  findPivotChords fromRoot fromScale toRoot toScale = Return pivots ->
  exists m,
    suggestModulation fromRoot fromScale toRoot toScale = Return m
    /\ md_semitoneDistance m
       = (noteToIndex toRoot - noteToIndex fromRoot) mod 12
    /\ 0 <= md_semitoneDistance m <= 11
    /\ md_pivotChords m = firstn 3 pivots
    /\ (length (md_pivotChords m) <= 3)%nat
    /\ (md_relationship m = "Parallel (same root, different mode)"
        <-> md_semitoneDistance m = 0 /\ fromScale <> toScale)
    /\ (2 <= length (md_techniques m) <= 4)%nat
    /\ firstn 2 (md_techniques m)
       = [ "Use a pivot chord shared by both keys";
           "Use a ii-V-I in the new key" ].
Proof.
  intros H. unfold suggestModulation. rewrite H. cbn [bind].
  eexists. split; [reflexivity |].
  cbn [md_semitoneDistance md_pivotChords md_relationship md_techniques].
  assert (E : Z.rem (noteToIndex toRoot - noteToIndex fromRoot + 12) 12
              = (noteToIndex toRoot - noteToIndex fromRoot) mod 12).
  { pose proof (noteToIndex_bounds fromRoot).
    pose proof (noteToIndex_bounds toRoot).
    rewrite Z.rem_mod_nonneg by lia.
    replace (noteToIndex toRoot - noteToIndex fromRoot + 12)
      with (noteToIndex toRoot - noteToIndex fromRoot + 1 * 12) by lia.
    now rewrite Z.mod_add by lia. }
  rewrite E.
  pose proof (Z.mod_pos_bound (noteToIndex toRoot - noteToIndex fromRoot) 12
                ltac:(lia)) as Hb.
  split; [reflexivity |]. split; [lia |]. split; [reflexivity |].
  split; [apply firstn_le_length |].
  split; [apply getKeyRelationship_parallel; lia |].
  apply getModulationTechniques_bounds.
Qed.

Lemma suggestModulation_summary_witness :
  exists m,
    suggestModulation "C" "major" "G" "major" = Return m
    /\ md_semitoneDistance m = 7
    /\ (length (md_pivotChords m) <= 3)%nat.
Proof.
  let v := eval vm_compute in (findPivotChords "C" "major" "G" "major") in
  match v with
  | Return ?p =>
      assert (H : findPivotChords "C" "major" "G" "major" = Return p)
        by (vm_compute; reflexivity)
  end.
  destruct (suggestModulation_summary "C" "major" "G" "major" _ H)
    as (m & Hm & Hd & _ & _ & Hl & _).
  exists m. split; [exact Hm |]. split; [rewrite Hd; reflexivity | exact Hl].
Defined.

Lemma getKeyRelationship_reverse (d : Z) (fromScale toScale : string) :
  0 <= d < 12 ->
  getKeyRelationship d fromScale toScale
  = getKeyRelationship ((12 - d) mod 12) toScale fromScale
  \/ d = 4 \/ d = 8.
Proof.
  intros Hd. apply residue_cases in Hd. unfold getKeyRelationship.
  rewrite (String.eqb_sym toScale fromScale).
  destruct (String.eqb fromScale toScale);
    repeat (destruct Hd as [-> | Hd];
            [first [left; reflexivity | right; lia] |]);
    rewrite Hd; first [left; reflexivity | right; lia].
Qed.

(** X19.  There and back: for two keys with diatonic patterns, the suggestion
    from the first to the second and the one from the second to the
    first have distances that add up to a multiple of 12, keep equally
    many pivot chords, and name the relationship alike, unless the keys
    are 4 and 8 semitones apart, where the label states the count. *)
Theorem suggestModulation_reverse
  (rootA scaleA rootB scaleB : string)
  (patternA patternB : diatonic_pattern) :
  own DIATONIC_PATTERNS scaleA = Some patternA ->
  own DIATONIC_PATTERNS scaleB = Some patternB ->
  exists there back,
    suggestModulation rootA scaleA rootB scaleB = Return there
    /\ suggestModulation rootB scaleB rootA scaleA = Return back
    /\ (md_semitoneDistance there + md_semitoneDistance back) mod 12 = 0
    /\ length (md_pivotChords there) = length (md_pivotChords back)
    /\ (md_relationship there = md_relationship back
        \/ md_semitoneDistance there = 4
        \/ md_semitoneDistance there = 8).
Proof.
  intros EA EB.
  destruct (findPivotChords_symmetric_pivots rootA scaleA rootB scaleB
              patternA patternB EA EB) as (p1 & p2 & H1 & H2 & Hlen).
  unfold suggestModulation. rewrite H1, H2. cbn [bind].
  do 2 eexists. split; [reflexivity |]. split; [reflexivity |].
  cbn [md_semitoneDistance md_pivotChords md_relationship].
  pose proof (noteToIndex_bounds rootA) as Ba.
  pose proof (noteToIndex_bounds rootB) as Bb.
  assert (E : forall x y, -1 <= x <= 11 -> -1 <= y <= 11 ->
                          Z.rem (y - x + 12) 12 = (y - x) mod 12).
  { intros x y Hx Hy. rewrite Z.rem_mod_nonneg by lia.
    replace (y - x + 12) with (y - x + 1 * 12) by lia.
    now rewrite Z.mod_add by lia. }
  rewrite !E by assumption.
  split.
  { rewrite <- Zplus_mod.
    replace (noteToIndex rootB - noteToIndex rootA
             + (noteToIndex rootA - noteToIndex rootB)) with 0 by lia.
    reflexivity. }
  split.
  { rewrite !length_firstn, Hlen. reflexivity. }
  pose proof (Z.mod_pos_bound (noteToIndex rootB - noteToIndex rootA) 12
                ltac:(lia)) as Hb.
  destruct (getKeyRelationship_reverse
              ((noteToIndex rootB - noteToIndex rootA) mod 12)
              scaleA scaleB Hb) as [Hr | Hr]; [left | right; exact Hr].
  rewrite Hr. f_equal.
  rewrite Zminus_mod_idemp_r.
  replace (12 - (noteToIndex rootB - noteToIndex rootA))
    with (noteToIndex rootA - noteToIndex rootB + 1 * 12) by lia.
  apply Z.mod_add. lia.
Qed.

Lemma suggestModulation_reverse_witness :
  exists there back,
    suggestModulation "C" "major" "A" "naturalMinor" = Return there
    /\ suggestModulation "A" "naturalMinor" "C" "major" = Return back
    /\ (md_semitoneDistance there + md_semitoneDistance back) mod 12 = 0
    /\ length (md_pivotChords there) = length (md_pivotChords back).
Proof.
  destruct (suggestModulation_reverse "C" "major" "A" "naturalMinor" _ _
              eq_refl eq_refl) as (t & b & Ht & Hb & Hd & Hl & _).
  exists t, b. repeat split; assumption.
Defined.

(* ------------------------------------------------------------------ *)
(** ** Further properties: key detection *)
(* ------------------------------------------------------------------ *)

Lemma filter_length_le {A : Type} (f : A -> bool) (l : list A) :
  (length (filter f l) <= length l)%nat.
Proof.
  induction l as [| x t IH]; [constructor |].
  simpl. destruct (f x); simpl; lia.
Qed.

Lemma raw_score_bounds (sc : scale_result) (uniqueNotes : list string) :
  (2 <= length uniqueNotes)%nat ->
  positive (raw_score sc uniqueNotes) = true ->
  (0 < raw_score sc uniqueNotes <= 1)%Q
  /\ 2 * Z.of_nat (length uniqueNotes) < 3 * matched_in sc uniqueNotes
  /\ matched_in sc uniqueNotes <= Z.of_nat (length uniqueNotes).
Proof.
  intros Hlen Hpos.
  assert (Hm : 0 <= matched_in sc uniqueNotes <= Z.of_nat (length uniqueNotes)).
  { unfold matched_in.
    pose proof (filter_length_le (includes (sr_notes sc)) uniqueNotes). lia. }
  pose proof (proj1 (positive_spec _) Hpos) as Hq.
  unfold raw_score in *.
  set (m := matched_in sc uniqueNotes) in *.
  destruct (Z.of_nat (length uniqueNotes)) as [| t | t] eqn:Et; try lia.
  unfold positive, Qdiv, Qmult, Qinv, inject_Z, Qle, Qlt in *.
  cbn [Qnum Qden] in *. repeat split; lia.
Qed.

(** Every candidate [detectKey] returns is the object pushed for one of
    the 48 pairs. *)
Lemma detectKey_result_shape (roundedMidi : Q -> option Z)
  (notes : list note_input) (results : list key_candidate) :
  detectKey roundedMidi notes = Return results ->
  forall k,
    In k results ->
    exists root scaleType sc,
      In (root, scaleType) key_candidates
      /\ getScaleNotes root scaleType = Return (Some sc)
      /\ positive (raw_score sc (key_unique_notes roundedMidi notes)) = true
      /\ (2 <= length (key_unique_notes roundedMidi notes))%nat
      /\ k = mkCandidate
               (root ++ " " ++ sr_name sc) root scaleType
               (raw_score sc (key_unique_notes roundedMidi notes))
               (matched_in sc (key_unique_notes roundedMidi notes))
               (Z.of_nat (length (key_unique_notes roundedMidi notes))).
Proof.
  unfold detectKey.
  set (uniqueNotes := key_unique_notes roundedMidi notes).
  destruct (Z.of_nat (length uniqueNotes) <? 2) eqn:E.
  - intros [= <-] k [].
  - apply Z.ltb_ge in E.
    destruct (mapM_Forall2 (score_key uniqueNotes)
                (fun candidate o =>
                   exists sc,
                     getScaleNotes (fst candidate) (snd candidate)
                     = Return (Some sc)
                     /\ o = if positive (raw_score sc uniqueNotes)
                            then Some (mkCandidate
                                         (fst candidate ++ " " ++ sr_name sc)
                                         (fst candidate)
                                         (snd candidate)
                                         (raw_score sc uniqueNotes)
                                         (matched_in sc uniqueNotes)
                                         (Z.of_nat (length uniqueNotes)))
                            else None)
                key_candidates) as (ys & Hys & Hall).
    { intros candidate Hin.
      destruct (score_key_candidate uniqueNotes candidate Hin)
        as (sc & Hsc & Hk).
      eexists. split; [exact Hk |]. exists sc.
      split; [exact Hsc | reflexivity]. }
    rewrite Hys. cbn [bind]. intros [= <-] k Hk.
    assert (Hin : In (Some k) ys).
    { apply In_pushed.
      apply (Permutation_in _ (sort_perm _ by_score_descending _)).
      rewrite <- (firstn_skipn 5 (sort _ _)). apply in_or_app. now left. }
    destruct (Forall2_In_r _ _ _ _ Hall Hin)
      as ([root scaleType] & Hc & sc & Hsc & Ho).
    cbn [fst snd] in *.
    destruct (positive (raw_score sc uniqueNotes)) eqn:Ep;
      [| discriminate Ho].
    injection Ho as ->.
    exists root, scaleType, sc. repeat split; try assumption. lia.
Qed.

(** X20.  What a detected key says about the notes: every candidate returned
    has a score above 0 and at most 1, and more than two thirds of the
    distinct notes played lie in its scale. *)
Theorem detectKey_score_bounds (roundedMidi : Q -> option Z)
  (notes : list note_input) (results : list key_candidate) :
  detectKey roundedMidi notes = Return results ->
  forall k,
    In k results ->
    (0 < kc_score k <= 1)%Q
    /\ 2 * kc_totalNotes k < 3 * kc_matchedNotes k
    /\ kc_matchedNotes k <= kc_totalNotes k
    /\ 2 <= kc_totalNotes k.
Proof.
  intros H k Hk.
  destruct (detectKey_result_shape _ _ _ H k Hk)
    as (root & scaleType & sc & _ & _ & Hp & Hlen & ->).
  cbn [kc_score kc_totalNotes kc_matchedNotes].
  destruct (raw_score_bounds sc _ Hlen Hp) as (H1 & H2 & H3).
  repeat split; try tauto; lia.
Qed.

Lemma detectKey_score_bounds_witness :
  exists k rest,
    detectKey (fun _ => None) [ByName "C"; ByName "E"; ByName "G"]
    = Return (k :: rest)
    /\ (0 < kc_score k <= 1)%Q
    /\ 2 * kc_totalNotes k < 3 * kc_matchedNotes k.
Proof.
  let v := eval vm_compute in
    (detectKey (fun _ => None) [ByName "C"; ByName "E"; ByName "G"]) in
  match v with
  | Return (?k :: ?rest) =>
      assert (H : detectKey (fun _ => None)
                    [ByName "C"; ByName "E"; ByName "G"]
                  = Return (k :: rest)) by (vm_compute; reflexivity);
      exists k, rest; split; [exact H |];
      destruct (detectKey_score_bounds _ _ _ H k (or_introl eq_refl))
        as (H1 & H2 & _)
  end.
  split; assumption.
Defined.

Ltac complete_scale_detected :=
  match goal with
  | |- exists k1 k2 k3 k4 k5, ?call = _ /\ _ =>
      let v := eval vm_compute in call in
      match v with
      | Return [?k1; ?k2; ?k3; ?k4; ?k5] =>
          exists k1, k2, k3, k4, k5;
          split; [vm_compute; reflexivity |];
          split; [repeat (constructor; [vm_compute; reflexivity |]);
                  constructor |];
          split; [vm_compute; reflexivity |];
          cbv zeta; repeat split; vm_compute;
          repeat first [left; reflexivity | right]
      end
  end.

(** X21.  Playing a whole major scale: for any root, the notes of its major
    scale are answered with five candidates.  The first four score
    exactly 1 and are the four keys made of these same notes: the major
    key itself, the dorian key 2 semitones above, the mixolydian key 7
    above and the natural minor key 9 above; the fifth scores 4/7. *)
Theorem detectKey_complete_major_scale (roundedMidi : Q -> option Z)
  (root : string) (sc : scale_result) :
  getScaleNotes root "major" = Return (Some sc) ->
  exists k1 k2 k3 k4 k5,
    detectKey roundedMidi (map ByName (sr_notes sc))
    = Return [k1; k2; k3; k4; k5]
    /\ Forall (fun k => kc_score k == 1)%Q [k1; k2; k3; k4]
    /\ (kc_score k5 == 4 # 7)%Q
    /\ let found := map (fun k => (kc_root k, kc_scale k)) [k1; k2; k3; k4] in
       In (indexToNote (noteToIndex root) false, "major") found
       /\ In (indexToNote (noteToIndex root + 2) false, "dorian") found
       /\ In (indexToNote (noteToIndex root + 7) false, "mixolydian") found
       /\ In (indexToNote (noteToIndex root + 9) false, "naturalMinor") found.
Proof.
  unfold getScaleNotes. cbn [get own SCALES String.eqb Ascii.eqb Bool.eqb].
  intros [= <-]. cbn [sr_notes sc_intervals].
  pose proof (index_cases root) as Hc.
  repeat (destruct Hc as [Hc | Hc];
          [rewrite Hc; complete_scale_detected |]).
  rewrite Hc. complete_scale_detected.
Qed.

Lemma detectKey_complete_major_scale_witness :
  exists k1 k2 k3 k4 k5,
    detectKey (fun _ => None)
      (map ByName ["G"; "A"; "B"; "C"; "D"; "E"; "F#"])
    = Return [k1; k2; k3; k4; k5]
    /\ In ("G", "major")
          (map (fun k => (kc_root k, kc_scale k)) [k1; k2; k3; k4]).
Proof.
  destruct (detectKey_complete_major_scale (fun _ => None) "G" _ eq_refl)
    as (k1 & k2 & k3 & k4 & k5 & H & _ & _ & Hm & _).
  exists k1, k2, k3, k4, k5. split; [exact H | exact Hm].
Defined.

(** The key played is among the four tied candidates but need not come
    first: for the notes of G major the list starts with D mixolydian. *)
Remark detectKey_G_major_ranks_D_mixolydian_first :
  exists k rest,
    detectKey (fun _ => None)
      (map ByName ["G"; "A"; "B"; "C"; "D"; "E"; "F#"])
    = Return (k :: rest)
    /\ kc_root k = "D" /\ kc_scale k = "mixolydian".
Proof. do 2 eexists. split; [vm_compute; reflexivity | split; reflexivity]. Qed.

(** X22.  The label of a detected key names the root twice: it is the root,
    a space, and the name of the scale result, which itself starts with
    the root; for C major it reads [C C Major (Ionian)]. *)
Theorem detectKey_key_label (roundedMidi : Q -> option Z)
  (notes : list note_input) (results : list key_candidate) :
  detectKey roundedMidi notes = Return results ->
  forall k,
    In k results ->
    exists scale,
      own SCALES (kc_scale k) = Some scale
      /\ In (kc_root k) NOTE_NAMES
      /\ kc_key k = kc_root k ++ " " ++ kc_root k ++ " " ++ sc_name scale.
Proof.
  intros H k Hk.
  destruct (detectKey_result_shape _ _ _ H k Hk)
    as (root & scaleType & sc & Hc & Hsc & _ & _ & ->).
  cbn [kc_key kc_root kc_scale].
  destruct (key_candidates_scale _ Hc) as [scale Hs]. cbn [snd] in Hs.
  exists scale. split; [exact Hs |].
  split.
  { rewrite key_candidates_product in Hc. apply in_prod_iff in Hc. tauto. }
  unfold getScaleNotes in Hsc. rewrite (own_get _ _ _ Hs) in Hsc.
  injection Hsc as <-. reflexivity.
Qed.

Lemma detectKey_key_label_witness :
  exists k rest,
    detectKey (fun _ => None) [ByName "C"; ByName "E"; ByName "G"]
    = Return (k :: rest)
    /\ kc_key k = "C C Major (Ionian)".
Proof.
  let v := eval vm_compute in
    (detectKey (fun _ => None) [ByName "C"; ByName "E"; ByName "G"]) in
  match v with
  | Return (?k :: ?rest) =>
      assert (H : detectKey (fun _ => None)
                    [ByName "C"; ByName "E"; ByName "G"]
                  = Return (k :: rest)) by (vm_compute; reflexivity);
      exists k, rest; split; [exact H |];
      destruct (detectKey_key_label _ _ _ H k (or_introl eq_refl))
        as (scale & Hs & _ & Hl)
  end.
  rewrite Hl. injection Hs as <-. reflexivity.
Defined.

(* ------------------------------------------------------------------ *)
(** ** Further properties: the chord analyzer *)
(* ------------------------------------------------------------------ *)

Lemma sort_of_sorted {A : Type} (cmp : A -> A -> Q) (l : list A) :
  StronglySorted (fun a b => positive (cmp a b) = false) l ->
  sort cmp l = l.
Proof.
  induction 1 as [| x t Ht IH Hall]; [reflexivity |].
  cbn [sort]. rewrite IH. destruct t as [| y t']; [reflexivity |].
  cbn [sort_insert]. inversion Hall as [| ? ? Hxy _]; subst. now rewrite Hxy.
Qed.

Lemma by_freq_sort_idempotent (elems : list ChordAnalyzer.sounding) :
  sort ChordAnalyzer.by_freq (sort ChordAnalyzer.by_freq elems)
  = sort ChordAnalyzer.by_freq elems.
Proof.
  apply sort_of_sorted.
  pose proof (by_freq_sorted elems) as H.
  induction H as [| x t _ IH Hall]; constructor; [exact IH |].
  eapply Forall_impl; [| exact Hall].
  intros b Hb. cbv beta in Hb. apply positive_false.
  unfold ChordAnalyzer.by_freq. lra.
Qed.

(** The outcome of [identify] on an array of two or more sounding notes,
    spelled out: the array is sorted in place and three objects are
    appended to the store. *)
Lemma identify_outcome
  (semitoneDistance : Q -> Q -> Z) (ratioText : Q -> Q -> string)
  (s : ChordAnalyzer.store) (activeNotes : ChordAnalyzer.loc)
  (elems : list ChordAnalyzer.sounding) :
  nth_error s activeNotes = Some (ChordAnalyzer.NoteArray elems) ->
  (2 <= length elems)%nat ->
  exists root rest,
    sort ChordAnalyzer.by_freq elems = root :: rest
    /\ let us :=
         Set_spread Z.eqb
           (map (fun n => semitoneDistance (ChordAnalyzer.freq n)
                                           (ChordAnalyzer.freq root))
                (root :: rest)) in
       ChordAnalyzer.identify semitoneDistance ratioText s activeNotes
       = Return
           ((((ChordAnalyzer.write s activeNotes
                 (ChordAnalyzer.NoteArray (root :: rest))
               ++ [ChordAnalyzer.NumberArray us])
              ++ [ChordAnalyzer.StringArray
                    (map (fun n => ratioText (ChordAnalyzer.freq n)
                                             (ChordAnalyzer.freq root))
                         (root :: rest))])
             ++ [ChordAnalyzer.Analysis (ChordAnalyzer.note root)
                   (analysis_chordName us)
                   (length s) (S (length s)) (analysis_stability us)])%list,
            Some (S (S (length s)))).
Proof.
  intros Hs Hlen. unfold ChordAnalyzer.identify. rewrite Hs.
  settle_length_guard.
  pose proof (sort_length ChordAnalyzer.by_freq elems) as Hl.
  destruct (sort ChordAnalyzer.by_freq elems) as [| root rest];
    [simpl in Hl; lia |].
  cbv beta iota zeta delta [ChordAnalyzer.alloc].
  rewrite !length_app, write_length. cbn [length].
  replace (length s + 1)%nat with (S (length s)) by lia.
  replace (S (length s) + 1)%nat with (S (S (length s))) by lia.
  exists root, rest. split; [reflexivity |].
  unfold analysis_chordName, analysis_stability.
  do 4 f_equal.
  destruct (own ChordAnalyzer.chords _); [reflexivity |].
  destruct (Z.of_nat _ =? 2); [| reflexivity].
  destruct (at_index _ 1); [| reflexivity].
  destruct (ChordAnalyzer.interval_name _ _); reflexivity.
Qed.

Lemma store_after_identify (s1 : ChordAnalyzer.store)
  (o1 o2 o3 : ChordAnalyzer.object) :
  let s' := (((s1 ++ [o1]) ++ [o2]) ++ [o3])%list in
  (forall l, (l < length s1)%nat -> nth_error s' l = nth_error s1 l)
  /\ nth_error s' (length s1) = Some o1
  /\ nth_error s' (S (length s1)) = Some o2
  /\ nth_error s' (S (S (length s1))) = Some o3.
Proof.
  cbv zeta. rewrite <- !app_assoc. cbn [app].
  split; [intros l Hl; now rewrite nth_error_app1 |].
  split; [| split]; rewrite nth_error_app2 by lia.
  - now rewrite Nat.sub_diag.
  - now replace (S (length s1) - length s1)%nat with 1%nat by lia.
  - now replace (S (S (length s1)) - length s1)%nat with 2%nat by lia.
Qed.

(** X23.  What the analysis reports: the root is the label of a sounding note
    of lowest frequency; the semitone array has no repeated entry; there
    is one ratio per sounding note; and the stability is one of the two
    words Consonant and Dissonant. *)
Theorem identify_reports_lowest_note
  (semitoneDistance : Q -> Q -> Z) (ratioText : Q -> Q -> string)
  (s : ChordAnalyzer.store) (activeNotes : ChordAnalyzer.loc)
  (elems : list ChordAnalyzer.sounding) :
  nth_error s activeNotes = Some (ChordAnalyzer.NoteArray elems) ->
  (2 <= length elems)%nat ->
  exists s' result root chordName semitones ratios stability us rs,
    ChordAnalyzer.identify semitoneDistance ratioText s activeNotes
    = Return (s', Some result)
    /\ nth_error s' result
       = Some (ChordAnalyzer.Analysis root chordName semitones ratios
                                      stability)
    /\ (exists e,
          In e elems
          /\ ChordAnalyzer.note e = root
          /\ forall x, In x elems ->
                       (ChordAnalyzer.freq e <= ChordAnalyzer.freq x)%Q)
    /\ nth_error s' semitones = Some (ChordAnalyzer.NumberArray us)
    /\ NoDup us
    /\ nth_error s' ratios = Some (ChordAnalyzer.StringArray rs)
    /\ length rs = length elems
    /\ (stability = "Consonant" \/ stability = "Dissonant").
Proof.
  intros Hs Hlen.
  destruct (identify_outcome semitoneDistance ratioText s activeNotes elems
              Hs Hlen) as (root & rest & Hsort & Hid).
  cbv zeta in Hid.
  pose proof (store_after_identify
                (ChordAnalyzer.write s activeNotes
                   (ChordAnalyzer.NoteArray (root :: rest)))) as Hst.
  cbv zeta in Hst. rewrite write_length in Hst.
  do 9 eexists. split; [exact Hid |].
  match goal with
  | |- context [nth_error (((_ ++ [?o1]) ++ [?o2]) ++ [?o3])%list] =>
      destruct (Hst o1 o2 o3) as (_ & H1 & H2 & H3)
  end.
  split; [exact H3 |].
  split.
  { exists root.
    pose proof (sort_perm _ ChordAnalyzer.by_freq elems) as Hp.
    pose proof (by_freq_sorted elems) as Hsd.
    rewrite Hsort in Hp, Hsd.
    split; [apply (Permutation_in _ Hp); now left |].
    split; [reflexivity |].
    intros x Hx. apply (Permutation_in _ (Permutation_sym Hp)) in Hx.
    destruct Hx as [<- | Hx]; [apply Qle_refl |].
    inversion Hsd as [| ? ? _ Hall]; subst.
    rewrite Forall_forall in Hall. now apply Hall. }
  split; [exact H1 |].
  split; [apply (Set_spread_spec Z Z.eqb Z.eqb_eq) |].
  split; [exact H2 |].
  split.
  - rewrite length_map, <- Hsort. apply sort_length.
  - unfold analysis_stability.
    match goal with
    | |- context [if ?b then _ else _] => destruct b
    end; [now right | now left].
Qed.

Lemma identify_reports_lowest_note_witness :
  exists s' result chordName semitones ratios stability,
    ChordAnalyzer.identify (fun _ _ => 7) (fun _ _ => "1.50")
      [ChordAnalyzer.NoteArray
         [ChordAnalyzer.mkSounding 660 "E5";
          ChordAnalyzer.mkSounding 440 "A4"]] 0%nat
    = Return (s', Some result)
    /\ nth_error s' result
       = Some (ChordAnalyzer.Analysis "A4" chordName semitones ratios
                                      stability).
Proof.
  destruct (identify_reports_lowest_note
              (fun _ _ => 7) (fun _ _ => "1.50")
              [ChordAnalyzer.NoteArray
                 [ChordAnalyzer.mkSounding 660 "E5";
                  ChordAnalyzer.mkSounding 440 "A4"]] 0%nat _ eq_refl
              ltac:(simpl; lia))
    as (s' & result & root & chordName & semitones & ratios & stability
        & us & rs & Hid & Hres & _).
  exists s', result, chordName, semitones, ratios, stability.
  split; [exact Hid |].
  rewrite Hres. vm_compute in Hid. injection Hid as <- <-.
  vm_compute in Hres. injection Hres as <- _ _ _ _. reflexivity.
Defined.

(** X24.  Calling [identify] again on the same array changes that array no
    further, and the second analysis names the same root, the same chord
    and the same stability as the first. *)
Theorem identify_again
  (semitoneDistance : Q -> Q -> Z) (ratioText : Q -> Q -> string)
  (s : ChordAnalyzer.store) (activeNotes : ChordAnalyzer.loc)
  (elems : list ChordAnalyzer.sounding) :
  nth_error s activeNotes = Some (ChordAnalyzer.NoteArray elems) ->
  (2 <= length elems)%nat ->
  exists s1 r1 s2 r2 root chordName stability sem1 rat1 sem2 rat2,
    ChordAnalyzer.identify semitoneDistance ratioText s activeNotes
    = Return (s1, Some r1)
    /\ ChordAnalyzer.identify semitoneDistance ratioText s1 activeNotes
       = Return (s2, Some r2)
    /\ nth_error s2 activeNotes = nth_error s1 activeNotes
    /\ nth_error s1 r1
       = Some (ChordAnalyzer.Analysis root chordName sem1 rat1 stability)
    /\ nth_error s2 r2
       = Some (ChordAnalyzer.Analysis root chordName sem2 rat2 stability).
Proof.
  intros Hs Hlen.
  assert (Hloc : (activeNotes < length s)%nat)
    by (apply nth_error_Some; now rewrite Hs).
  destruct (identify_outcome semitoneDistance ratioText s activeNotes elems
              Hs Hlen) as (root & rest & Hsort & Hid).
  cbv zeta in Hid.
  set (w := ChordAnalyzer.write s activeNotes
              (ChordAnalyzer.NoteArray (root :: rest))) in *.
  assert (Hw : length w = length s) by apply write_length.
  match type of Hid with
  | _ = Return (?st, _) => set (s1 := st) in *
  end.
  assert (Hs1 : nth_error s1 activeNotes
                = Some (ChordAnalyzer.NoteArray (root :: rest))).
  { unfold s1. rewrite !nth_error_app1 by (rewrite ?length_app, Hw; lia).
    now apply write_same. }
  assert (Hlen1 : (2 <= length (root :: rest))%nat)
    by (rewrite <- Hsort, sort_length; exact Hlen).
  destruct (identify_outcome semitoneDistance ratioText s1 activeNotes
              (root :: rest) Hs1 Hlen1)
    as (root' & rest' & Hsort' & Hid').
  cbv zeta in Hid'.
  rewrite <- Hsort, by_freq_sort_idempotent, Hsort in Hsort'.
  injection Hsort' as <- <-.
  assert (Hloc1 : (activeNotes < length s1)%nat)
    by (apply nth_error_Some; now rewrite Hs1).
  do 11 eexists. split; [exact Hid |]. split; [exact Hid' |].
  split.
  { rewrite Hs1.
    rewrite !nth_error_app1
      by (rewrite ?length_app, write_length; lia).
    now apply write_same. }
  split.
  { unfold s1.
    match goal with
    | |- context [(((w ++ [?o1]) ++ [?o2]) ++ [?o3])%list] =>
        destruct (store_after_identify w o1 o2 o3) as (_ & _ & _ & H3)
    end.
    rewrite Hw in H3. exact H3. }
  match goal with
  | |- context [(((?w1 ++ [?o1]) ++ [?o2]) ++ [?o3])%list] =>
      destruct (store_after_identify w1 o1 o2 o3) as (_ & _ & _ & H3)
  end.
  rewrite write_length in H3. exact H3.
Qed.

Lemma identify_again_witness :
  exists s1 r1 s2 r2,
    ChordAnalyzer.identify (fun _ _ => 7) (fun _ _ => "1.50")
      [ChordAnalyzer.NoteArray
         [ChordAnalyzer.mkSounding 660 "E5";
          ChordAnalyzer.mkSounding 440 "A4"]] 0%nat
    = Return (s1, Some r1)
    /\ ChordAnalyzer.identify (fun _ _ => 7) (fun _ _ => "1.50") s1 0%nat
       = Return (s2, Some r2)
    /\ nth_error s2 0%nat = nth_error s1 0%nat.
Proof.
  destruct (identify_again
              (fun _ _ => 7) (fun _ _ => "1.50")
              [ChordAnalyzer.NoteArray
                 [ChordAnalyzer.mkSounding 660 "E5";
                  ChordAnalyzer.mkSounding 440 "A4"]] 0%nat _ eq_refl
              ltac:(simpl; lia))
    as (s1 & r1 & s2 & r2 & _ & _ & _ & _ & _ & _ & _ & H1 & H2 & H3 & _).
  exists s1, r1, s2, r2. repeat split; assumption.
Defined.


(* ------------------------------------------------------------------ *)
(** ** Further properties: the on-screen keyboard and the MIDI input *)
(* ------------------------------------------------------------------ *)

Lemma midi_range_nth (a b : Z) (i : nat) (m : Z) :
  nth_error (midi_range a b) i = Some m -> m = a + Z.of_nat i.
Proof.
  unfold midi_range. intros H. rewrite nth_error_map in H.
  destruct (nth_error (seq 0 (Z.to_nat (b - a + 1))) i) as [k |] eqn:E;
    [| discriminate H].
  injection H as <-.
  assert (Hi : (i < length (seq 0 (Z.to_nat (b - a + 1))))%nat)
    by (apply nth_error_Some; now rewrite E).
  rewrite length_seq in Hi.
  apply (nth_error_nth _ _ 0%nat) in E.
  rewrite seq_nth in E by exact Hi. subst k. reflexivity.
Qed.

Lemma midi_range_In (a b m : Z) : In m (midi_range a b) <-> a <= m <= b.
Proof.
  unfold midi_range. rewrite in_map_iff. split.
  - intros (k & <- & Hk). apply in_seq in Hk. lia.
  - intros H. exists (Z.to_nat (m - a)). split; [lia |].
    apply in_seq. lia.
Qed.

(** A call that returns has returned the keys of its MIDI range. *)
Lemma generateKeyboard_returned (startOctave endOctave : Z)
  (keys : list piano_key) :
  generateKeyboard startOctave endOctave = Some keys ->
  keys = map piano_key_of
             (midi_range ((startOctave + 1) * 12) ((endOctave + 1) * 12)).
Proof.
  unfold generateKeyboard. cbv zeta.
  destruct (safe_integer _ && safe_integer _); [| discriminate].
  now intros [= <-].
Qed.

Lemma generateKeyboard_In (startOctave endOctave : Z)
  (keys : list piano_key) (k : piano_key) :
  generateKeyboard startOctave endOctave = Some keys ->
  In k keys
  <-> exists m, k = piano_key_of m
                /\ (startOctave + 1) * 12 <= m <= (endOctave + 1) * 12.
Proof.
  intros H. rewrite (generateKeyboard_returned _ _ _ H), in_map_iff. split.
  - intros (m & <- & Hm). exists m. split; [reflexivity |].
    now apply midi_range_In.
  - intros (m & -> & Hm). exists m. split; [reflexivity |].
    now apply midi_range_In.
Qed.

(** The decimal rendering of an integer starts with a digit or with the
    minus sign, and different integers are rendered differently. *)
Lemma toString_head (z : Z) :
  exists c t,
    toString z = String c t /\ (is_digit c = true \/ c = "-"%char).
Proof.
  assert (Hu : forall u,
             exists c t, NilZero.string_of_uint u = String c t
                         /\ is_digit c = true).
  { intros u. destruct u; eexists; eexists; split; reflexivity. }
  unfold toString. destruct (Z.to_int z) as [u | u];
    cbn [NilZero.string_of_int].
  - destruct (Hu u) as (c & t & E & D). exists c, t. split; [exact E | now left].
  - eexists. eexists. split; [reflexivity | now right].
Qed.

Lemma toString_inj (a b : Z) : toString a = toString b -> a = b.
Proof.
  assert (Hn : forall z, NilZero.int_of_string (toString z)
                         = Some (Z.to_int z)).
  { intros z. unfold toString. apply NilZero.isi;
      destruct z as [| p | p]; cbn [Z.to_int]; try discriminate;
      intros [= H]; now apply Unsigned.to_uint_nonnil in H. }
  intros H. apply (f_equal NilZero.int_of_string) in H.
  rewrite !Hn in H. injection H as H.
  apply (f_equal Z.of_int) in H. now rewrite !DecimalZ.of_to in H.
Qed.

(** A key name of the keyboard followed by a number is read in one way
    only, also against the label [undefined] of a negative remainder. *)
Lemma label_split (a b s t : string) :
  In a keyboard_notes ->
  In b ("undefined" :: keyboard_notes) ->
  (exists c s', s = String c s' /\ (is_digit c = true \/ c = "-"%char)) ->
  (exists c t', t = String c t' /\ (is_digit c = true \/ c = "-"%char)) ->
  a ++ s = b ++ t ->
  a = b /\ s = t.
Proof.
  intros Ha Hb (c1 & s' & -> & D1) (c2 & t' & -> & D2) H.
  simpl in Ha, Hb.
  repeat (destruct Ha as [<- | Ha]; [| ]); [.. | destruct Ha];
    repeat (destruct Hb as [<- | Hb]; [| ]); try contradiction;
    cbn [String.append] in H;
    try discriminate H;
    repeat (injection H as H; try discriminate H);
    try (split; [reflexivity | congruence]);
    try (injection H as -> _);
    try (injection H as <- _);
    try (subst;
         first [ destruct D1 as [D1 | D1]; discriminate D1
               | destruct D2 as [D2 | D2]; discriminate D2 ]).
Qed.

(** The remainder [m % 12] of a MIDI number is its residue modulo 12
    whenever it is not negative. *)
Lemma rem_nonneg_mod (n : Z) : 0 <= Z.rem n 12 -> Z.rem n 12 = n mod 12.
Proof.
  intros H. rewrite <- rem_mod_12.
  pose proof (Z.rem_bound_abs n 12). symmetry. apply Z.mod_small. lia.
Qed.

Lemma keyboard_name_defined (p : Z) :
  0 <= p < 12 ->
  exists name, at_index keyboard_notes p = Some name
               /\ In name keyboard_notes.
Proof.
  intros H. apply residue_cases in H.
  repeat (destruct H as [-> | H];
          [eexists; split; [reflexivity | simpl; tauto] |]).
  rewrite H. eexists. split; [reflexivity | simpl; tauto].
Qed.

Lemma keyboard_names_distinct (p q : Z) (name : string) :
  0 <= p < 12 -> 0 <= q < 12 ->
  at_index keyboard_notes p = Some name ->
  at_index keyboard_notes q = Some name ->
  p = q.
Proof.
  intros Hp Hq H1 H2. apply residue_cases in Hp, Hq.
  repeat (destruct Hp as [Hp | Hp]); subst p;
    repeat (destruct Hq as [Hq | Hq]); subst q;
    first [reflexivity | vm_compute in H1, H2; congruence].
Qed.

(** From MIDI number 0 upwards a label names one MIDI number only. *)
Lemma getNoteName_inj (m n : Z) :
  0 <= m ->
  MIDIHandler.getNoteName m = MIDIHandler.getNoteName n ->
  m = n.
Proof.
  intros Hm H. unfold MIDIHandler.getNoteName in H. cbv zeta in H.
  pose proof (Z.mod_pos_bound m 12 ltac:(lia)) as Hp.
  rewrite Z.rem_mod_nonneg in H by lia.
  destruct (keyboard_name_defined _ Hp) as (a & Ea & Ia).
  rewrite Ea in H. cbn [template_text] in H.
  assert (Hb : exists b,
             template_text (at_index keyboard_notes (Z.rem n 12)) = b
             /\ In b ("undefined" :: keyboard_notes)
             /\ (b <> "undefined" ->
                 0 <= Z.rem n 12
                 /\ at_index keyboard_notes (Z.rem n 12) = Some b)).
  { pose proof (Z.rem_bound_abs n 12) as Hr.
    assert (Hc : Z.rem n 12 < 0 \/ 0 <= Z.rem n 12 < 12) by lia.
    destruct Hc as [Hc | Hc].
    - exists "undefined". unfold at_index.
      rewrite (proj2 (Z.ltb_lt _ _) Hc).
      split; [reflexivity |]. split; [now left | intros []; reflexivity].
    - destruct (keyboard_name_defined _ Hc) as (b & Eb & Ib).
      exists b. rewrite Eb. split; [reflexivity |].
      split; [now right | intros _; split; [lia | reflexivity]]. }
  destruct Hb as (b & Eb & Ib & Hdef). rewrite Eb in H.
  destruct (label_split a b _ _ Ia Ib (toString_head _) (toString_head _) H)
    as [<- Ht].
  apply toString_inj in Ht.
  destruct Hdef as [Hn En].
  { intros ->. simpl in Ia.
    repeat (destruct Ia as [Ia | Ia]; [discriminate Ia |]). destruct Ia. }
  pose proof (Z.rem_bound_abs n 12) as Hr.
  assert (Hq : m mod 12 = Z.rem n 12)
    by (apply (keyboard_names_distinct _ _ a); [lia | lia | exact Ea | exact En]).
  rewrite (rem_nonneg_mod n Hn) in Hq.
  pose proof (Z.div_mod m 12 ltac:(lia)).
  pose proof (Z.div_mod n 12 ltac:(lia)). lia.
Qed.

(** X25.  A call of [generateKeyboard] that returns gives the keys of the
    consecutive MIDI numbers from the C of the start octave to the C of
    the end octave, both included, and names every key the way
    [MIDIHandler.getNoteName] and [EarTrainer.getNoteName] name its MIDI
    number.  From octave [-1] upwards a label names one MIDI number
    only: the key labelled as [getNoteName] labels a MIDI number is the
    key of that number, and no two keys share a label. *)
Theorem generateKeyboard_keys (startOctave endOctave : Z)
  (generated : list piano_key) :
  generateKeyboard startOctave endOctave = Some generated ->
  length generated = Z.to_nat (12 * (endOctave - startOctave) + 1)
  /\ (forall i k,
        nth_error generated i = Some k ->
        pk_midi k = (startOctave + 1) * 12 + Z.of_nat i
        /\ pk_note k = MIDIHandler.getNoteName (pk_midi k)
        /\ pk_note k = EarTrainer.getNoteName (pk_midi k))
  /\ (-1 <= startOctave ->
      (forall k midiNote,
         In k generated ->
         pk_note k = MIDIHandler.getNoteName midiNote ->
         pk_midi k = midiNote)
      /\ (forall k1 k2,
            In k1 generated -> In k2 generated ->
            pk_note k1 = pk_note k2 -> k1 = k2)).
Proof.
  intros Hg. pose proof (generateKeyboard_returned _ _ _ Hg) as ->.
  split; [| split].
  - rewrite length_map. unfold midi_range. rewrite length_map, length_seq.
    f_equal. lia.
  - intros i k H. rewrite nth_error_map in H.
    destruct (nth_error (midi_range _ _) i) as [m |] eqn:E;
      [| discriminate H].
    injection H as <-. apply midi_range_nth in E.
    cbn [pk_midi piano_key_of]. split; [exact E |].
    split; reflexivity.
  - intros Hs.
    assert (Hlabel : forall k midiNote,
               In k (map piano_key_of
                         (midi_range ((startOctave + 1) * 12)
                                     ((endOctave + 1) * 12))) ->
               pk_note k = MIDIHandler.getNoteName midiNote ->
               pk_midi k = midiNote).
    { intros k midiNote Hk Hn. apply in_map_iff in Hk.
      destruct Hk as (m & <- & Hm). apply midi_range_In in Hm.
      change (pk_midi (piano_key_of m)) with m.
      apply getNoteName_inj; [lia | exact Hn]. }
    split; [exact Hlabel |].
    intros k1 k2 H1 H2 E.
    pose proof (Hlabel k1 (pk_midi k2) H1) as Hm.
    apply in_map_iff in H1, H2.
    destruct H1 as (a & <- & _). destruct H2 as (b & <- & _).
    change (pk_midi (piano_key_of a)) with a in Hm.
    change (pk_midi (piano_key_of b)) with b in Hm.
    rewrite Hm; [reflexivity | exact E].
Qed.

Lemma generateKeyboard_keys_witness :
  exists generated,
    pianoKeys = Some generated
    /\ length generated = 25%nat
    /\ nth_error generated 12 = Some (piano_key_of 60)
    /\ pk_note (piano_key_of 60) = MIDIHandler.getNoteName 60.
Proof.
  assert (Hg : exists generated, generateKeyboard 3 5 = Some generated
                                 /\ nth_error generated 12
                                    = Some (piano_key_of 60)).
  { eexists. split; [vm_compute; reflexivity | reflexivity]. }
  destruct Hg as (generated & Hg & H12).
  destruct (generateKeyboard_keys 3 5 generated Hg) as (Hlen & Hkeys & _).
  exists generated. split; [exact Hg |]. split; [exact Hlen |].
  split; [exact H12 |].
  destruct (Hkeys 12%nat (piano_key_of 60) H12) as (_ & Hn & _).
  exact Hn.
Defined.

(** The property names [generateKeyboard] reads in its shortcut tables
    are key names or [undefined]: none is an inherited name. *)
Lemma shortcut_names_not_inherited (m : Z) :
  includes Object_prototype_names
    (template_text (at_index keyboard_notes (Z.rem m 12)))
  = false.
Proof.
  pose proof (Z.rem_bound_abs m 12) as H.
  assert (Hc : Z.rem m 12 < 0 \/ 0 <= Z.rem m 12 < 12) by lia.
  destruct Hc as [Hc | Hc].
  - unfold at_index. apply Z.ltb_lt in Hc. now rewrite Hc.
  - apply residue_cases in Hc.
    repeat (destruct Hc as [-> | Hc]; [reflexivity |]).
    now rewrite Hc.
Qed.

Lemma keyboard_name_index (p : Z) :
  0 <= p < 12 ->
  exists name,
    at_index keyboard_notes p = Some name
    /\ In name keyboard_notes
    /\ noteToIndex name = p.
Proof.
  intros H. apply residue_cases in H.
  repeat (destruct H as [-> | H];
          [eexists; split; [reflexivity |];
           split; [simpl; tauto | reflexivity] |]).
  rewrite H. eexists. split; [reflexivity |].
  split; [simpl; tauto | reflexivity].
Qed.

(** X26.  From octave [-1] upwards, the frequency of every key of a
    returned keyboard is the one the theory engine computes by
    [noteToFrequency] from the name and the octave that make up the
    key's label. *)
Theorem generateKeyboard_frequency (startOctave endOctave : Z)
  (generated : list piano_key) (k : piano_key) :
  -1 <= startOctave ->
  generateKeyboard startOctave endOctave = Some generated ->
  In k generated ->
  exists name octave,
    In name keyboard_notes
    /\ pk_note k = name ++ toString octave
    /\ pk_freq k = noteToFrequency name octave.
Proof.
  intros Hs Hg Hk. apply (generateKeyboard_In _ _ _ _ Hg) in Hk.
  destruct Hk as (m & -> & Hm).
  assert (H0 : 0 <= m) by lia.
  pose proof (Z.mod_pos_bound m 12 ltac:(lia)) as Hp.
  destruct (keyboard_name_index (m mod 12) Hp) as (name & Hn & Hin & Hidx).
  exists name, (m / 12 - 1). split; [exact Hin |].
  unfold piano_key_of. cbn [pk_note pk_freq].
  rewrite Z.rem_mod_nonneg, Hn by lia. split; [reflexivity |].
  unfold noteToFrequency. rewrite Hidx. f_equal.
  pose proof (Z.div_mod m 12 ltac:(lia)). unfold A4_MIDI_NUMBER. lia.
Qed.

Lemma generateKeyboard_frequency_witness :
  exists name octave,
    In name keyboard_notes
    /\ pk_note (piano_key_of 58) = name ++ toString octave
    /\ pk_freq (piano_key_of 58) = noteToFrequency name octave.
Proof.
  eapply (generateKeyboard_frequency 3 5);
    [lia | vm_compute; reflexivity | vm_compute; tauto].
Defined.

Lemma shortcut_octaves (m : Z) :
  pk_key (piano_key_of m) <> "" -> 36 <= m < 72.
Proof.
  unfold piano_key_of. cbn [pk_key]. cbv zeta.
  pose proof (Z.div_mod m 12 ltac:(lia)) as Hd.
  pose proof (Z.mod_pos_bound m 12 ltac:(lia)) as Hb.
  destruct (m / 12 - 1 =? 2) eqn:E2; [apply Z.eqb_eq in E2; lia |].
  destruct (m / 12 - 1 =? 4) eqn:E4; [apply Z.eqb_eq in E4; lia |].
  destruct (m / 12 - 1 =? 3) eqn:E3; [apply Z.eqb_eq in E3; lia |].
  intros H. now contradiction H.
Qed.

Lemma shortcuts_checked :
  forallb
    (fun a =>
       forallb
         (fun b =>
            String.eqb (pk_key (piano_key_of a)) ""
            || negb (String.eqb (pk_key (piano_key_of a))
                                (pk_key (piano_key_of b)))
            || (a =? b))
         (midi_range 36 71))
    (midi_range 36 71)
  = true.
Proof. vm_compute. reflexivity. Qed.

(** X27.  No two keys share a shortcut character, whatever the range of a
    returned keyboard: two keys of one keyboard that carry the same
    non-empty character are one and the same key. *)
Theorem generateKeyboard_shortcuts_distinct (startOctave endOctave : Z)
  (generated : list piano_key) (k1 k2 : piano_key) :
  generateKeyboard startOctave endOctave = Some generated ->
  In k1 generated ->
  In k2 generated ->
  pk_key k1 <> "" ->
  pk_key k1 = pk_key k2 ->
  k1 = k2.
Proof.
  intros Hg H1 H2 Hne E.
  apply (generateKeyboard_In _ _ _ _ Hg) in H1. destruct H1 as (a & -> & _).
  apply (generateKeyboard_In _ _ _ _ Hg) in H2. destruct H2 as (b & -> & _).
  pose proof (shortcut_octaves a Hne) as Ha.
  assert (Hne2 : pk_key (piano_key_of b) <> "") by now rewrite <- E.
  pose proof (shortcut_octaves b Hne2) as Hb.
  pose proof shortcuts_checked as C.
  rewrite forallb_forall in C.
  specialize (C a ltac:(apply midi_range_In; lia)).
  rewrite forallb_forall in C.
  specialize (C b ltac:(apply midi_range_In; lia)).
  rewrite E in C.
  rewrite String.eqb_refl in C. cbn [negb] in C.
  rewrite orb_false_r in C.
  apply orb_true_iff in C. destruct C as [C | C].
  - apply String.eqb_eq in C. rewrite <- E in C. contradiction.
  - apply Z.eqb_eq in C. now subst.
Qed.

Lemma generateKeyboard_shortcuts_distinct_witness :
  exists generated,
    pianoKeys = Some generated
    /\ piano_key_of 60 = nth 12 generated (piano_key_of 0).
Proof.
  assert (Hg : exists generated, generateKeyboard 3 5 = Some generated)
    by (eexists; vm_compute; reflexivity).
  destruct Hg as (generated & Hg). exists generated.
  split; [exact Hg |].
  pose proof Hg as Hv. vm_compute in Hv. injection Hv as Hv.
  apply (generateKeyboard_shortcuts_distinct 3 5 generated _ _ Hg).
  - rewrite <- Hv. vm_compute. tauto.
  - rewrite <- Hv. vm_compute. tauto.
  - vm_compute. discriminate.
  - rewrite <- Hv. vm_compute. reflexivity.
Defined.

Lemma append_empty_r (s : string) : s ++ "" = s.
Proof. induction s as [| c s IH]; [reflexivity | cbn; now rewrite IH]. Qed.

Lemma strip_digits_app (s t : string) :
  strip_digits (s ++ t) = strip_digits s ++ strip_digits t.
Proof.
  induction s as [| c s IH]; [reflexivity |].
  cbn [String.append strip_digits]. rewrite IH.
  now destruct (is_digit c).
Qed.

Lemma strip_digits_uint (u : Decimal.uint) :
  strip_digits (NilEmpty.string_of_uint u) = "".
Proof. induction u; [reflexivity | exact IHu ..]. Qed.

Lemma strip_digits_toString (z : Z) : 0 <= z -> strip_digits (toString z) = "".
Proof.
  intros H. unfold toString. destruct z as [| p | p]; [reflexivity | | lia].
  cbn [Z.to_int NilZero.string_of_int]. unfold NilZero.string_of_uint.
  destruct (Pos.to_uint p) eqn:E; [reflexivity | ..];
    rewrite <- E; apply strip_digits_uint.
Qed.

Lemma classList_add_In (classes : list string) (c d : string) :
  In d (classList_add classes c) <-> d = c \/ In d classes.
Proof.
  unfold classList_add. destruct (includes classes c) eqn:E.
  - apply includes_In in E. split; [tauto |]. intros [-> | H]; assumption.
  - rewrite in_app_iff. simpl. intuition congruence.
Qed.

Lemma classList_remove_In (classes : list string) (c d : string) :
  In d (classList_remove classes c) <-> d <> c /\ In d classes.
Proof.
  unfold classList_remove. rewrite filter_In, negb_true_iff.
  rewrite String.eqb_neq. tauto.
Qed.

Lemma classList_toggle_same (classes : list string) (c : string)
  (force : bool) :
  In c (classList_toggle classes c force) <-> force = true.
Proof.
  destruct force; cbn [classList_toggle].
  - rewrite classList_add_In. tauto.
  - rewrite classList_remove_In. intuition congruence.
Qed.

Lemma classList_toggle_other (classes : list string) (c d : string)
  (force : bool) :
  d <> c -> In d (classList_toggle classes c force) <-> In d classes.
Proof.
  intros H. destruct force; cbn [classList_toggle].
  - rewrite classList_add_In. tauto.
  - rewrite classList_remove_In. tauto.
Qed.

(** From octave [0] upwards the name left of a key's label once the
    digits are removed is the key name itself: the sharp spelling of the
    pitch class, except for the three flat-named keys, whose names are
    no sharp spelling. *)
Lemma key_note_only (m : Z) :
  12 <= m ->
  exists name,
    strip_digits (pk_note (piano_key_of m)) = name
    /\ String.eqb (pk_note (piano_key_of m)) "" = false
    /\ (In (m mod 12) [3; 8; 10] -> ~ In name NOTE_NAMES)
    /\ (~ In (m mod 12) [3; 8; 10] -> name = indexToNote (m mod 12) false).
Proof.
  intros Hm.
  pose proof (Z.div_mod m 12 ltac:(lia)) as Hd.
  pose proof (Z.mod_pos_bound m 12 ltac:(lia)) as Hp.
  assert (Ho : 0 <= m / 12 - 1) by lia.
  unfold piano_key_of. cbn [pk_note].
  rewrite Z.rem_mod_nonneg by lia.
  rewrite strip_digits_app, (strip_digits_toString _ Ho), append_empty_r.
  apply residue_cases in Hp.
  assert (Hcase :
    forall p name,
      at_index keyboard_notes p = Some name ->
      strip_digits name = name ->
      name <> "" ->
      (In p [3; 8; 10] -> ~ In name NOTE_NAMES) ->
      (~ In p [3; 8; 10] -> name = indexToNote p false) ->
      m mod 12 = p ->
      exists name0,
        strip_digits (template_text (at_index keyboard_notes (m mod 12)))
        = name0
        /\ String.eqb (template_text (at_index keyboard_notes (m mod 12))
                       ++ toString (m / 12 - 1)) "" = false
        /\ (In (m mod 12) [3; 8; 10] -> ~ In name0 NOTE_NAMES)
        /\ (~ In (m mod 12) [3; 8; 10]
            -> name0 = indexToNote (m mod 12) false)).
  { intros p name Hn Hs Hne H1 H2 ->. exists name. rewrite Hn.
    cbn [template_text]. rewrite Hs.
    split; [reflexivity |].
    split; [destruct name; [contradiction | reflexivity] |].
    split; assumption. }
  repeat (destruct Hp as [Hp | Hp];
    [eapply Hcase; cycle 5;
     [exact Hp | reflexivity | reflexivity | discriminate
     | simpl; intuition (try lia; try discriminate)
     | simpl; intros Hn; first [reflexivity | exfalso; apply Hn; tauto]] |]).
  eapply Hcase; cycle 5;
    [exact Hp | reflexivity | reflexivity | discriminate
    | simpl; intuition (try lia; try discriminate)
    | simpl; intros Hn; first [reflexivity | exfalso; apply Hn; tauto]].
Qed.

Lemma scale_offsets_nonnegative (scaleType : string) (scale : scale_entry) :
  own SCALES scaleType = Some scale ->
  Forall (fun offset => 0 <= offset) (sc_intervals scale).
Proof.
  intros H. apply own_Some_In in H. simpl in H.
  repeat (destruct H as [[= <- <-] | H];
          [simpl; repeat constructor; lia |]).
  destruct H.
Qed.

Lemma sharp_name_among (p r : Z) (offsets : list Z) :
  0 <= p < 12 ->
  0 <= r ->
  Forall (fun offset => 0 <= offset) offsets ->
  In (indexToNote p false)
     (map (fun i => indexToNote (Z.rem (r + i) 12) false) offsets)
  <-> In p (map (fun i => Z.rem (r + i) 12) offsets).
Proof.
  intros Hp Hr Hall. rewrite Forall_forall in Hall.
  rewrite !in_map_iff. split; intros (i & Hi & Hin); exists i;
    (split; [| exact Hin]).
  - apply (f_equal noteToIndex) in Hi.
    pose proof (Hall i Hin) as Hi0.
    pose proof (Z.rem_bound_pos (r + i) 12 ltac:(lia) ltac:(lia)).
    rewrite (indexToNote_small (Z.rem (r + i) 12)) in Hi by lia.
    rewrite (indexToNote_small p) in Hi by lia. exact Hi.
  - now rewrite Hi.
Qed.

(** X28.  What the scale overlay shows on the keys of a returned
    keyboard, for a recognized key root and a registered scale and for
    octaves from [0] upwards: a key is marked in-scale exactly when its pitch class is one
    of the scale's indices and the key is not one of the three
    flat-named keys Eb, Ab and Bb (pitch classes 3, 8 and 10), which are
    never marked; and a key is marked out-of-scale exactly when it is not
    marked in-scale. *)
Theorem updateKeyboardOverlay_in_scale
  (currentKeyRoot currentScaleType : string) (scale : scale_result)
  (keys : list key_element) (startOctave endOctave : Z)
  (generated : list piano_key) :
  recognized currentKeyRoot ->
  getScaleNotes currentKeyRoot currentScaleType = Return (Some scale) ->
  0 <= startOctave ->
  generateKeyboard startOctave endOctave = Some generated ->
  exists keys',
    updateKeyboardOverlay currentKeyRoot currentScaleType keys
    = Return keys'
    /\ map ke_note keys' = map ke_note keys
    /\ forall el k,
         In el keys' ->
         In k generated ->
         ke_note el = Some (pk_note k) ->
         (In "in-scale" (ke_classes el)
          <-> In (Z.rem (pk_midi k) 12) (sr_noteIndices scale)
              /\ ~ In (Z.rem (pk_midi k) 12) [3; 8; 10])
         /\ (In "out-of-scale" (ke_classes el)
             <-> ~ In "in-scale" (ke_classes el)).
Proof.
  intros Hroot Hscale Hs Hg.
  unfold updateKeyboardOverlay. rewrite Hscale. cbn [bind].
  eexists. split; [reflexivity |].
  split.
  { rewrite map_map. apply map_ext. intros key. unfold overlay_key.
    destruct (ke_note key) as [n |] eqn:E; [| exact E].
    destruct (String.eqb n ""); [exact E | reflexivity]. }
  intros el k Hel Hk Hnote.
  apply in_map_iff in Hel. destruct Hel as (key & <- & _).
  apply (generateKeyboard_In _ _ _ _ Hg) in Hk. destruct Hk as (m & -> & Hm).
  assert (H12 : 12 <= m) by lia.
  destruct (key_note_only m H12) as (name & Hname & Hne & Hflat & Hsharp).
  change (pk_midi (piano_key_of m)) with m.
  rewrite Z.rem_mod_nonneg by lia.
  pose proof (Z.mod_pos_bound m 12 ltac:(lia)) as Hp.
  assert (Hin : includes (sr_notes scale) name = true
                <-> In (m mod 12) (sr_noteIndices scale)
                    /\ ~ In (m mod 12) [3; 8; 10]).
  { rewrite includes_In.
    unfold getScaleNotes, get in Hscale.
    destruct (own SCALES currentScaleType) as [sc |] eqn:Eo;
      [| destruct (includes Object_prototype_names currentScaleType);
         discriminate Hscale].
    injection Hscale as <-. cbn [sr_notes sr_noteIndices].
    pose proof (noteToIndex_recognized _ Hroot) as Hr.
    pose proof (scale_offsets_nonnegative _ _ Eo) as Hoff.
    destruct (in_dec Z.eq_dec (m mod 12) [3; 8; 10]) as [Hf | Hf].
    - split; [| tauto]. intros Hn. exfalso. apply (Hflat Hf).
      apply in_map_iff in Hn. destruct Hn as (i & <- & _).
      apply indexToNote_defined.
    - rewrite (Hsharp Hf).
      rewrite (sharp_name_among _ _ _ Hp (proj1 Hr) Hoff). tauto. }
  unfold overlay_key in *.
  destruct (ke_note key) as [n |] eqn:E;
    [| cbv iota in Hnote; rewrite E in Hnote; discriminate Hnote].
  assert (En : n = pk_note (piano_key_of m)).
  { destruct (String.eqb n ""); cbn [ke_note] in Hnote;
      rewrite ?E in Hnote; now injection Hnote. }
  subst n. rewrite Hne. cbv zeta. cbn [ke_classes]. rewrite Hname.
  rewrite !(classList_toggle_other _ "scale-root") by discriminate.
  rewrite classList_toggle_same.
  rewrite (classList_toggle_other _ "out-of-scale") by discriminate.
  rewrite classList_toggle_same.
  split; [exact Hin |].
  rewrite negb_true_iff. destruct (includes (sr_notes scale) name);
    intuition congruence.
Qed.

Lemma updateKeyboardOverlay_in_scale_witness :
  exists keys',
    updateKeyboardOverlay "C" "naturalMinor"
      [mkKeyElement (Some "Eb3") ["key"; "black"]]
    = Return keys'
    /\ forall el, In el keys' -> ~ In "in-scale" (ke_classes el).
Proof.
  assert (Hg : exists generated, generateKeyboard 3 5 = Some generated
                                 /\ In (piano_key_of 51) generated)
    by (eexists; split; [vm_compute; reflexivity | vm_compute; tauto]).
  destruct Hg as (generated & Hg & H51).
  destruct (updateKeyboardOverlay_in_scale "C" "naturalMinor" _
              [mkKeyElement (Some "Eb3") ["key"; "black"]] 3 5 generated
              ltac:(left; simpl; tauto) eq_refl ltac:(lia) Hg)
    as (keys' & Hk & Hn & Hall).
  exists keys'. split; [exact Hk |].
  intros el Hel.
  assert (He : ke_note el = Some (pk_note (piano_key_of 51))).
  { vm_compute in Hk. injection Hk as <-.
    destruct Hel as [<- | []]. reflexivity. }
  destruct (Hall el (piano_key_of 51) Hel H51 He) as [Hi _].
  intros Hc. apply Hi in Hc. destruct Hc as [_ Hc].
  apply Hc. vm_compute. tauto.
Defined.

(** C natural minor contains the pitch class of E flat, which the scale
    spells D#; the overlay marks the keyboard's Eb key out of scale. *)
Remark overlay_misses_E_flat_in_C_minor :
  isNoteInScale "D#" "C" "naturalMinor" = Return true
  /\ updateKeyboardOverlay "C" "naturalMinor"
       [mkKeyElement (Some "Eb3") ["key"; "black"]]
     = Return [mkKeyElement (Some "Eb3") ["key"; "black"; "out-of-scale"]].
Proof. split; vm_compute; reflexivity. Qed.

(** X29.  Highlighting the notes of a chord built by [buildChord] never
    touches a flat-named key: whatever the root and the chord type, the
    elements of the Eb, Ab and Bb keys of a returned keyboard (octave [0]
    upwards) come back unchanged, while a key with any other name whose pitch class belongs
    to the chord gets the highlight. *)
Theorem highlightChordKeys_skips_flat_keys
  (root chordType : string) (chord : chord_result)
  (keys : list key_element) (startOctave endOctave : Z)
  (generated : list piano_key)
  (i : nat) (el : key_element) (k : piano_key) :
  recognized root ->
  buildChord root chordType = Return (Some chord) ->
  0 <= startOctave ->
  generateKeyboard startOctave endOctave = Some generated ->
  In k generated ->
  nth_error keys i = Some el ->
  ke_note el = Some (pk_note k) ->
  exists el',
    nth_error (highlightChordKeys (cr_notes chord) true keys) i = Some el'
    /\ (In (Z.rem (pk_midi k) 12) [3; 8; 10] -> el' = el)
    /\ (~ In (Z.rem (pk_midi k) 12) [3; 8; 10] ->
        In (Z.rem (pk_midi k) 12)
           (map (fun offset => Z.rem (noteToIndex root + offset) 12)
                (cr_intervals chord)) ->
        In "chord-highlight" (ke_classes el')).
Proof.
  intros Hroot Hchord Hs Hg Hk Hi Hnote.
  unfold highlightChordKeys. rewrite nth_error_map, Hi. cbn [option_map].
  eexists. split; [reflexivity |].
  apply (generateKeyboard_In _ _ _ _ Hg) in Hk. destruct Hk as (m & -> & Hm).
  assert (H12 : 12 <= m) by lia.
  destruct (key_note_only m H12) as (name & Hname & Hne & Hflat & Hsharp).
  change (pk_midi (piano_key_of m)) with m.
  rewrite Z.rem_mod_nonneg by lia.
  pose proof (Z.mod_pos_bound m 12 ltac:(lia)) as Hp.
  rewrite Hnote, Hne, Hname.
  unfold buildChord, get in Hchord.
  destruct (own CHORD_TYPES chordType) as [c |] eqn:Eo;
    [| destruct (includes Object_prototype_names chordType);
       discriminate Hchord].
  injection Hchord as <-. cbn [cr_notes cr_intervals].
  pose proof (noteToIndex_recognized _ Hroot) as Hr.
  pose proof (chord_offsets_nonnegative _ _ Eo) as Hoff.
  split.
  - intros Hf. rewrite includes_notin; [reflexivity |].
    intros Hn. apply (Hflat Hf).
    apply in_map_iff in Hn. destruct Hn as (o & <- & _).
    apply indexToNote_defined.
  - intros Hf Hin. rewrite (Hsharp Hf).
    apply (sharp_name_among _ _ _ Hp (proj1 Hr) Hoff) in Hin.
    apply includes_In in Hin. rewrite Hin. cbn [ke_classes].
    apply classList_add_In. now left.
Qed.

Lemma highlightChordKeys_skips_flat_keys_witness :
  exists el',
    nth_error
      (highlightChordKeys ["C"; "D#"; "G"] true
         [mkKeyElement (Some "Eb3") ["key"; "black"]]) 0
    = Some el'
    /\ el' = mkKeyElement (Some "Eb3") ["key"; "black"].
Proof.
  assert (Hg : exists generated, generateKeyboard 3 5 = Some generated
                                 /\ In (piano_key_of 51) generated)
    by (eexists; split; [vm_compute; reflexivity | vm_compute; tauto]).
  destruct Hg as (generated & Hg & H51).
  destruct (highlightChordKeys_skips_flat_keys "C" "minor" _
              [mkKeyElement (Some "Eb3") ["key"; "black"]] 3 5 generated
              0%nat (mkKeyElement (Some "Eb3") ["key"; "black"])
              (piano_key_of 51)
              ltac:(left; simpl; tauto) eq_refl ltac:(lia) Hg
              H51 eq_refl eq_refl)
    as (el' & Hel & Hflat & _).
  exists el'. split; [exact Hel |].
  apply Hflat. vm_compute. tauto.
Defined.

Lemma command_checked :
  forallb
    (fun n => Z.land (Z.of_nat n) 240 =? 16 * (Z.of_nat n / 16))
    (seq 0 256)
  = true.
Proof. vm_compute. reflexivity. Qed.

Lemma command_of_status (status : Z) :
  0 <= status < 256 -> Z.land status 240 = 16 * (status / 16).
Proof.
  intros H. pose proof command_checked as C.
  rewrite forallb_forall in C.
  specialize (C (Z.to_nat status) ltac:(apply in_seq; lia)).
  rewrite Z2Nat.id in C by lia. now apply Z.eqb_eq in C.
Qed.

(** X30.  What [handleMessage] makes of the status byte: the channel in its low
    four bits is ignored.  A note-on (144 to 159) with a positive
    velocity plays the note; a note-off (128 to 143), like a note-on with
    velocity zero, stops it; every status byte outside these two ranges
    is ignored. *)
Theorem handleMessage_dispatch (status note velocity : Z) (rest : list Z) :
  0 <= status < 256 ->
  let data := status :: note :: velocity :: rest in
  (144 <= status < 160 -> 0 < velocity ->
   MIDIHandler.handleMessage data
   = MIDIHandler.PlayMidiNote (Some note) velocity)
  /\ (128 <= status < 144 \/ (144 <= status < 160 /\ velocity = 0) ->
      MIDIHandler.handleMessage data = MIDIHandler.StopMidiNote (Some note))
  /\ (status < 128 \/ 160 <= status ->
      MIDIHandler.handleMessage data = MIDIHandler.NoAction).
Proof.
  intros Hb data. subst data. unfold MIDIHandler.handleMessage.
  change (at_index (status :: note :: velocity :: rest) 0) with (Some status).
  change (at_index (status :: note :: velocity :: rest) 1) with (Some note).
  change (at_index (status :: note :: velocity :: rest) 2)
    with (Some velocity).
  cbv beta iota zeta. rewrite (command_of_status _ Hb).
  pose proof (Z.div_mod status 16 ltac:(lia)) as Hd.
  pose proof (Z.mod_pos_bound status 16 ltac:(lia)) as Hm.
  split; [| split].
  - intros Hs Hv.
    replace (16 * (status / 16) =? 144) with true
      by (symmetry; apply Z.eqb_eq; lia).
    replace (0 <? velocity) with true by (symmetry; apply Z.ltb_lt; lia).
    reflexivity.
  - intros [Hs | [Hs ->]].
    + replace (16 * (status / 16) =? 144) with false
        by (symmetry; apply Z.eqb_neq; lia).
      replace (16 * (status / 16) =? 128) with true
        by (symmetry; apply Z.eqb_eq; lia).
      reflexivity.
    + replace (16 * (status / 16) =? 144) with true
        by (symmetry; apply Z.eqb_eq; lia).
      cbn. now rewrite orb_true_r.
  - intros Hs.
    replace (16 * (status / 16) =? 144) with false
      by (symmetry; apply Z.eqb_neq; lia).
    replace (16 * (status / 16) =? 128) with false
      by (symmetry; apply Z.eqb_neq; lia).
    reflexivity.
Qed.

Lemma handleMessage_dispatch_witness :
  MIDIHandler.handleMessage [147; 60; 100]
  = MIDIHandler.PlayMidiNote (Some 60) 100
  /\ MIDIHandler.handleMessage [147; 60; 0]
     = MIDIHandler.StopMidiNote (Some 60)
  /\ MIDIHandler.handleMessage [176; 7; 100] = MIDIHandler.NoAction.
Proof.
  split; [| split].
  - apply (proj1 (handleMessage_dispatch 147 60 100 [] ltac:(lia)));
      lia.
  - apply (proj1 (proj2 (handleMessage_dispatch 147 60 0 [] ltac:(lia)))).
    right. lia.
  - apply (proj2 (proj2 (handleMessage_dispatch 176 7 100 [] ltac:(lia)))).
    lia.
Defined.
